(** * Low-Latency-Execution-Engine: wire codec, latency ring, SPSC queue

    A shallow embedding of the C++ sources
      - [MessageParser.cpp] / [MessageParser.h]  (parse, serialize, validation,
        the latency ring written by [recordLatency]),
      - [Order.h] / [WireOrder.h]                (the two record layouts),
      - [SPSCQueue.h] / [SPSCQueue.tpp]          (the lock-free ring buffer),
      - [LatencyTracker.cpp]                     (analyzeLatencies),
    together with the properties checked against the design document.

    Conventions.  Unsigned machine integers are [Z] with the wrap-around
    written out; a buffer is a [list Byte.byte]; a C array updated in place is
    a list with stdpp's lookup and insert; a [double] is carried as its
    64-bit pattern and given its IEEE-754 binary64 meaning through the
    Standard Library's [SpecFloat].  The host is the little-endian x86 the
    sources target ([<x86intrin.h>], [__rdtsc], [htonll]). *)

From Stdlib Require Import ZArith Lia List Bool SpecFloat.
From Stdlib Require Strings.Byte.
From stdpp Require Import base option list sorting.

Local Open Scope Z_scope.

(** ** Bytes and the host's memory representation of integers *)

Module Mem.

Abbreviation byte := Byte.byte.

Definition byte_to_Z (b : byte) : Z := Z.of_N (Byte.to_N b).

Definition byte_of_Z (z : Z) : byte :=
  default Byte.x00 (Byte.of_N (Z.to_N (z mod 256))).

(** [memcpy] of an [n]-byte unsigned integer out of / into memory on a
    little-endian host: least significant byte first. *)
Fixpoint le_split (n : nat) (v : Z) : list byte :=
  match n with
  | O => []
  | S n' => byte_of_Z (v mod 256) :: le_split n' (v / 256)
  end.

Fixpoint le_combine (l : list byte) : Z :=
  match l with
  | [] => 0
  | b :: l' => byte_to_Z b + 256 * le_combine l'
  end.

(** [htonll]/[ntohll] and [htonl]/[ntohl] on a little-endian host reverse
    the bytes of the value. *)
Definition bswap (n : nat) (v : Z) : Z := le_combine (rev (le_split n v)).

(** The [len] bytes found at offset [off]. *)
Definition slice (off len : nat) (l : list byte) : list byte :=
  take len (drop off l).

End Mem.
Import Mem.

(** ** Order.h and WireOrder.h *)

(** [enum struct Side : int8_t] and [enum struct OrderType : uint8_t] are
    one-byte enumerations with a fixed underlying type: every byte value is a
    value of the enumeration.  A tag is carried as its storage byte. *)
Definition Side := byte.
Definition OrderType := byte.

Definition Side_Buy : Side := Byte.x01.
Definition Side_Sell : Side := Byte.xff.          (* int8_t -1 *)
Definition OrderType_Limit : OrderType := Byte.x00.
Definition OrderType_Market : OrderType := Byte.x01.
Definition OrderType_Stop : OrderType := Byte.x02.

(** The numeric value of a [Side] tag: the byte read as [int8_t]. *)
Definition Side_value (s : Side) : Z :=
  let b := byte_to_Z s in if b <? 128 then b else b - 256.

(** [struct alignas(64) Order]; [price] is the bit pattern of the [double],
    [symbol] the [char[8]] array. *)
Record Order := mkOrder {
  order_id : Z;
  timestamp_ns : Z;
  symbol : list byte;
  price : Z;
  quantity : Z;
  side : Side;
  type : OrderType
}.

(** [#pragma pack(push, 1) struct WireOrder]: 38 bytes, no padding. *)
Record WireOrder := mkWireOrder {
  w_order_id : Z;
  w_timestamp_ns : Z;
  w_price : Z;
  w_quantity : Z;
  w_symbol : list byte;
  w_side : Side;
  w_type : OrderType
}.

Definition sizeof_WireOrder : nat := 38.

(** The object representation of a [WireOrder] ([memcpy(buffer, &w, 38)]). *)
Definition WireOrder_to_bytes (w : WireOrder) : list byte :=
  le_split 8 (w_order_id w) ++ le_split 8 (w_timestamp_ns w) ++
  le_split 8 (w_price w) ++ le_split 4 (w_quantity w) ++
  take 8 (w_symbol w) ++ [w_side w; w_type w].

(** [memcpy(&w, data, 38)]. *)
Definition WireOrder_of_bytes (data : list byte) : WireOrder :=
  {| w_order_id := le_combine (slice 0 8 data);
     w_timestamp_ns := le_combine (slice 8 8 data);
     w_price := le_combine (slice 16 8 data);
     w_quantity := le_combine (slice 24 4 data);
     w_symbol := slice 28 8 data;
     w_side := nth 36 data Byte.x00;
     w_type := nth 37 data Byte.x00 |}.

(** A well-formed [Order] object: every field fits its C type. *)
Definition Order_wf (o : Order) : Prop :=
  0 <= order_id o < 2 ^ 64 /\ 0 <= timestamp_ns o < 2 ^ 64 /\
  0 <= price o < 2 ^ 64 /\ 0 <= quantity o < 2 ^ 32 /\
  length (symbol o) = 8%nat.

(** ** IEEE-754 binary64 meaning of a bit pattern *)

Definition double_of_bits (b : Z) : spec_float :=
  let s := Z.testbit b 63 in
  let e := (b / 2 ^ 52) mod 2 ^ 11 in
  let m := b mod 2 ^ 52 in
  if e =? 0 then
    match m with
    | Zpos p => S754_finite s p (-1074)
    | _ => S754_zero s
    end
  else if e =? 2047 then
    if m =? 0 then S754_infinity s else S754_nan
  else
    match m + 2 ^ 52 with
    | Zpos p => S754_finite s p (e - 1075)
    | _ => S754_nan
    end.

(** ** MessageParser.cpp *)

Definition MAX_SAMPLES : Z := 1000000.

(** [timestamps_RDTSC] and the file-static [s_idx]. *)
Record Recorder := mkRecorder {
  timestamps_RDTSC : list Z;
  s_idx : Z
}.

(** The zero-initialised globals of a ring of [cap] slots. *)
Definition fresh_ring (cap : Z) : Recorder :=
  {| timestamps_RDTSC := replicate (Z.to_nat cap) 0; s_idx := 0 |}.

(** [timestampArr[s_idx % cap] = latency; ++s_idx;] for an array of [cap]
    slots ([cap] is [MAX_SAMPLES] in the program). *)
Definition recordLatency_cap (cap : Z) (r : Recorder) (latency : Z) : Recorder :=
  {| timestamps_RDTSC :=
       <[Z.to_nat (s_idx r mod cap) := latency]> (timestamps_RDTSC r);
     s_idx := (s_idx r + 1) mod 2 ^ 64 |}.

Definition recordLatency : Recorder -> Z -> Recorder :=
  recordLatency_cap MAX_SAMPLES.

Definition hton64 (value : Z) : Z := bswap 8 value.
Definition ntoh64 (value : Z) : Z := bswap 8 value.
Definition htonl (value : Z) : Z := bswap 4 value.
Definition ntohl (value : Z) : Z := bswap 4 value.

(** Both are a [memcpy] between a [double] and a [uint64_t]. *)
Definition doubleToUint64 (value : Z) : Z := value.
Definition uint64ToDouble (value : Z) : Z := value.

(** [std::isalnum] in the "C" locale (the program never sets another one);
    a byte outside ASCII is not alphanumeric. *)
Definition isalnum (c : byte) : bool :=
  let z := byte_to_Z c in
  ((48 <=? z) && (z <=? 57)) || ((65 <=? z) && (z <=? 90)) ||
  ((97 <=? z) && (z <=? 122)).

(** The loop of [validateSymbol] over the remaining characters. *)
Fixpoint validateSymbol_loop (cs : list byte) : bool :=
  match cs with
  | [] => true
  | c :: cs' =>
      if byte_to_Z c =? 0 then true                 (* break *)
      else if negb (isalnum c) then false           (* return false *)
      else validateSymbol_loop cs'
  end.

Definition validateSymbol (symbol : list byte) : bool :=
  validateSymbol_loop (take 8 symbol).

(** [price > 0.0] on the binary64 value. *)
Definition validatePrice (price : Z) : bool :=
  SFltb (S754_zero false) (double_of_bits price).

Definition validateQuantity (qty : Z) : bool := 0 <? qty.

(** [MessageParser::serialize]. *)
Definition serialize (order : Order) : list byte :=
  WireOrder_to_bytes
    {| w_order_id := hton64 (order_id order);
       w_timestamp_ns := hton64 (timestamp_ns order);
       w_price := hton64 (doubleToUint64 (price order));
       w_quantity := htonl (quantity order);
       w_symbol := symbol order;
       w_side := side order;
       w_type := type order |}.

(** The [Order] that [parse] fills in from the first 38 bytes. *)
Definition decode_fields (data : list byte) : Order :=
  let w := WireOrder_of_bytes data in
  {| order_id := ntoh64 (w_order_id w);
     timestamp_ns := ntoh64 (w_timestamp_ns w);
     price := uint64ToDouble (ntoh64 (w_price w));
     quantity := ntohl (w_quantity w);
     symbol := w_symbol w;
     side := w_side w;
     type := w_type w |}.

(** [MessageParser::parse(data, size)] with [size = length data].  [start]
    and [end_] are the values of the two [__rdtsc()] reads; the recorder is
    threaded through.  The three validators are evaluated left to right and
    the first failure returns [std::nullopt], as [||] does. *)
Definition parse (start end_ : Z) (data : list byte) (r : Recorder)
  : option Order * Recorder :=
  if (length data <? sizeof_WireOrder)%nat then (None, r)
  else
    let o := decode_fields data in
    if negb (validateSymbol (symbol o)) then (None, r)
    else if negb (validatePrice (price o)) then (None, r)
    else if negb (validateQuantity (quantity o)) then (None, r)
    else (Some o, recordLatency r ((end_ - start) mod 2 ^ 64)).

(** *** The order of the validator calls *)

(** [parse] returns the same [std::nullopt] whichever validator fails, so
    the order in which it calls them does not show in its result.  To state
    that order, the same body is evaluated once more with every call of a
    validator written down: a computation yields its value and the list of
    the calls it made, in the order it made them. *)
Inductive validator_call :=
  | call_validateSymbol
  | call_validatePrice
  | call_validateQuantity.

Definition traced (A : Type) : Type := (A * list validator_call)%type.

Definition ret {A : Type} (a : A) : traced A := (a, []).

Definition bind {A B : Type} (m : traced A) (f : A -> traced B) : traced B :=
  let (b, calls) := f (fst m) in (b, snd m ++ calls).

(** A call of validator [v] that returns [result]. *)
Definition called (v : validator_call) (result : bool) : traced bool :=
  (result, [v]).

(** [!a]. *)
Definition not_ (a : traced bool) : traced bool :=
  bind a (fun x => ret (negb x)).

(** [a || b]: the right operand is evaluated only when the left one is
    false. *)
Definition or_else (a b : traced bool) : traced bool :=
  bind a (fun x => if x then ret true else b).

(** [MessageParser::parse] with its validator calls written down. *)
Definition parse_traced (start end_ : Z) (data : list byte) (r : Recorder)
  : traced (option Order * Recorder) :=
  if (length data <? sizeof_WireOrder)%nat then ret (None, r)
  else
    let o := decode_fields data in
    bind (or_else
            (or_else
               (not_ (called call_validateSymbol (validateSymbol (symbol o))))
               (not_ (called call_validatePrice (validatePrice (price o)))))
            (not_ (called call_validateQuantity (validateQuantity (quantity o)))))
      (fun failed =>
         if failed then ret (None, r)
         else ret (Some o, recordLatency r ((end_ - start) mod 2 ^ 64))).

Definition AAPL : list byte :=
  [Byte.x41; Byte.x41; Byte.x50; Byte.x4c; Byte.x00; Byte.x00; Byte.x00; Byte.x00].

(** 50.25 as a binary64 bit pattern. *)
Definition price_50_25 : Z := 0x4049200000000000.

Definition sample_order : Order :=
  {| order_id := 1; timestamp_ns := 1000; symbol := AAPL;
     price := price_50_25; quantity := 256;
     side := Side_Buy; type := OrderType_Market |}.

(** Two 38-byte buffers with quantity 1 and price pattern 0 (the value
    [+0.0], which is not greater than zero): the first has the symbol
    ["-"], the second the symbol ["A"]. *)
Definition buf_bad_symbol_bad_price : list byte :=
  replicate 24 Byte.x00 ++ [Byte.x00; Byte.x00; Byte.x00; Byte.x01] ++
  [Byte.x2d; Byte.x00; Byte.x00; Byte.x00; Byte.x00; Byte.x00; Byte.x00; Byte.x00] ++
  [Byte.x01; Byte.x00].

Definition buf_bad_price : list byte :=
  replicate 24 Byte.x00 ++ [Byte.x00; Byte.x00; Byte.x00; Byte.x01] ++
  [Byte.x41; Byte.x00; Byte.x00; Byte.x00; Byte.x00; Byte.x00; Byte.x00; Byte.x00] ++
  [Byte.x01; Byte.x00].

(** The decoded record with its two tags replaced. *)
Definition with_tags (o : Order) (s : Side) (t : OrderType) : Order :=
  {| order_id := order_id o; timestamp_ns := timestamp_ns o;
     symbol := symbol o; price := price o; quantity := quantity o;
     side := s; type := t |}.

(** ** Recording a run of samples *)

(** [n] calls of [recordLatency] on a ring of [cap] slots, the call number
    [k] (counting from 0) passing the value [sample k]. *)
Definition record_samples (cap : Z) (sample : Z -> Z) (n : N) (r : Recorder) : Recorder :=
  N.peano_rect (fun _ => Recorder) r
    (fun k acc => recordLatency_cap cap acc (sample (Z.of_N k))) n.

(** Slot [k] of the array. *)
Definition slot (r : Recorder) (k : Z) : option Z :=
  timestamps_RDTSC r !! Z.to_nat k.

(** ** SPSCQueue.h / SPSCQueue.tpp *)

Module spscqueue.

(** [size_t] arithmetic: 64 bits, wrapping. *)
Definition size_t (z : Z) : Z := z mod 2 ^ 64.

(** What the constructor throws. *)
Inductive exception := invalid_argument.

Section SPSCQueue.

Context {T : Type}.

(** The four data members.  [buffer_] is raw storage of [capacity_] slots:
    a slot holds [Some x] while an object is alive in it (between the
    placement-new of [push] and the destructor call of [pop]) and [None]
    otherwise.  [head_] and [tail_] are the two atomics. *)
Record SPSCQueue := mkSPSCQueue {
  capacity_ : Z;
  buffer_ : list (option T);
  head_ : Z;
  tail_ : Z
}.

(** [SPSCQueue(size_t capacity)]: throws unless [capacity >= 2] and
    [capacity & (capacity - 1) == 0]; the allocation of the storage is taken
    to succeed. *)
Definition new (capacity : Z) : exception + SPSCQueue :=
  if (capacity <? 2) || negb (Z.land capacity (size_t (capacity - 1)) =? 0)
  then inl invalid_argument
  else inr {| capacity_ := capacity;
              buffer_ := replicate (Z.to_nat capacity) None;
              head_ := 0; tail_ := 0 |}.

(** [(i + 1) & (capacity_ - 1)]. *)
Definition next_index (q : SPSCQueue) (i : Z) : Z :=
  Z.land (size_t (i + 1)) (size_t (capacity_ q - 1)).

(** [new (&buffer_[h]) T(item)]. *)
Definition construct_at (q : SPSCQueue) (h : Z) (item : T) : SPSCQueue :=
  {| capacity_ := capacity_ q;
     buffer_ := <[Z.to_nat h := Some item]> (buffer_ q);
     head_ := head_ q; tail_ := tail_ q |}.

(** [head_.store(next, release)]. *)
Definition store_head (q : SPSCQueue) (next : Z) : SPSCQueue :=
  {| capacity_ := capacity_ q; buffer_ := buffer_ q;
     head_ := next; tail_ := tail_ q |}.

(** [std::move(buffer_[t])]: the object alive in slot [t], if there is one. *)
Definition move_from (q : SPSCQueue) (t : Z) : option T :=
  mjoin (buffer_ q !! Z.to_nat t).

(** [buffer_[t].~T()]. *)
Definition destroy_at (q : SPSCQueue) (t : Z) : SPSCQueue :=
  {| capacity_ := capacity_ q;
     buffer_ := <[Z.to_nat t := None]> (buffer_ q);
     head_ := head_ q; tail_ := tail_ q |}.

(** [tail_.store(next, release)]. *)
Definition store_tail (q : SPSCQueue) (next : Z) : SPSCQueue :=
  {| capacity_ := capacity_ q; buffer_ := buffer_ q;
     head_ := head_ q; tail_ := next |}.

(** [bool push(const T& item)], run without interruption. *)
Definition push (q : SPSCQueue) (item : T) : bool * SPSCQueue :=
  let h := head_ q in
  let next := next_index q h in
  if next =? tail_ q then (false, q)                          (* full *)
  else (true, store_head (construct_at q h item) next).

(** The outcome of [bool pop(T& item)]: [Empty] when it returns [false]
    (and leaves [item] alone), [Popped v] when it returns [true] with [v]
    moved into [item]. *)
Inductive pop_result :=
  | Empty
  | Popped (item : option T).

(** [bool pop(T& item)], run without interruption. *)
Definition pop (q : SPSCQueue) : pop_result * SPSCQueue :=
  let t := tail_ q in
  if t =? head_ q then (Empty, q)                             (* empty *)
  else (Popped (move_from q t),
        store_tail (destroy_at q t) (next_index q t)).

Definition full (q : SPSCQueue) : bool :=
  next_index q (head_ q) =? tail_ q.

Definition empty (q : SPSCQueue) : bool := head_ q =? tail_ q.

Definition size (q : SPSCQueue) : Z :=
  Z.land (size_t (head_ q - tail_ q)) (size_t (capacity_ q - 1)).

Definition capacity (q : SPSCQueue) : Z := capacity_ q.

(** The number of objects alive in the storage. *)
Definition live (q : SPSCQueue) : Z :=
  Z.of_nat (length (filter is_Some (buffer_ q))).

(** A single-threaded use of the queue: a sequence of calls. *)
Inductive call :=
  | Push (item : T)
  | Pop.

Definition do_call (q : SPSCQueue) (c : call) : SPSCQueue :=
  match c with
  | Push item => snd (push q item)
  | Pop => snd (pop q)
  end.

Definition run (q : SPSCQueue) (calls : list call) : SPSCQueue :=
  fold_left do_call calls q.

(** The loop of [~SPSCQueue()], from the local cursor [t] up to [h]:
    [while (t != h) { buffer_[t].~T(); t = (t + 1) & (capacity_ - 1); }].
    It yields what the destructor calls were made on, in order ([None] would
    be a call on a slot that holds no object), and the queue as the loop
    leaves it.  [fuel] bounds the number of iterations. *)
Fixpoint destroy_loop (fuel : nat) (q : SPSCQueue) (t h : Z)
  : option (list (option T) * SPSCQueue) :=
  if t =? h then Some ([], q)
  else
    match fuel with
    | O => None
    | S fuel' =>
        match destroy_loop fuel' (destroy_at q t) (next_index q t) h with
        | Some (destroyed, q') => Some (move_from q t :: destroyed, q')
        | None => None
        end
    end.

(** [~SPSCQueue()], up to the release of the storage. *)
Definition destructor (fuel : nat) (q : SPSCQueue)
  : option (list (option T) * SPSCQueue) :=
  destroy_loop fuel q (tail_ q) (head_ q).

End SPSCQueue.

Arguments SPSCQueue : clear implicits.
Arguments pop_result : clear implicits.
Arguments call : clear implicits.

End spscqueue.

(** ** Two threads on one queue *)

(** The producer thread runs [push] and the consumer thread runs [pop], each
    one memory access at a time; a schedule says which thread moves next and,
    for a load, which of the stores it may read it reads.

    Memory follows the release/acquire rules of the C++ memory model in
    their operational form.  An atomic object is the list of the stores made
    to it, in modification order.  A thread has a view: for each atomic the
    latest store it knows of, for each slot of the storage the number of
    accesses to it that happen before the thread's next step.  A load reads
    any store that is not older than the one in the thread's view.  A
    [release] store carries the view of the storing thread; an [acquire] load
    that reads it adds that view to the loading thread's; a [relaxed] access
    transfers nothing.  A plain access to a slot that does not come after
    every earlier access to the slot is a data race, which is undefined
    behaviour. *)
Module threads.

(** The [std::memory_order] values the queue uses. *)
Inductive memory_order := relaxed | acquire | release.

(** The two [std::atomic<size_t>] members. *)
Inductive atomic := Head | Tail.

Record view := mkView {
  at_head : nat;           (* position in the modification order of head_ *)
  at_tail : nat;           (* position in the modification order of tail_ *)
  seen : nat -> nat        (* per slot: accesses that happen before *)
}.

Definition bottom : view := mkView 0 0 (fun _ => 0%nat).

Definition join (V W : view) : view :=
  mkView (Nat.max (at_head V) (at_head W)) (Nat.max (at_tail V) (at_tail W))
         (fun i => Nat.max (seen V i) (seen W i)).

Definition at_ (a : atomic) (V : view) : nat :=
  match a with Head => at_head V | Tail => at_tail V end.

Definition set_at (a : atomic) (ts : nat) (V : view) : view :=
  match a with
  | Head => mkView ts (at_tail V) (seen V)
  | Tail => mkView (at_head V) ts (seen V)
  end.

Definition set_seen (i c : nat) (V : view) : view :=
  mkView (at_head V) (at_tail V) (fun j => if (j =? i)%nat then c else seen V j).

(** The access counts [A] after one more access to slot [i]. *)
Definition bump (i : nat) (A : nat -> nat) : nat -> nat :=
  fun j => if (j =? i)%nat then S (A i) else A j.

(** A store to an atomic: the value and the view it releases. *)
Record message := mkMessage { value : Z; released : view }.

Section Threads.

Context {T : Type}.

(** The members of the queue as the two threads share them.  [accesses]
    counts the plain accesses made to each slot. *)
Record memory := mkMemory {
  capacity_ : Z;
  buffer_ : list (option T);
  accesses : nat -> nat;
  head_ : list message;
  tail_ : list message
}.

Definition history (a : atomic) (m : memory) : list message :=
  match a with Head => head_ m | Tail => tail_ m end.

(** The store that a load by a thread with view [V] reads: the one [stale]
    places before the last, or the one in the thread's view if that is
    later.  Every store the thread may read is read for some [stale]. *)
Definition read_position (a : atomic) (stale : nat) (m : memory) (V : view) : nat :=
  Nat.max (at_ a V) (length (history a m) - 1 - stale).

(** [a.load(mo)] by a thread whose view is [V]: the value read and the
    thread's new view. *)
Definition load (mo : memory_order) (a : atomic) (stale : nat) (m : memory) (V : view)
  : option (Z * view) :=
  let ts := read_position a stale m V in
  match history a m !! ts with
  | Some msg =>
      Some (value msg,
            match mo with
            | acquire => join (set_at a ts V) (released msg)
            | _ => set_at a ts V
            end)
  | None => None
  end.

(** [a.store(v, mo)]: the store goes last in the modification order. *)
Definition store (mo : memory_order) (a : atomic) (v : Z) (m : memory) (V : view)
  : memory * view :=
  let ts := length (history a m) in
  let V' := set_at a ts V in
  let msg := mkMessage v (match mo with release => V' | _ => set_at a ts bottom end) in
  (match a with
   | Head => mkMemory (capacity_ m) (buffer_ m) (accesses m) (head_ m ++ [msg]) (tail_ m)
   | Tail => mkMemory (capacity_ m) (buffer_ m) (accesses m) (head_ m) (tail_ m ++ [msg])
   end, V').

(** A plain access to slot [i]: [None] when some earlier access to the slot
    does not happen before it (a data race); otherwise the access is counted
    and the thread knows of it. *)
Definition access (i : nat) (m : memory) (V : view) : option (memory * view) :=
  if (seen V i =? accesses m i)%nat then
    Some (mkMemory (capacity_ m) (buffer_ m) (bump i (accesses m)) (head_ m) (tail_ m),
          set_seen i (S (accesses m i)) V)
  else None.

(** [(i + 1) & (capacity_ - 1)]. *)
Definition next_index (m : memory) (i : Z) : Z :=
  Z.land (spscqueue.size_t (i + 1)) (spscqueue.size_t (capacity_ m - 1)).

(** [new (&buffer_[h]) T(item)]. *)
Definition construct_at (m : memory) (h : Z) (item : T) : memory :=
  mkMemory (capacity_ m) (<[Z.to_nat h := Some item]> (buffer_ m)) (accesses m)
    (head_ m) (tail_ m).

(** [std::move(buffer_[t])]: the object alive in slot [t], if there is one. *)
Definition move_from (m : memory) (t : Z) : option T :=
  mjoin (buffer_ m !! Z.to_nat t).

(** [buffer_[t].~T()]. *)
Definition destroy_at (m : memory) (t : Z) : memory :=
  mkMemory (capacity_ m) (<[Z.to_nat t := None]> (buffer_ m)) (accesses m)
    (head_ m) (tail_ m).

(** Where the producer stands inside [push(item)]. *)
Inductive producer :=
  | P_idle                               (* between two calls *)
  | P_head (item : T) (h : Z)            (* h = head_.load(relaxed) done *)
  | P_room (item : T) (h next : Z)       (* next != tail_.load(acquire) seen *)
  | P_built (item : T) (h next : Z).     (* new (&buffer_[h]) T(item) done *)

(** Where the consumer stands inside [pop(item)]. *)
Inductive consumer :=
  | C_idle                               (* between two calls *)
  | C_tail (t : Z)                       (* t = tail_.load(relaxed) done *)
  | C_data (t : Z)                       (* t != head_.load(acquire) seen *)
  | C_moved (t : Z) (item : option T)    (* item = std::move(buffer_[t]) done *)
  | C_destroyed (t : Z) (item : option T). (* buffer_[t].~T() done *)

(** The memory, the two threads with their views, the record of what the
    calls that returned [true] were given ([pushed]) and gave back
    ([popped]), and whether a data race has happened. *)
Record system := mkSystem {
  mem : memory;
  prod : producer;
  prod_view : view;
  cons : consumer;
  cons_view : view;
  pushed : list T;
  popped : list (option T);
  raced : bool
}.

(** The two threads start after the constructor has returned. *)
Definition init (q : spscqueue.SPSCQueue T) : system :=
  mkSystem
    (mkMemory (spscqueue.capacity_ q) (spscqueue.buffer_ q) (fun _ => 0%nat)
       [mkMessage (spscqueue.head_ q) bottom] [mkMessage (spscqueue.tail_ q) bottom])
    P_idle bottom C_idle bottom [] [] false.

(** The next access of the producer; [item] is the argument of the call it
    starts when it is idle, [stale] chooses the store a load reads. *)
Definition producer_step (item : T) (stale : nat) (s : system) : system :=
  if raced s then s else
  let m := mem s in
  let V := prod_view s in
  match prod s with
  | P_idle =>
      match load relaxed Head stale m V with
      | Some (h, V') =>
          mkSystem m (P_head item h) V' (cons s) (cons_view s) (pushed s) (popped s) false
      | None => s
      end
  | P_head x h =>
      let next := next_index m h in
      match load acquire Tail stale m V with
      | Some (t, V') =>
          if next =? t
          then mkSystem m P_idle V' (cons s) (cons_view s)
                 (pushed s) (popped s) false                      (* return false *)
          else mkSystem m (P_room x h next) V' (cons s) (cons_view s)
                 (pushed s) (popped s) false
      | None => s
      end
  | P_room x h next =>
      match access (Z.to_nat h) m V with
      | Some (m', V') =>
          mkSystem (construct_at m' h x) (P_built x h next) V' (cons s) (cons_view s)
            (pushed s) (popped s) false
      | None =>
          mkSystem m (prod s) V (cons s) (cons_view s) (pushed s) (popped s) true
      end
  | P_built x h next =>
      let (m', V') := store release Head next m V in
      mkSystem m' P_idle V' (cons s) (cons_view s)
        (pushed s ++ [x]) (popped s) false                        (* return true *)
  end.

(** The next access of the consumer. *)
Definition consumer_step (stale : nat) (s : system) : system :=
  if raced s then s else
  let m := mem s in
  let V := cons_view s in
  match cons s with
  | C_idle =>
      match load relaxed Tail stale m V with
      | Some (t, V') =>
          mkSystem m (prod s) (prod_view s) (C_tail t) V' (pushed s) (popped s) false
      | None => s
      end
  | C_tail t =>
      match load acquire Head stale m V with
      | Some (h, V') =>
          if t =? h
          then mkSystem m (prod s) (prod_view s) C_idle V'
                 (pushed s) (popped s) false                      (* return false *)
          else mkSystem m (prod s) (prod_view s) (C_data t) V'
                 (pushed s) (popped s) false
      | None => s
      end
  | C_data t =>
      match access (Z.to_nat t) m V with
      | Some (m', V') =>
          mkSystem m' (prod s) (prod_view s) (C_moved t (move_from m' t)) V'
            (pushed s) (popped s) false
      | None =>
          mkSystem m (prod s) (prod_view s) (cons s) V (pushed s) (popped s) true
      end
  | C_moved t item =>
      match access (Z.to_nat t) m V with
      | Some (m', V') =>
          mkSystem (destroy_at m' t) (prod s) (prod_view s) (C_destroyed t item) V'
            (pushed s) (popped s) false
      | None =>
          mkSystem m (prod s) (prod_view s) (cons s) V (pushed s) (popped s) true
      end
  | C_destroyed t item =>
      let (m', V') := store release Tail (next_index m t) m V in
      mkSystem m' (prod s) (prod_view s) C_idle V'
        (pushed s) (popped s ++ [item]) false                     (* return true *)
  end.

(** Whose turn it is, and what a load reads. *)
Inductive turn :=
  | Producer (item : T) (stale : nat)
  | Consumer (stale : nat).

Definition step (s : system) (u : turn) : system :=
  match u with
  | Producer item stale => producer_step item stale s
  | Consumer stale => consumer_step stale s
  end.

(** An execution of the two threads. *)
Definition run (s : system) (schedule : list turn) : system :=
  fold_left step schedule s.

End Threads.

Arguments memory : clear implicits.
Arguments producer : clear implicits.
Arguments consumer : clear implicits.
Arguments system : clear implicits.
Arguments turn : clear implicits.

End threads.

(** ** Invariant of the two threads *)

(** The slot that the item number [n] goes through. *)
Definition slot_of (cap n : Z) : nat := Z.to_nat (n mod cap).

(** The view knows every access made so far to the slots of the items
    numbered from [lo] up to [hi]. *)
Definition knows (cap : Z) (A : nat -> nat) (V : threads.view) (lo hi : Z) : Prop :=
  forall n, lo <= n < hi -> threads.seen V (slot_of cap n) = A (slot_of cap n).

(** A view never counts more accesses than were made. *)
Definition le_seen (V : threads.view) (A : nat -> nat) : Prop :=
  forall i, (threads.seen V i <= A i)%nat.

(** 1 while the current [push] has constructed its object and not yet
    stored the head. *)
Definition constructing {T : Type} (p : threads.producer T) : Z :=
  match p with threads.P_built _ _ _ => 1 | _ => 0 end.

(** 1 while the current [pop] has moved (destroyed) its object and not yet
    stored the tail. *)
Definition moving {T : Type} (c : threads.consumer T) : Z :=
  match c with threads.C_moved _ _ | threads.C_destroyed _ _ => 1 | _ => 0 end.

Definition destroying {T : Type} (c : threads.consumer T) : Z :=
  match c with threads.C_destroyed _ _ => 1 | _ => 0 end.

(** What the producer knows at each point of [push]. *)
Definition producer_ok {T : Type} (cap : Z) (s : threads.system T) : Prop :=
  let P := Z.of_nat (length (threads.pushed s)) in
  let known_tail := Z.of_nat (threads.at_tail (threads.prod_view s)) in
  match threads.prod s with
  | threads.P_idle => True
  | threads.P_head _ h => h = P mod cap
  | threads.P_room _ h next =>
      h = P mod cap /\ next = (P + 1) mod cap /\ P - known_tail <= cap - 2
  | threads.P_built x h next =>
      h = P mod cap /\ next = (P + 1) mod cap /\ P - known_tail <= cap - 2 /\
      threads.buffer_ (threads.mem s) !! slot_of cap P = Some (Some x)
  end.

(** What the consumer knows at each point of [pop]. *)
Definition consumer_ok {T : Type} (cap : Z) (s : threads.system T) : Prop :=
  let C := Z.of_nat (length (threads.popped s)) in
  let known_head := Z.of_nat (threads.at_head (threads.cons_view s)) in
  match threads.cons s with
  | threads.C_idle => True
  | threads.C_tail t => t = C mod cap
  | threads.C_data t => t = C mod cap /\ C < known_head
  | threads.C_moved t item | threads.C_destroyed t item =>
      t = C mod cap /\ C < known_head /\
      item = threads.pushed s !! length (threads.popped s)
  end.

(** The invariant of every execution.  No data race has happened.  The
    stores to [head_] are the successful pushes, in order, the store number
    [i] holding [i mod cap], and likewise for [tail_] and the pops.  The pops
    returned the first pushed items, in order.  Each item pushed and not yet
    destroyed lies constructed in its slot.  Each thread knows its own cursor
    exactly and a past value of the other's; the producer never runs more
    than [cap - 1] ahead of the tail it knows.  The view of a thread, and the
    view released by a store, knows every access to the slots it will let its
    reader touch: for the consumer and the stores to [tail_], the slots from
    the next construction on; for the producer and the stores to [head_], the
    slots from the next move on. *)
Record threads_inv {T : Type} (cap : Z) (s : threads.system T) : Prop := {
  inv_raced : threads.raced s = false;
  inv_capacity : threads.capacity_ (threads.mem s) = cap;
  inv_buffer : length (threads.buffer_ (threads.mem s)) = Z.to_nat cap;
  inv_head_len : length (threads.head_ (threads.mem s)) = S (length (threads.pushed s));
  inv_tail_len : length (threads.tail_ (threads.mem s)) = S (length (threads.popped s));
  inv_head_msg : forall i msg, threads.head_ (threads.mem s) !! i = Some msg ->
    threads.value msg = Z.of_nat i mod cap /\
    (threads.at_head (threads.released msg) <= i)%nat /\
    (threads.at_tail (threads.released msg) <= length (threads.popped s))%nat /\
    le_seen (threads.released msg) (threads.accesses (threads.mem s)) /\
    knows cap (threads.accesses (threads.mem s)) (threads.released msg)
      (Z.of_nat (length (threads.popped s)) + moving (threads.cons s)) (Z.of_nat i);
  inv_tail_msg : forall j msg, threads.tail_ (threads.mem s) !! j = Some msg ->
    threads.value msg = Z.of_nat j mod cap /\
    (threads.at_tail (threads.released msg) <= j)%nat /\
    (threads.at_head (threads.released msg) <= length (threads.pushed s))%nat /\
    le_seen (threads.released msg) (threads.accesses (threads.mem s)) /\
    knows cap (threads.accesses (threads.mem s)) (threads.released msg)
      (Z.of_nat (length (threads.pushed s)) + constructing (threads.prod s))
      (Z.of_nat j + cap);
  inv_prod_head : threads.at_head (threads.prod_view s) = length (threads.pushed s);
  inv_prod_tail : (threads.at_tail (threads.prod_view s) <= length (threads.popped s))%nat;
  inv_prod_le : le_seen (threads.prod_view s) (threads.accesses (threads.mem s));
  inv_prod_knows :
    knows cap (threads.accesses (threads.mem s)) (threads.prod_view s)
      (Z.of_nat (length (threads.popped s)) + moving (threads.cons s))
      (Z.of_nat (threads.at_tail (threads.prod_view s)) + cap);
  inv_room :
    Z.of_nat (length (threads.pushed s)) -
    Z.of_nat (threads.at_tail (threads.prod_view s)) <= cap - 1;
  inv_cons_tail : threads.at_tail (threads.cons_view s) = length (threads.popped s);
  inv_cons_head :
    (length (threads.popped s) <= threads.at_head (threads.cons_view s)
       <= length (threads.pushed s))%nat;
  inv_cons_le : le_seen (threads.cons_view s) (threads.accesses (threads.mem s));
  inv_cons_knows :
    knows cap (threads.accesses (threads.mem s)) (threads.cons_view s)
      (Z.of_nat (length (threads.pushed s)) + constructing (threads.prod s))
      (Z.of_nat (threads.at_head (threads.cons_view s)) + cap);
  inv_prefix :
    threads.popped s = Some <$> take (length (threads.popped s)) (threads.pushed s);
  inv_slots : forall n,
    Z.of_nat (length (threads.popped s)) + destroying (threads.cons s) <= n
      < Z.of_nat (length (threads.pushed s)) ->
    threads.buffer_ (threads.mem s) !! slot_of cap n =
      Some (threads.pushed s !! Z.to_nat n);
  inv_producer : producer_ok cap s;
  inv_consumer : consumer_ok cap s
}.

(** ** The memory orders at work: message passing *)

(** One thread makes a plain access to slot 0 and then stores 1 to [head_]
    with order [mo_store]; another loads [head_] with order [mo_load], reads
    that store, and makes a plain access to slot 0.  The result tells
    whether the second access is free of a data race. *)
Definition message_passing (mo_store mo_load : threads.memory_order) : bool :=
  let m0 : threads.memory unit :=
    threads.mkMemory 2 [None; None] (fun _ => 0%nat)
      [threads.mkMessage 0 threads.bottom] [threads.mkMessage 0 threads.bottom] in
  match threads.access 0 m0 threads.bottom with
  | Some (m1, V1) =>
      let (m2, _) := threads.store mo_store threads.Head 1 m1 V1 in
      match threads.load mo_load threads.Head 0 m2 threads.bottom with
      | Some (_, V2) => bool_decide (is_Some (threads.access 0 m2 V2))
      | None => false
      end
  | None => false
  end.

(** ** Calls that run without interruption *)

(** A step of the producer leads it to [p] and leaves the consumer and the
    record of the calls alone; likewise for the consumer. *)
Definition producer_at {T : Type} (s s' : threads.system T) (p : threads.producer T)
  : Prop :=
  threads.prod s' = p /\ threads.cons s' = threads.cons s /\
  threads.pushed s' = threads.pushed s /\ threads.popped s' = threads.popped s.

Definition consumer_at {T : Type} (s s' : threads.system T) (c : threads.consumer T)
  : Prop :=
  threads.cons s' = c /\ threads.prod s' = threads.prod s /\
  threads.pushed s' = threads.pushed s /\ threads.popped s' = threads.popped s.

(** The five accesses of a [pop] that finds an element, each load reading
    the last store; [n] such calls in a row. *)
Definition pop_call {T : Type} : list (threads.turn T) :=
  [threads.Consumer 0; threads.Consumer 0; threads.Consumer 0;
   threads.Consumer 0; threads.Consumer 0].

Definition pop_calls {T : Type} (n : nat) : list (threads.turn T) :=
  mjoin (replicate n pop_call).

(** ** Binary64 arithmetic *)

(** The [double] operations of LatencyTracker.cpp, from the Standard
    Library's executable specification of IEEE-754 ([SpecFloat], precision
    53, [emax] 1024, round to nearest even). *)
Module b64.

(** The conversion of a [uint64_t] or [size_t] to [double]. *)
Definition of_uint64 (n : Z) : spec_float := binary_normalize 53 1024 n 0 false.

Definition add : spec_float -> spec_float -> spec_float := SFadd 53 1024.
Definition mul : spec_float -> spec_float -> spec_float := SFmul 53 1024.
Definition div : spec_float -> spec_float -> spec_float := SFdiv 53 1024.

(** [static_cast<size_t>] of a [double]: the fraction is discarded.  (The
    conversion is undefined on a negative, infinite, NaN or too large
    value; 0 stands for these, which the program never converts.) *)
Definition to_size_t (x : spec_float) : Z :=
  match x with
  | S754_finite false m e =>
      if 0 <=? e then Z.pos m * 2 ^ e else Z.pos m / 2 ^ (- e)
  | _ => 0
  end.

(** The literals [0.0], [0.99] and [0.999]: the binary64 numbers nearest to
    them, [0x1.fae147ae147aep-1] and [0x1.ff7ced916872bp-1]. *)
Definition zero : spec_float := S754_zero false.
Definition d_0_99 : spec_float := S754_finite false 8917127262193582 (-53).
Definition d_0_999 : spec_float := S754_finite false 8998192055486251 (-53).

(** [P / 2^n] rounded to nearest, ties to even, the way [SpecFloat]'s [shr]
    and [round_nearest_even] compute it from the quotient, the last bit
    shifted out and the bits below it. *)
Definition rne_shift (P n : Z) : Z :=
  round_nearest_even (P / 2 ^ n)
    (loc_of_shr_record
       (Build_shr_record (P / 2 ^ n) (Z.odd (P / 2 ^ (n - 1)))
          (negb (P mod 2 ^ (n - 1) =? 0)))).

End b64.

(** ** LatencyTracker.cpp *)

Module LatencyTracker.

(** What [analyzeLatencies] prints: either the line "No latency data
    recorded." or the seven figures, in the order Count, Min, Median, Avg,
    99th percentile, 99.9th percentile, Max.  [out_of_bounds] stands for the
    undefined behaviour of a call whose [count] is larger than the array:
    the copy [latencies(timestampArr, timestampArr + count)] then reads past
    its end. *)
Record Report := mkReport {
  r_count : Z;
  r_min : Z;
  r_median : Z;
  r_avg : spec_float;
  r_p99 : Z;
  r_p999 : Z;
  r_max : Z
}.

Inductive output :=
  | no_data
  | stats (r : Report)
  | out_of_bounds.

(** [*std::min_element(first, last)] and [*std::max_element(first, last)]
    on a non-empty range. *)
Definition min_element (l : list Z) : Z :=
  match l with
  | [] => 0
  | x :: l' => fold_left Z.min l' x
  end.

Definition max_element (l : list Z) : Z :=
  match l with
  | [] => 0
  | x :: l' => fold_left Z.max l' x
  end.

(** [std::accumulate(first, last, init)] with a [double] accumulator:
    [acc = acc + *it], each sample converted to [double]. *)
Definition accumulate (l : list Z) (init : spec_float) : spec_float :=
  fold_left (fun acc x => b64.add acc (b64.of_uint64 x)) l init.

(** [std::sort(first, last)]: the ascending rearrangement. *)
Definition sort (l : list Z) : list Z := merge_sort Z.le l.

(** [sorted[static_cast<size_t>(sorted.size() * quantile)]]. *)
Definition percentile (sorted : list Z) (quantile : spec_float) : Z :=
  let size := Z.of_nat (length sorted) in
  nth (Z.to_nat (b64.to_size_t (b64.mul (b64.of_uint64 size) quantile))) sorted 0.

(** [LatencyTracker::analyzeLatencies(timestampArr, count)]. *)
Definition analyzeLatencies (timestampArr : list Z) (count : Z) : output :=
  if count =? 0 then no_data
  else if Z.of_nat (length timestampArr) <? count then out_of_bounds
  else
    let latencies := take (Z.to_nat count) timestampArr in
    let size := Z.of_nat (length latencies) in
    let min := min_element latencies in
    let max := max_element latencies in
    let avg := b64.div (accumulate latencies b64.zero) (b64.of_uint64 size) in
    let sorted := sort latencies in
    let median := nth (Z.to_nat (size / 2)) sorted 0 in
    let p99 := percentile sorted b64.d_0_99 in
    let p999 := percentile sorted b64.d_0_999 in
    stats {| r_count := size; r_min := min; r_median := median; r_avg := avg;
             r_p99 := p99; r_p999 := p999; r_max := max |}.

(** The exact sum of the samples. *)
Definition total (l : list Z) : Z := fold_right Z.add 0 l.

End LatencyTracker.

(** ** Invariants used in the proofs *)

(** What the ring holds after [n] samples: the write index is [n], every
    sample of the last [cap] sits in the slot of its number modulo [cap],
    and a slot never written still holds its initial zero. *)
Definition ring_inv (cap : Z) (sample : Z -> Z) (n : Z) (r : Recorder) : Prop :=
  s_idx r = n mod 2 ^ 64 /\
  length (timestamps_RDTSC r) = Z.to_nat cap /\
  (forall j, 0 <= j < n -> n - cap <= j -> slot r (j mod cap) = Some (sample j)) /\
  (forall k, n <= k < cap -> slot r k = Some 0).

(** The state of a queue of capacity [cap] used by one thread: both cursors
    are in range, the slots holding an object are the ones from the tail up
    to the head, cyclically, and their number is the cyclic distance. *)
Definition queue_inv {T : Type} (cap : Z) (q : spscqueue.SPSCQueue T) : Prop :=
  spscqueue.capacity_ q = cap /\
  length (spscqueue.buffer_ q) = Z.to_nat cap /\
  0 <= spscqueue.head_ q < cap /\
  0 <= spscqueue.tail_ q < cap /\
  (forall i, 0 <= i < cap ->
     (is_Some (spscqueue.move_from q i) <->
      (i - spscqueue.tail_ q) mod cap < (spscqueue.head_ q - spscqueue.tail_ q) mod cap)) /\
  spscqueue.live q = (spscqueue.head_ q - spscqueue.tail_ q) mod cap.

(** ** Validation in the design document's words *)

(** Every character that comes before the first NUL of the array (all of
    them when there is none) is alphanumeric. *)
Definition alnum_to_nul (sym : list byte) : Prop :=
  forall (i : nat) (c : byte),
    sym !! i = Some c ->
    (forall (j : nat) (d : byte), (j <= i)%nat -> sym !! j = Some d -> byte_to_Z d <> 0) ->
    isalnum c = true.

(** The binary64 value of the pattern compares greater than [+0.0]. *)
Definition double_gt_zero (bits : Z) : Prop :=
  SFcompare (double_of_bits bits) (S754_zero false) = Some Gt.

(** The failure kinds the design document lists for decode.  The C++
    [parse] returns [std::optional<Order>] and has no such type; it is used
    only to state what the document says about the kinds. *)
Inductive DecodeError := Truncated | InvalidSymbol | InvalidPrice | InvalidQuantity.

(** ** The remaining accessors of MessageParser *)

Definition getIndex (r : Recorder) : Z := s_idx r.
Definition getTimestampList (r : Recorder) : list Z := timestamps_RDTSC r.
Definition getMaxSamples : Z := MAX_SAMPLES.

(** The byte of weight [256^(n-1-i)] of [v]: what stands at offset [i] of an
    [n]-byte big-endian field holding [v]. *)
Definition be_byte (n i : nat) (v : Z) : byte :=
  byte_of_Z (v / 256 ^ Z.of_nat (n - 1 - i)).

(* ================================================================== *)
(** * Properties *)

(** ** The codec on a sample order *)

Example serialize_sample :
  map byte_to_Z (serialize sample_order) =
  [0;0;0;0;0;0;0;1; 0;0;0;0;0;0;3;232; 64;73;32;0;0;0;0;0; 0;0;1;0;
   65;65;80;76;0;0;0;0; 1; 1].
Proof. reflexivity. Qed.

Example parse_sample :
  fst (parse 10 25 (serialize sample_order) (fresh_ring 4)) = Some sample_order.
Proof. reflexivity. Qed.

(** ** Bytes: basic facts *)

Lemma byte_to_Z_range (b : byte) : 0 <= byte_to_Z b < 256.
Proof.
  unfold byte_to_Z. pose proof (Byte.to_N_bounded b). lia.
Qed.

Lemma byte_to_of_Z (z : Z) : byte_to_Z (byte_of_Z z) = z mod 256.
Proof.
  unfold byte_to_Z, byte_of_Z.
  assert (Hr : 0 <= z mod 256 < 256) by (apply Z.mod_pos_bound; lia).
  destruct (Byte.of_N (Z.to_N (z mod 256))) as [b|] eqn:E.
  - apply Byte.to_of_N in E. simpl. rewrite E. lia.
  - apply Byte.of_N_None_iff in E. lia.
Qed.

Lemma byte_of_to_Z (b : byte) : byte_of_Z (byte_to_Z b) = b.
Proof.
  unfold byte_of_Z. pose proof (byte_to_Z_range b) as Hr.
  rewrite Z.mod_small by lia. unfold byte_to_Z.
  rewrite N2Z.id, Byte.of_to_N. reflexivity.
Qed.

Lemma length_le_split (n : nat) (v : Z) : length (le_split n v) = n.
Proof. revert v. induction n as [|n IH]; intros v; simpl; [|rewrite IH]; reflexivity. Qed.

Lemma le_combine_range (l : list byte) : 0 <= le_combine l < 2 ^ (8 * Z.of_nat (length l)).
Proof.
  induction l as [|b l IH]; simpl le_combine; simpl length.
  - simpl. lia.
  - pose proof (byte_to_Z_range b).
    replace (8 * Z.of_nat (S (length l))) with (8 + 8 * Z.of_nat (length l)) by lia.
    rewrite Z.pow_add_r by lia. change (2 ^ 8) with 256. nia.
Qed.

Lemma le_combine_split (n : nat) (v : Z) :
  le_combine (le_split n v) = v mod 2 ^ (8 * Z.of_nat n).
Proof.
  revert v. induction n as [|n IH]; intros v.
  - simpl. rewrite Z.mod_1_r. reflexivity.
  - cbn [le_split le_combine]. rewrite IH, byte_to_of_Z, Z.mod_mod by lia.
    replace (8 * Z.of_nat (S n)) with (8 + 8 * Z.of_nat n) by lia.
    rewrite Z.pow_add_r by lia. change (2 ^ 8) with 256.
    rewrite Z.rem_mul_r by lia. reflexivity.
Qed.

Lemma le_split_combine (l : list byte) : le_split (length l) (le_combine l) = l.
Proof.
  induction l as [|b l IH]; simpl; [reflexivity|].
  pose proof (byte_to_Z_range b) as Hb.
  assert (E1 : (byte_to_Z b + 256 * le_combine l) mod 256 = byte_to_Z b).
  { rewrite (Z.mul_comm 256), Z.mod_add by lia. apply Z.mod_small; lia. }
  assert (E2 : (byte_to_Z b + 256 * le_combine l) / 256 = le_combine l).
  { rewrite (Z.mul_comm 256), Z.div_add by lia.
    rewrite Z.div_small by lia. lia. }
  rewrite E1, E2, IH, byte_of_to_Z. reflexivity.
Qed.

Lemma bswap_range (n : nat) (v : Z) : 0 <= bswap n v < 2 ^ (8 * Z.of_nat n).
Proof.
  unfold bswap.
  pose proof (le_combine_range (rev (le_split n v))) as H.
  rewrite length_rev, length_le_split in H. exact H.
Qed.

(** Swapping twice is the identity on values of the width. *)
Lemma bswap_involutive (n : nat) (v : Z) :
  0 <= v < 2 ^ (8 * Z.of_nat n) -> bswap n (bswap n v) = v.
Proof.
  intros Hv. unfold bswap.
  assert (E : le_split n (le_combine (rev (le_split n v))) = rev (le_split n v)).
  { rewrite <- (length_le_split n v) at 1. rewrite <- length_rev.
    apply le_split_combine. }
  rewrite E, rev_involutive, le_combine_split. apply Z.mod_small; exact Hv.
Qed.

Lemma slice_app_here (a rest : list byte) (len : nat) :
  length a = len -> slice 0 len (a ++ rest) = a.
Proof.
  intros <-. unfold slice. rewrite drop_0. apply take_app_length.
Qed.

Lemma slice_app_skip (a rest : list byte) (off len : nat) :
  (length a <= off)%nat ->
  slice off len (a ++ rest) = slice (off - length a) len rest.
Proof.
  intros H. unfold slice. rewrite drop_app_ge by exact H. reflexivity.
Qed.

Lemma nth_app_skip (a rest : list byte) (i : nat) (d : byte) :
  (length a <= i)%nat -> nth i (a ++ rest) d = nth (i - length a) rest d.
Proof. intros H. apply app_nth2. lia. Qed.

(** ** The codec: decode after encode *)

Lemma length_WireOrder_to_bytes (w : WireOrder) :
  length (w_symbol w) = 8%nat -> length (WireOrder_to_bytes w) = sizeof_WireOrder.
Proof.
  intros Hs. unfold WireOrder_to_bytes.
  rewrite !length_app, !length_le_split, length_take, Hs. reflexivity.
Qed.

Ltac skip_field :=
  first [ rewrite slice_app_skip by (rewrite ?length_le_split, ?length_take; lia)
        | rewrite nth_app_skip by (rewrite ?length_le_split, ?length_take; lia) ];
  rewrite ?length_le_split; cbn [Nat.sub].

Lemma WireOrder_of_to_bytes (w : WireOrder) :
  0 <= w_order_id w < 2 ^ 64 -> 0 <= w_timestamp_ns w < 2 ^ 64 ->
  0 <= w_price w < 2 ^ 64 -> 0 <= w_quantity w < 2 ^ 32 ->
  length (w_symbol w) = 8%nat ->
  WireOrder_of_bytes (WireOrder_to_bytes w) = w.
Proof.
  intros Hi Ht Hp Hq Hs. destruct w as [i t p q sy sd ty]; simpl in *.
  unfold WireOrder_of_bytes, WireOrder_to_bytes;
    cbn [w_order_id w_timestamp_ns w_price w_quantity w_symbol w_side w_type].
  rewrite (take_ge sy) by lia.
  f_equal.
  - rewrite slice_app_here by apply length_le_split.
    rewrite le_combine_split. apply Z.mod_small. exact Hi.
  - skip_field. rewrite slice_app_here by apply length_le_split.
    rewrite le_combine_split. apply Z.mod_small. exact Ht.
  - do 2 skip_field. rewrite slice_app_here by apply length_le_split.
    rewrite le_combine_split. apply Z.mod_small. exact Hp.
  - do 3 skip_field. rewrite slice_app_here by apply length_le_split.
    rewrite le_combine_split. apply Z.mod_small. exact Hq.
  - do 4 skip_field. apply slice_app_here. exact Hs.
  - do 4 skip_field. rewrite nth_app_skip by lia. rewrite Hs. reflexivity.
  - do 4 skip_field. rewrite nth_app_skip by lia. rewrite Hs. reflexivity.
Qed.

Lemma bswap8_range (v : Z) : 0 <= bswap 8 v < 2 ^ 64.
Proof. exact (bswap_range 8 v). Qed.

Lemma bswap4_range (v : Z) : 0 <= bswap 4 v < 2 ^ 32.
Proof. exact (bswap_range 4 v). Qed.

Lemma bswap8_involutive (v : Z) : 0 <= v < 2 ^ 64 -> bswap 8 (bswap 8 v) = v.
Proof. exact (bswap_involutive 8 v). Qed.

Lemma bswap4_involutive (v : Z) : 0 <= v < 2 ^ 32 -> bswap 4 (bswap 4 v) = v.
Proof. exact (bswap_involutive 4 v). Qed.

Lemma decode_fields_serialize (o : Order) :
  Order_wf o -> decode_fields (serialize o) = o.
Proof.
  intros (Hi & Ht & Hp & Hq & Hs). unfold decode_fields, serialize.
  unfold ntoh64, hton64, ntohl, htonl, uint64ToDouble, doubleToUint64.
  rewrite WireOrder_of_to_bytes;
    cbn [w_order_id w_timestamp_ns w_price w_quantity w_symbol w_side w_type].
  - rewrite !bswap8_involutive, bswap4_involutive by assumption.
    destruct o; reflexivity.
  - apply bswap8_range.
  - apply bswap8_range.
  - apply bswap8_range.
  - apply bswap4_range.
  - exact Hs.
Qed.

(** ** Validation: the code against the document's words *)

Lemma validateSymbol_loop_spec (cs : list byte) :
  validateSymbol_loop cs = true <-> alnum_to_nul cs.
Proof.
  induction cs as [|c cs IH]; simpl.
  - split; [intros _ i c Hi; discriminate Hi | reflexivity].
  - destruct (byte_to_Z c =? 0) eqn:Ez.
    + apply Z.eqb_eq in Ez. split; [|reflexivity].
      intros _ i d Hi Hnz. exfalso. apply (Hnz 0%nat c); [lia|reflexivity|exact Ez].
    + apply Z.eqb_neq in Ez. destruct (isalnum c) eqn:Ea; simpl.
      * rewrite IH. split.
        -- intros H [|i] d Hi Hnz.
           ++ simpl in Hi. injection Hi as <-. exact Ea.
           ++ apply (H i d Hi). intros j e Hj He.
              apply (Hnz (S j) e); [lia|exact He].
        -- intros H i d Hi Hnz. apply (H (S i) d Hi).
           intros [|j] e Hj He.
           ++ simpl in He. injection He as <-. exact Ez.
           ++ apply (Hnz j e); [lia|exact He].
      * split; [discriminate|].
        intros H. rewrite <- Ea. apply (H 0%nat c); [reflexivity|].
        intros j e Hj He. assert (j = 0%nat) as -> by lia.
        simpl in He. injection He as <-. exact Ez.
Qed.

Lemma validateSymbol_spec (sym : list byte) :
  length sym = 8%nat -> (validateSymbol sym = true <-> alnum_to_nul sym).
Proof.
  intros H. unfold validateSymbol. rewrite take_ge by lia.
  apply validateSymbol_loop_spec.
Qed.

Lemma validatePrice_spec (bits : Z) :
  validatePrice bits = true <-> double_gt_zero bits.
Proof.
  unfold validatePrice, double_gt_zero, SFltb.
  destruct (double_of_bits bits) as [s|s| |s m e]; simpl;
    try destruct s; split; intros H; congruence.
Qed.

Lemma validateQuantity_spec (qty : Z) : validateQuantity qty = true <-> 0 < qty.
Proof. unfold validateQuantity. apply Z.ltb_lt. Qed.

(** ** What [parse] reads *)

Lemma slice_take (off len n : nat) (l : list byte) :
  (off + len <= n)%nat -> slice off len (take n l) = slice off len l.
Proof.
  intros H. unfold slice. rewrite skipn_firstn_comm, take_take.
  f_equal. lia.
Qed.

Lemma nth_take (i n : nat) (l : list byte) (d : byte) :
  (i < n)%nat -> nth i (take n l) d = nth i l d.
Proof. intros H. rewrite !nth_lookup, lookup_take_lt by exact H. reflexivity. Qed.

Lemma slice_insert_ge (off len i : nat) (x : byte) (l : list byte) :
  (off + len <= i)%nat -> slice off len (<[i:=x]> l) = slice off len l.
Proof.
  intros H. unfold slice.
  rewrite drop_insert_ge, take_insert_ge by lia. reflexivity.
Qed.

Lemma length_slice (off len : nat) (l : list byte) :
  (off + len <= length l)%nat -> length (slice off len l) = len.
Proof. intros H. unfold slice. rewrite length_take, length_drop. lia. Qed.

Lemma decode_fields_take (data : list byte) :
  decode_fields (take sizeof_WireOrder data) = decode_fields data.
Proof.
  unfold decode_fields, WireOrder_of_bytes, sizeof_WireOrder.
  cbn [w_order_id w_timestamp_ns w_price w_quantity w_symbol w_side w_type].
  rewrite !slice_take, !nth_take by lia. reflexivity.
Qed.

Lemma parse_short (start end_ : Z) (data : list byte) (r : Recorder) :
  (length data < sizeof_WireOrder)%nat -> parse start end_ data r = (None, r).
Proof.
  intros H. unfold parse.
  destruct (Nat.ltb_spec (length data) sizeof_WireOrder); [reflexivity | lia].
Qed.

Lemma parse_long (start end_ : Z) (data : list byte) (r : Recorder) :
  (sizeof_WireOrder <= length data)%nat ->
  parse start end_ data r =
    let o := decode_fields data in
    if validateSymbol (symbol o) && validatePrice (price o)
       && validateQuantity (quantity o)
    then (Some o, recordLatency r ((end_ - start) mod 2 ^ 64))
    else (None, r).
Proof.
  intros H. unfold parse.
  destruct (Nat.ltb_spec (length data) sizeof_WireOrder); [lia|].
  cbv zeta.
  destruct (validateSymbol _), (validatePrice _), (validateQuantity _); reflexivity.
Qed.

Lemma parse_valid (start end_ : Z) (data : list byte) (r : Recorder) :
  (sizeof_WireOrder <= length data)%nat ->
  alnum_to_nul (symbol (decode_fields data)) ->
  double_gt_zero (price (decode_fields data)) ->
  0 < quantity (decode_fields data) ->
  parse start end_ data r =
    (Some (decode_fields data), recordLatency r ((end_ - start) mod 2 ^ 64)).
Proof.
  intros Hl Hs Hp Hq. rewrite parse_long by exact Hl. cbv zeta.
  apply validateSymbol_spec in Hs.
  2:{ apply length_slice. unfold sizeof_WireOrder in Hl. lia. }
  apply validatePrice_spec in Hp. apply validateQuantity_spec in Hq.
  rewrite Hs, Hp, Hq. reflexivity.
Qed.

Lemma parse_invalid_symbol (start end_ : Z) (data : list byte) (r : Recorder) :
  (sizeof_WireOrder <= length data)%nat ->
  ~ alnum_to_nul (symbol (decode_fields data)) ->
  parse start end_ data r = (None, r).
Proof.
  intros Hl Hs. rewrite parse_long by exact Hl. cbv zeta.
  destruct (validateSymbol (symbol (decode_fields data))) eqn:E; [|reflexivity].
  exfalso. apply Hs. apply validateSymbol_spec; [|exact E].
  apply length_slice. unfold sizeof_WireOrder in Hl. lia.
Qed.

(** ** The claims about the codec *)

(** C1 (round trip).  For every well-formed [Order] whose symbol is
    alphanumeric up to its first NUL, whose price is greater than zero and
    whose quantity is greater than zero, [serialize] yields 38 bytes and
    [parse] of them succeeds with a record equal to the original in every
    field (and records one latency sample). *)
Theorem parse_serialize_roundtrip (x : Order) (start end_ : Z) (r : Recorder) :
  Order_wf x ->
  alnum_to_nul (symbol x) ->
  double_gt_zero (price x) ->
  0 < quantity x ->
  length (serialize x) = 38%nat /\
  parse start end_ (serialize x) r =
    (Some x, recordLatency r ((end_ - start) mod 2 ^ 64)).
Proof.
  intros Hwf Hs Hp Hq.
  assert (Hlen : length (serialize x) = 38%nat).
  { apply length_WireOrder_to_bytes. apply Hwf. }
  split; [exact Hlen|].
  rewrite parse_valid; rewrite ?decode_fields_serialize by exact Hwf;
    try assumption; [reflexivity|].
  rewrite Hlen. unfold sizeof_WireOrder. lia.
Qed.

Lemma parse_serialize_roundtrip_witness :
  length (serialize sample_order) = 38%nat /\
  parse 10 25 (serialize sample_order) (fresh_ring 4) =
    (Some sample_order, recordLatency (fresh_ring 4) ((25 - 10) mod 2 ^ 64)).
Proof.
  apply (parse_serialize_roundtrip sample_order 10 25 (fresh_ring 4)).
  - unfold Order_wf, sample_order, price_50_25; simpl. repeat split; lia.
  - apply validateSymbol_spec; reflexivity.
  - reflexivity.
  - simpl. lia.
Defined.

(** C4 (short input), as the code has it.  For every buffer shorter than 38
    bytes [parse] returns [std::nullopt], whatever the bytes are, and leaves
    the latency recorder untouched.  [std::nullopt] is the only failure value
    of [parse]: no failure kind is attached to it. *)
Theorem parse_truncated_nullopt (start end_ : Z) (data : list byte) (r : Recorder) :
  (length data < 38)%nat -> parse start end_ data r = (None, r).
Proof. apply parse_short. Qed.

Lemma parse_truncated_nullopt_witness :
  parse 0 7 [Byte.xff; Byte.x41; Byte.x00] (fresh_ring 4) = (None, fresh_ring 4).
Proof.
  apply (parse_truncated_nullopt 0 7 [Byte.xff; Byte.x41; Byte.x00] (fresh_ring 4)).
  simpl. lia.
Defined.

(** C4, as the document words it, fails: the result for a short buffer is
    the very value returned for a full-length buffer with an invalid symbol,
    so no reading of the result tells [Truncated] from another kind. *)
Lemma parse_truncated_kind_counterexample :
  (length (@nil byte) < 38)%nat /\
  length buf_bad_symbol_bad_price = 38%nat /\
  ~ (exists kind : option Order -> DecodeError,
       kind (fst (parse 0 7 [] (fresh_ring 4))) = Truncated /\
       kind (fst (parse 0 7 buf_bad_symbol_bad_price (fresh_ring 4))) <> Truncated).
Proof.
  split; [simpl; lia|]. split; [reflexivity|].
  intros [kind [H1 H2]]. apply H2. exact H1.
Qed.

Lemma parse_traced_cases (start end_ : Z) (data : list byte) (r : Recorder) :
  (sizeof_WireOrder <= length data)%nat ->
  let o := decode_fields data in
  parse_traced start end_ data r =
  if negb (validateSymbol (symbol o)) then ((None, r), [call_validateSymbol])
  else if negb (validatePrice (price o))
  then ((None, r), [call_validateSymbol; call_validatePrice])
  else if negb (validateQuantity (quantity o))
  then ((None, r), [call_validateSymbol; call_validatePrice; call_validateQuantity])
  else ((Some o, recordLatency r ((end_ - start) mod 2 ^ 64)),
        [call_validateSymbol; call_validatePrice; call_validateQuantity]).
Proof.
  intros Hl o. unfold parse_traced.
  destruct (Nat.ltb_spec (length data) sizeof_WireOrder) as [H|_]; [lia|].
  fold o.
  destruct (validateSymbol (symbol o)), (validatePrice (price o)),
    (validateQuantity (quantity o)); reflexivity.
Qed.

(** The traced evaluation computes what [parse] computes. *)
Lemma parse_traced_result (start end_ : Z) (data : list byte) (r : Recorder) :
  fst (parse_traced start end_ data r) = parse start end_ data r.
Proof.
  unfold parse.
  destruct (Nat.ltb_spec (length data) sizeof_WireOrder) as [H|H].
  - unfold parse_traced.
    destruct (Nat.ltb_spec (length data) sizeof_WireOrder) as [_|H']; [reflexivity|lia].
  - rewrite parse_traced_cases by exact H. cbv zeta.
    destruct (validateSymbol _), (validatePrice _), (validateQuantity _); reflexivity.
Qed.

(** C5 (validation order), as the code has it.  For every buffer of at
    least 38 bytes the validators are called in the order symbol, price,
    quantity, each one only when those before it have passed, and the first
    failure ends the calls.  So when the symbol field holds a
    non-alphanumeric byte before its first NUL, [validateSymbol] is the only
    validator called, whatever the price and quantity fields hold; [parse]
    returns [std::nullopt] and records nothing.  When the symbol passes and
    the price is not greater than zero the calls are symbol, price; in all
    other cases all three are called, in that order.  The result names no
    failure kind. *)
Theorem parse_symbol_checked_first (start end_ : Z) (data : list byte) (r : Recorder) :
  (38 <= length data)%nat ->
  let o := decode_fields data in
  let calls := snd (parse_traced start end_ data r) in
  fst (parse_traced start end_ data r) = parse start end_ data r /\
  (exists n : nat,
     (1 <= n <= 3)%nat /\
     calls = take n [call_validateSymbol; call_validatePrice; call_validateQuantity]) /\
  (~ alnum_to_nul (symbol o) ->
     calls = [call_validateSymbol] /\ parse start end_ data r = (None, r)) /\
  (alnum_to_nul (symbol o) -> ~ double_gt_zero (price o) ->
     calls = [call_validateSymbol; call_validatePrice] /\
     parse start end_ data r = (None, r)) /\
  (alnum_to_nul (symbol o) -> double_gt_zero (price o) ->
     calls = [call_validateSymbol; call_validatePrice; call_validateQuantity] /\
     (fst (parse start end_ data r) = None <-> ~ 0 < quantity o)).
Proof.
  intros Hl o calls.
  assert (Hs : length (symbol o) = 8%nat) by (apply length_slice; lia).
  pose proof (validateSymbol_spec (symbol o) Hs) as Hsym.
  pose proof (validatePrice_spec (price o)) as Hprice.
  pose proof (validateQuantity_spec (quantity o)) as Hqty.
  pose proof (parse_traced_result start end_ data r) as Hres.
  split; [exact Hres|].
  unfold calls. rewrite <- Hres.
  rewrite (parse_traced_cases start end_ data r Hl). cbv zeta. fold o.
  destruct (validateSymbol (symbol o)) eqn:Es;
    destruct (validatePrice (price o)) eqn:Ep;
    destruct (validateQuantity (quantity o)) eqn:Eq; cbn [negb fst snd].
  all: split; [first [exists 1%nat; split; [lia|reflexivity]
                     |exists 2%nat; split; [lia|reflexivity]
                     |exists 3%nat; split; [lia|reflexivity]]|].
  all: split; [intros Hn; try (exfalso; apply Hn, Hsym; reflexivity);
               split; reflexivity|].
  all: split; [intros Ha Hn; try (apply Hsym in Ha; discriminate Ha);
               try (exfalso; apply Hn, Hprice; reflexivity);
               split; reflexivity|].
  all: intros Ha Hp; try (apply Hsym in Ha; discriminate Ha);
         try (apply Hprice in Hp; discriminate Hp).
  - split; [reflexivity|]. split; [discriminate|].
    intros Hn. exfalso. apply Hn, Hqty. reflexivity.
  - split; [reflexivity|]. split; [intros _ Hq; apply Hqty in Hq; discriminate Hq|].
    reflexivity.
Qed.

Lemma parse_symbol_checked_first_witness :
  let o := decode_fields buf_bad_symbol_bad_price in
  let calls := snd (parse_traced 0 7 buf_bad_symbol_bad_price (fresh_ring 4)) in
  fst (parse_traced 0 7 buf_bad_symbol_bad_price (fresh_ring 4)) =
    parse 0 7 buf_bad_symbol_bad_price (fresh_ring 4) /\
  (exists n : nat,
     (1 <= n <= 3)%nat /\
     calls = take n [call_validateSymbol; call_validatePrice; call_validateQuantity]) /\
  (~ alnum_to_nul (symbol o) ->
     calls = [call_validateSymbol] /\
     parse 0 7 buf_bad_symbol_bad_price (fresh_ring 4) = (None, fresh_ring 4)) /\
  (alnum_to_nul (symbol o) -> ~ double_gt_zero (price o) ->
     calls = [call_validateSymbol; call_validatePrice] /\
     parse 0 7 buf_bad_symbol_bad_price (fresh_ring 4) = (None, fresh_ring 4)) /\
  (alnum_to_nul (symbol o) -> double_gt_zero (price o) ->
     calls = [call_validateSymbol; call_validatePrice; call_validateQuantity] /\
     (fst (parse 0 7 buf_bad_symbol_bad_price (fresh_ring 4)) = None <->
      ~ 0 < quantity o)).
Proof.
  apply (parse_symbol_checked_first 0 7 buf_bad_symbol_bad_price (fresh_ring 4)).
  simpl. lia.
Defined.

(** C5, as the document words it, fails: a buffer whose symbol and price
    are both invalid and a buffer whose price alone is invalid give the same
    result, so the result cannot be [InvalidSymbol] for the first and
    [InvalidPrice] for the second. *)
Lemma parse_symbol_kind_counterexample :
  (~ alnum_to_nul (symbol (decode_fields buf_bad_symbol_bad_price)) /\
   ~ double_gt_zero (price (decode_fields buf_bad_symbol_bad_price))) /\
  (alnum_to_nul (symbol (decode_fields buf_bad_price)) /\
   ~ double_gt_zero (price (decode_fields buf_bad_price))) /\
  ~ (exists kind : option Order -> DecodeError,
       kind (fst (parse 0 7 buf_bad_symbol_bad_price (fresh_ring 4))) = InvalidSymbol /\
       kind (fst (parse 0 7 buf_bad_price (fresh_ring 4))) = InvalidPrice).
Proof.
  repeat split.
  - intros H. apply validateSymbol_spec in H; [discriminate H | reflexivity].
  - intros H; discriminate H.
  - apply validateSymbol_spec; reflexivity.
  - intros H; discriminate H.
  - intros [kind [H1 H2]]. change (fst (parse 0 7 buf_bad_price (fresh_ring 4)))
      with (fst (parse 0 7 buf_bad_symbol_bad_price (fresh_ring 4))) in H2.
    congruence.
Qed.

Lemma decode_fields_set_tags (data : list byte) (s t : byte) :
  (38 <= length data)%nat ->
  decode_fields (<[36%nat:=s]> (<[37%nat:=t]> data)) =
  with_tags (decode_fields data) s t.
Proof.
  intros Hl. unfold decode_fields, with_tags, WireOrder_of_bytes.
  cbn [w_order_id w_timestamp_ns w_price w_quantity w_symbol w_side w_type
       order_id timestamp_ns symbol price quantity side type].
  rewrite !slice_insert_ge by lia.
  f_equal.
  - rewrite nth_lookup, list_lookup_insert_eq by (rewrite length_insert; lia).
    reflexivity.
  - rewrite nth_lookup, list_lookup_insert_ne by lia.
    rewrite list_lookup_insert_eq by lia. reflexivity.
Qed.

(** C9 (tags are copied, not checked).  Take any buffer of at least 38 bytes
    whose symbol, price and quantity fields pass validation, and overwrite
    its side byte (offset 36) and type byte (offset 37) with any two byte
    values [s] and [t]: [parse] succeeds, the record's side and type are
    exactly [s] and [t], and the other fields are those of the buffer. *)
Theorem parse_tags_verbatim (start end_ : Z) (data : list byte) (r : Recorder)
    (s t : byte) :
  (38 <= length data)%nat ->
  alnum_to_nul (symbol (decode_fields data)) ->
  double_gt_zero (price (decode_fields data)) ->
  0 < quantity (decode_fields data) ->
  exists o : Order,
    fst (parse start end_ (<[36%nat:=s]> (<[37%nat:=t]> data)) r) = Some o /\
    side o = s /\ type o = t /\ o = with_tags (decode_fields data) s t.
Proof.
  intros Hl Hs Hp Hq.
  exists (with_tags (decode_fields data) s t).
  rewrite parse_valid; rewrite ?decode_fields_set_tags by exact Hl;
    try assumption.
  - repeat split; reflexivity.
  - rewrite !length_insert. exact Hl.
Qed.

Lemma parse_tags_verbatim_witness :
  exists o : Order,
    fst (parse 10 25 (<[36%nat:=Byte.x7f]> (<[37%nat:=Byte.xc8]> (serialize sample_order)))
           (fresh_ring 4)) = Some o /\
    side o = Byte.x7f /\ type o = Byte.xc8 /\
    o = with_tags (decode_fields (serialize sample_order)) Byte.x7f Byte.xc8.
Proof.
  apply (parse_tags_verbatim 10 25 (serialize sample_order) (fresh_ring 4)
           Byte.x7f Byte.xc8).
  - simpl. lia.
  - apply validateSymbol_spec; reflexivity.
  - reflexivity.
  - reflexivity.
Defined.

(** C10 (only the first 38 bytes matter).  Two buffers of at least 38
    bytes that agree on their first 38 bytes give the same result and the
    same recorder update, for the same two time-stamp reads. *)
Theorem parse_first_38_bytes_only (start end_ : Z) (b1 b2 : list byte) (r : Recorder) :
  (38 <= length b1)%nat -> (38 <= length b2)%nat ->
  take 38 b1 = take 38 b2 ->
  parse start end_ b1 r = parse start end_ b2 r.
Proof.
  intros H1 H2 E. rewrite !parse_long by assumption.
  rewrite <- (decode_fields_take b1), <- (decode_fields_take b2).
  unfold sizeof_WireOrder. rewrite E. reflexivity.
Qed.

Lemma parse_first_38_bytes_only_witness :
  parse 10 25 (serialize sample_order ++ [Byte.xff; Byte.x00]) (fresh_ring 4) =
  parse 10 25 (serialize sample_order ++ [Byte.x41]) (fresh_ring 4).
Proof.
  apply (parse_first_38_bytes_only 10 25
           (serialize sample_order ++ [Byte.xff; Byte.x00])
           (serialize sample_order ++ [Byte.x41]) (fresh_ring 4)).
  - simpl. lia.
  - simpl. lia.
  - reflexivity.
Defined.

(** ** The latency ring *)

Example ring_of_4_after_6 :
  timestamps_RDTSC (record_samples 4 (fun i => 100 + i) 6 (fresh_ring 4)) =
  [104; 105; 102; 103].
Proof. reflexivity. Qed.

Lemma record_samples_succ (cap : Z) (sample : Z -> Z) (n : N) (r : Recorder) :
  record_samples cap sample (N.succ n) r =
  recordLatency_cap cap (record_samples cap sample n r) (sample (Z.of_N n)).
Proof. unfold record_samples. rewrite N.peano_rect_succ. reflexivity. Qed.

Section Ring.

Variable cap : Z.
Hypothesis cap_pos : 0 < cap.
Variable sample : Z -> Z.

Lemma ring_inv_fresh : ring_inv cap sample 0 (fresh_ring cap).
Proof.
  unfold ring_inv, fresh_ring, slot; simpl. repeat split.
  - apply length_replicate.
  - intros j Hj. lia.
  - intros k Hk. apply lookup_replicate_2. lia.
Qed.

Lemma ring_inv_step (n : Z) (r : Recorder) :
  0 <= n < 2 ^ 64 -> ring_inv cap sample n r ->
  ring_inv cap sample (n + 1) (recordLatency_cap cap r (sample n)).
Proof.
  intros Hn (Hidx & Hlen & Hwin & Hzero).
  assert (Hs : s_idx r = n) by (rewrite Hidx; apply Z.mod_small; lia).
  assert (Hm : 0 <= n mod cap < cap) by (apply Z.mod_pos_bound; lia).
  unfold ring_inv, recordLatency_cap, slot in *; simpl. rewrite Hs.
  repeat split.
  - rewrite length_insert. exact Hlen.
  - intros j Hj Hlow.
    assert (Hjm : 0 <= j mod cap < cap) by (apply Z.mod_pos_bound; lia).
    destruct (Z.eq_dec j n) as [->|Hne].
    + apply list_lookup_insert_eq. lia.
    + rewrite list_lookup_insert_ne.
      * apply Hwin; lia.
      * intros E. apply Z2Nat.inj in E; try lia.
        assert (Hd : (n - j) mod cap = 0).
        { rewrite Zminus_mod, E, Z.sub_diag. apply Z.mod_0_l. lia. }
        rewrite Z.mod_small in Hd by lia. lia.
  - intros k Hk. rewrite list_lookup_insert_ne.
    + apply Hzero. lia.
    + rewrite Z.mod_small by lia. intros E. apply Z2Nat.inj in E; lia.
Qed.

Lemma ring_inv_record_samples (n : N) :
  Z.of_N n <= 2 ^ 64 ->
  ring_inv cap sample (Z.of_N n) (record_samples cap sample n (fresh_ring cap)).
Proof.
  induction n as [|n IH] using N.peano_ind; intros Hn.
  - apply ring_inv_fresh.
  - rewrite record_samples_succ, N2Z.inj_succ.
    apply ring_inv_step; [lia | apply IH; lia].
Qed.

(** Every one of the last [cap] samples is in the slot of its number modulo
    [cap]. *)
Lemma ring_window (n : N) (j : Z) :
  Z.of_N n <= 2 ^ 64 -> 0 <= j < Z.of_N n -> Z.of_N n - cap <= j ->
  slot (record_samples cap sample n (fresh_ring cap)) (j mod cap) = Some (sample j).
Proof.
  intros Hn Hj Hlow.
  destruct (ring_inv_record_samples n Hn) as (_ & _ & Hwin & _).
  apply Hwin; assumption.
Qed.

End Ring.

(** C7 (ring overwrite), as the code has it.  After [n] samples, numbered
    from 0, are recorded into a fresh ring of [cap] slots, with
    [cap < n <= 2^64], the sample number [n - cap + k] is held by the slot
    [(n + k) mod cap], for every [k] in [[0, cap)]: the last [cap] samples
    are all there, each in the slot of its number modulo [cap].  That slot
    is slot [k] itself when [n] is a multiple of [cap]. *)
Theorem ring_overwrite (cap : Z) (sample : Z -> Z) (n : N) (k : Z) :
  0 < cap -> cap < Z.of_N n <= 2 ^ 64 -> 0 <= k < cap ->
  slot (record_samples cap sample n (fresh_ring cap)) ((Z.of_N n + k) mod cap)
    = Some (sample (Z.of_N n - cap + k)) /\
  (Z.of_N n mod cap = 0 ->
   slot (record_samples cap sample n (fresh_ring cap)) k
     = Some (sample (Z.of_N n - cap + k))).
Proof.
  intros Hc Hn Hk.
  assert (E : (Z.of_N n + k) mod cap = (Z.of_N n - cap + k) mod cap).
  { replace (Z.of_N n + k) with (Z.of_N n - cap + k + 1 * cap) by lia.
    apply Z.mod_add. lia. }
  assert (W : slot (record_samples cap sample n (fresh_ring cap))
                ((Z.of_N n - cap + k) mod cap) = Some (sample (Z.of_N n - cap + k))).
  { apply ring_window; lia. }
  split.
  - rewrite E. exact W.
  - intros Hm. rewrite <- E in W.
    rewrite Z.add_mod, Hm, Z.add_0_l, Z.mod_mod, Z.mod_small in W by lia.
    exact W.
Qed.

Lemma ring_overwrite_witness :
  slot (record_samples 4 (fun i => 100 + i) 6 (fresh_ring 4)) ((Z.of_N 6 + 1) mod 4)
    = Some ((fun i => 100 + i) (Z.of_N 6 - 4 + 1)) /\
  (Z.of_N 6 mod 4 = 0 ->
   slot (record_samples 4 (fun i => 100 + i) 6 (fresh_ring 4)) 1
     = Some ((fun i => 100 + i) (Z.of_N 6 - 4 + 1))).
Proof.
  apply (ring_overwrite 4 (fun i => 100 + i) 6 1); simpl; lia.
Defined.

(** C7, as the document words it, fails in the program's own ring of
    1,000,000 slots: after 1,000,001 samples, the sample number [i] having
    the value [i], slot 0 holds the sample number 1,000,000 and not the
    sample number [N - C + 0 = 1]. *)
Lemma ring_overwrite_counterexample :
  slot (record_samples MAX_SAMPLES (fun i => i) 1000001 (fresh_ring MAX_SAMPLES)) 0
    = Some 1000000 /\
  slot (record_samples MAX_SAMPLES (fun i => i) 1000001 (fresh_ring MAX_SAMPLES)) 0
    <> Some ((fun i => i) (Z.of_N 1000001 - MAX_SAMPLES + 0)).
Proof.
  assert (H : slot (record_samples MAX_SAMPLES (fun i => i) 1000001
                      (fresh_ring MAX_SAMPLES)) (1000000 mod MAX_SAMPLES)
              = Some ((fun i : Z => i) 1000000)).
  { apply ring_window; unfold MAX_SAMPLES; simpl; lia. }
  change (1000000 mod MAX_SAMPLES) with 0 in H.
  split; [exact H|]. rewrite H. discriminate.
Qed.

(** ** The queue: capacity check and index arithmetic *)

Lemma land_pow2_pred (x k : Z) :
  0 <= k -> Z.land x (2 ^ k - 1) = x mod 2 ^ k.
Proof.
  intros Hk. rewrite <- Z.land_ones by exact Hk.
  rewrite Z.ones_equiv. reflexivity.
Qed.

Lemma land_pred_zero_pow2 (c : Z) :
  2 <= c -> Z.land c (c - 1) = 0 -> c = 2 ^ Z.log2 c.
Proof.
  intros Hc Hl.
  destruct (Z.log2_spec c ltac:(lia)) as [Hlo Hhi].
  destruct (Z.eq_dec c (2 ^ Z.log2 c)) as [E|NE]; [exact E|exfalso].
  assert (Hb1 : Z.testbit c (Z.log2 c) = true) by (apply Z.bit_log2; lia).
  assert (Hl2 : Z.log2 (c - 1) = Z.log2 c).
  { apply Z.log2_unique; [apply Z.log2_nonneg | lia]. }
  assert (Hb2 : Z.testbit (c - 1) (Z.log2 c) = true).
  { rewrite <- Hl2. apply Z.bit_log2. lia. }
  assert (Hb : Z.testbit (Z.land c (c - 1)) (Z.log2 c) = true).
  { rewrite Z.land_spec, Hb1, Hb2. reflexivity. }
  rewrite Hl, Z.bits_0 in Hb. discriminate.
Qed.

Lemma pow2_land_pred (k : Z) : 0 <= k -> Z.land (2 ^ k) (2 ^ k - 1) = 0.
Proof.
  intros Hk. rewrite land_pow2_pred by exact Hk.
  apply Z.mod_same. apply Z.pow_nonzero; lia.
Qed.

(** The constructor accepts exactly the powers of two from 2 on. *)
Lemma new_accepts (T : Type) (capacity : Z) :
  0 <= capacity < 2 ^ 64 ->
  (exists k, 1 <= k /\ capacity = 2 ^ k) <->
  (exists q : spscqueue.SPSCQueue T, spscqueue.new capacity = inr q).
Proof.
  intros Hc. unfold spscqueue.new, spscqueue.size_t. split.
  - intros (k & Hk & ->).
    assert (2 ^ 1 <= 2 ^ k) by (apply Z.pow_le_mono_r; lia).
    rewrite Z.mod_small by lia. rewrite pow2_land_pred by lia.
    destruct (Z.ltb_spec (2 ^ k) 2); [simpl in *; lia|]. simpl. eauto.
  - intros (q & Hq).
    destruct (Z.ltb_spec capacity 2); [discriminate Hq|].
    rewrite Z.mod_small in Hq by lia.
    destruct (Z.eqb_spec (Z.land capacity (capacity - 1)) 0) as [E|NE];
      [|discriminate Hq].
    exists (Z.log2 capacity). split.
    + apply Z.log2_le_pow2; simpl; lia.
    + apply land_pred_zero_pow2; assumption.
Qed.

Lemma new_inv (T : Type) (capacity : Z) (q : spscqueue.SPSCQueue T) :
  spscqueue.new capacity = inr q ->
  q = spscqueue.mkSPSCQueue capacity (replicate (Z.to_nat capacity) None) 0 0.
Proof.
  unfold spscqueue.new. destruct (_ || _); [discriminate|].
  intros E. injection E as <-. reflexivity.
Qed.

(** C6 (capacity guard).  For a requested capacity (a [size_t]) the
    constructor returns a queue exactly when the capacity is a power of two
    and at least 2, the queue then having that capacity and both cursors at
    0; for every other value it throws [std::invalid_argument] and there is
    no queue.  Capacities 0, 3 and 6 are refused, capacity 4 is accepted. *)
Theorem new_capacity_guard (T : Type) (capacity : Z) :
  0 <= capacity < 2 ^ 64 ->
  ((exists k, 1 <= k /\ capacity = 2 ^ k) ->
     spscqueue.new capacity =
       inr (spscqueue.mkSPSCQueue capacity (replicate (Z.to_nat capacity) (@None T)) 0 0)) /\
  (~ (exists k, 1 <= k /\ capacity = 2 ^ k) ->
     @spscqueue.new T capacity = inl spscqueue.invalid_argument) /\
  @spscqueue.new T 0 = inl spscqueue.invalid_argument /\
  @spscqueue.new T 3 = inl spscqueue.invalid_argument /\
  @spscqueue.new T 6 = inl spscqueue.invalid_argument /\
  @spscqueue.new T 4 = inr (spscqueue.mkSPSCQueue 4 [None; None; None; None] 0 0).
Proof.
  intros Hc. repeat split; try reflexivity.
  - intros Hk. apply (new_accepts T capacity Hc) in Hk. destruct Hk as [q Hq].
    rewrite Hq. f_equal. apply new_inv. exact Hq.
  - intros Hk. destruct (@spscqueue.new T capacity) as [[]|q] eqn:E; [reflexivity|].
    exfalso. apply Hk. apply (new_accepts T capacity Hc). eauto.
Qed.

Lemma new_capacity_guard_witness :
  ((exists k, 1 <= k /\ 8 = 2 ^ k) ->
     spscqueue.new 8 =
       inr (spscqueue.mkSPSCQueue 8 (replicate (Z.to_nat 8) (@None nat)) 0 0)) /\
  (~ (exists k, 1 <= k /\ 8 = 2 ^ k) ->
     @spscqueue.new nat 8 = inl spscqueue.invalid_argument) /\
  @spscqueue.new nat 0 = inl spscqueue.invalid_argument /\
  @spscqueue.new nat 3 = inl spscqueue.invalid_argument /\
  @spscqueue.new nat 6 = inl spscqueue.invalid_argument /\
  @spscqueue.new nat 4 = inr (spscqueue.mkSPSCQueue 4 [None; None; None; None] 0 0).
Proof.
  apply (new_capacity_guard nat 8). lia.
Defined.

Lemma mod_sub_cases (a b c : Z) :
  0 <= a < c -> 0 <= b < c ->
  (a - b) mod c = if b <=? a then a - b else a - b + c.
Proof.
  intros Ha Hb. destruct (Z.leb_spec b a).
  - apply Z.mod_small. lia.
  - rewrite <- (Z.mod_add (a - b) 1 c) by lia. rewrite Z.mul_1_l.
    apply Z.mod_small. lia.
Qed.

Lemma mod_succ_cases (a c : Z) :
  0 <= a < c -> (a + 1) mod c = if a + 1 =? c then 0 else a + 1.
Proof.
  intros Ha. destruct (Z.eqb_spec (a + 1) c) as [E|NE].
  - rewrite E. apply Z.mod_same. lia.
  - apply Z.mod_small. lia.
Qed.

Ltac mod_cases :=
  rewrite ?mod_succ_cases, ?mod_sub_cases in * by lia;
  repeat match goal with
         | |- context [if ?b then _ else _] => destruct b eqn:?
         | H : context [if ?b then _ else _] |- _ => destruct b eqn:?
         end;
  try lia.

Lemma pow2_bounds (k : Z) : 1 <= k -> 2 ^ k < 2 ^ 64 -> 2 <= 2 ^ k /\ k < 64.
Proof.
  intros Hk Hlt. split.
  - change 2 with (2 ^ 1) at 1. apply Z.pow_le_mono_r; lia.
  - apply (Z.pow_lt_mono_r_iff 2); lia.
Qed.

(** The number of live slots after one slot is overwritten. *)
Lemma live_slots_insert {T : Type} (l : list (option T)) (i : nat) (old new : option T) :
  l !! i = Some old ->
  (length (filter is_Some (<[i:=new]> l)) + (if old is Some _ then 1 else 0) =
   length (filter is_Some l) + (if new is Some _ then 1 else 0))%nat.
Proof.
  revert i. induction l as [|x l IH]; intros [|i] H; try discriminate H.
  - simpl in H. injection H as ->. simpl. rewrite !filter_cons.
    destruct old, new; repeat case_decide;
      repeat match goal with
             | H : is_Some None |- _ => destruct H; discriminate
             | H : ~ is_Some (Some _) |- _ => exfalso; apply H; eauto
             end; simpl; lia.
  - simpl in H. simpl. rewrite !filter_cons. specialize (IH i H).
    case_decide; simpl; lia.
Qed.

Section Sequential.

Context {T : Type}.
Variable k : Z.
Hypothesis k_pos : 1 <= k.
Hypothesis k_small : 2 ^ k < 2 ^ 64.

Let cap := 2 ^ k.

Lemma next_index_mod (q : spscqueue.SPSCQueue T) (i : Z) :
  spscqueue.capacity_ q = cap -> 0 <= i < cap ->
  spscqueue.next_index q i = (i + 1) mod cap.
Proof.
  intros Hc Hi. destruct (pow2_bounds k k_pos k_small) as [H2 H64].
  unfold spscqueue.next_index, spscqueue.size_t. rewrite Hc.
  rewrite !Z.mod_small by (unfold cap in *; lia).
  apply land_pow2_pred. lia.
Qed.

Lemma size_mod (q : spscqueue.SPSCQueue T) :
  spscqueue.capacity_ q = cap ->
  spscqueue.size q = (spscqueue.head_ q - spscqueue.tail_ q) mod cap.
Proof.
  intros Hc. destruct (pow2_bounds k k_pos k_small) as [H2 H64].
  unfold spscqueue.size, spscqueue.size_t. rewrite Hc.
  rewrite (Z.mod_small (cap - 1)) by (unfold cap in *; lia).
  unfold cap. rewrite land_pow2_pred by lia.
  apply Z.mod_mod_divide. exists (2 ^ (64 - k)).
  rewrite <- Z.pow_add_r by lia. f_equal. lia.
Qed.

Lemma queue_inv_new (q : spscqueue.SPSCQueue T) :
  spscqueue.new cap = inr q -> queue_inv cap q.
Proof.
  intros H. apply new_inv in H. subst q.
  destruct (pow2_bounds k k_pos k_small) as [H2 H64].
  unfold queue_inv, spscqueue.live, spscqueue.move_from; simpl.
  repeat split; try (unfold cap in *; lia).
  - apply length_replicate.
  - intros [x Hx]. rewrite lookup_replicate_2 in Hx by lia. discriminate Hx.
  - rewrite Z.sub_0_r, Z.mod_0_l by (unfold cap in *; lia).
    intros Hx. pose proof (Z.mod_pos_bound i cap). unfold cap in *. lia.
  - rewrite Z.sub_0_r, Z.mod_0_l by (unfold cap in *; lia).
    induction (Z.to_nat cap) as [|n IH]; [reflexivity|].
    simpl. rewrite filter_cons. case_decide as Hd; [|exact IH].
    destruct Hd; discriminate.
Qed.

Lemma lookup_slot (q : spscqueue.SPSCQueue T) (i : Z) :
  length (spscqueue.buffer_ q) = Z.to_nat cap -> 0 <= i < cap ->
  spscqueue.buffer_ q !! Z.to_nat i = Some (spscqueue.move_from q i).
Proof.
  intros Hl Hi. unfold spscqueue.move_from.
  destruct (spscqueue.buffer_ q !! Z.to_nat i) as [s|] eqn:E; [reflexivity|].
  apply lookup_ge_None in E. lia.
Qed.

Lemma queue_inv_push (q : spscqueue.SPSCQueue T) (item : T) :
  queue_inv cap q -> queue_inv cap (snd (spscqueue.push q item)).
Proof.
  intros Hinv. pose proof Hinv as (Hc & Hl & Hh & Ht & Hs & Hn).
  unfold spscqueue.push. rewrite (next_index_mod q _ Hc Hh).
  destruct (Z.eqb_spec ((spscqueue.head_ q + 1) mod cap) (spscqueue.tail_ q))
    as [E|NE]; simpl; [exact Hinv|]. clear Hinv.
  set (h := spscqueue.head_ q) in *. set (t := spscqueue.tail_ q) in *.
  assert (Hm : 0 <= (h + 1) mod cap < cap) by (apply Z.mod_pos_bound; lia).
  assert (Hfree : spscqueue.move_from q h = None).
  { destruct (spscqueue.move_from q h) eqn:E; [|reflexivity].
    exfalso. assert (Hx : is_Some (spscqueue.move_from q h)) by (rewrite E; eauto).
    apply Hs in Hx; [lia | exact Hh]. }
  assert (Hcount := live_slots_insert (spscqueue.buffer_ q) (Z.to_nat h) None (Some item)).
  rewrite <- Hfree in Hcount at 1. specialize (Hcount (lookup_slot q h Hl Hh)).
  unfold queue_inv, spscqueue.live, spscqueue.move_from in *; simpl.
  fold h t.
  split; [exact Hc|]. split; [rewrite length_insert; exact Hl|].
  split; [exact Hm|]. split; [exact Ht|]. split.
  - intros i Hi. specialize (Hs i Hi). destruct (Z.eq_dec i h) as [->|Hne].
    + rewrite list_lookup_insert_eq by lia. simpl.
      split; [intros _|eauto]. mod_cases.
    + rewrite list_lookup_insert_ne by (intros E; apply Z2Nat.inj in E; lia).
      rewrite Hs. mod_cases.
  - mod_cases.
Qed.

Lemma queue_inv_pop (q : spscqueue.SPSCQueue T) :
  queue_inv cap q -> queue_inv cap (snd (spscqueue.pop q)).
Proof.
  intros Hinv. pose proof Hinv as (Hc & Hl & Hh & Ht & Hs & Hn).
  unfold spscqueue.pop. rewrite (next_index_mod q _ Hc Ht).
  destruct (Z.eqb_spec (spscqueue.tail_ q) (spscqueue.head_ q))
    as [E|NE]; simpl; [exact Hinv|]. clear Hinv.
  set (h := spscqueue.head_ q) in *. set (t := spscqueue.tail_ q) in *.
  assert (Hm : 0 <= (t + 1) mod cap < cap) by (apply Z.mod_pos_bound; lia).
  assert (Hfull : is_Some (spscqueue.move_from q t)).
  { apply Hs; [exact Ht|]. mod_cases. }
  destruct Hfull as [x Hx].
  assert (Hcount := live_slots_insert (spscqueue.buffer_ q) (Z.to_nat t) (Some x) None).
  rewrite <- Hx in Hcount at 1. specialize (Hcount (lookup_slot q t Hl Ht)).
  unfold queue_inv, spscqueue.live, spscqueue.move_from in *; simpl.
  fold h t.
  split; [exact Hc|]. split; [rewrite length_insert; exact Hl|].
  split; [exact Hh|]. split; [exact Hm|]. split.
  - intros i Hi. specialize (Hs i Hi). destruct (Z.eq_dec i t) as [->|Hne].
    + rewrite list_lookup_insert_eq by lia. simpl.
      split; [intros [y Hy]; discriminate Hy|]. mod_cases.
    + rewrite list_lookup_insert_ne by (intros E; apply Z2Nat.inj in E; lia).
      rewrite Hs. mod_cases.
  - mod_cases.
Qed.

Lemma queue_inv_run (q : spscqueue.SPSCQueue T) (calls : list (spscqueue.call T)) :
  queue_inv cap q -> queue_inv cap (spscqueue.run q calls).
Proof.
  revert q. induction calls as [|c calls IH]; intros q Hq; [exact Hq|].
  simpl. apply IH. destruct c; [apply queue_inv_push | apply queue_inv_pop]; exact Hq.
Qed.

End Sequential.

(** C3 (one slot stays free).  Whatever sequence of [push] and [pop] calls
    one thread makes on a queue constructed with a capacity [N] (a power of
    two, at least 2), the number of objects alive in the storage is what
    [size()] reports and never exceeds [N - 1].  On a fresh queue of
    capacity 4, three successive pushes return [true], and a fourth returns
    [false] (full) and changes nothing. *)
Theorem live_at_most_capacity_minus_1 (T : Type) (capacity : Z)
    (q0 : spscqueue.SPSCQueue T) (calls : list (spscqueue.call T)) :
  0 <= capacity < 2 ^ 64 ->
  spscqueue.new capacity = inr q0 ->
  spscqueue.live (spscqueue.run q0 calls) = spscqueue.size (spscqueue.run q0 calls) /\
  spscqueue.live (spscqueue.run q0 calls) <= capacity - 1 /\
  (exists q4 : spscqueue.SPSCQueue T,
     spscqueue.new 4 = inr q4 /\
     forall a b c d : T,
     let r1 := spscqueue.push q4 a in
     let r2 := spscqueue.push (snd r1) b in
     let r3 := spscqueue.push (snd r2) c in
     let r4 := spscqueue.push (snd r3) d in
     fst r1 = true /\ fst r2 = true /\ fst r3 = true /\
     spscqueue.live (snd r3) = 3 /\
     fst r4 = false /\ snd r4 = snd r3).
Proof.
  intros Hc Hnew. 
  destruct (proj2 (new_accepts T capacity Hc) (ex_intro _ q0 Hnew)) as (k & Hk & ->).
  assert (Hinv : queue_inv (2 ^ k) (spscqueue.run q0 calls)).
  { apply queue_inv_run; [exact Hk | lia |].
    apply queue_inv_new; [exact Hk | lia | exact Hnew]. }
  destruct Hinv as (Hcap & _ & Hh & Ht & _ & Hlive).
  split; [|split].
  - rewrite Hlive. symmetry. apply (size_mod k); [exact Hk | lia | exact Hcap].
  - rewrite Hlive.
    pose proof (Z.mod_pos_bound
                  (spscqueue.head_ (spscqueue.run q0 calls) -
                   spscqueue.tail_ (spscqueue.run q0 calls)) (2 ^ k)). lia.
  - eexists. split; [reflexivity|]. intros a b c d.
    cbv zeta. repeat split; reflexivity.
Qed.

Lemma live_at_most_capacity_minus_1_witness :
  let q0 := spscqueue.mkSPSCQueue 2 [@None nat; None] 0 0 in
  let calls := [spscqueue.Push 7%nat; spscqueue.Push 8%nat; spscqueue.Pop;
                spscqueue.Push 9%nat; spscqueue.Push 10%nat] in
  spscqueue.live (spscqueue.run q0 calls) = spscqueue.size (spscqueue.run q0 calls) /\
  spscqueue.live (spscqueue.run q0 calls) <= 2 - 1 /\
  (exists q4 : spscqueue.SPSCQueue nat,
     spscqueue.new 4 = inr q4 /\
     forall a b c d : nat,
     let r1 := spscqueue.push q4 a in
     let r2 := spscqueue.push (snd r1) b in
     let r3 := spscqueue.push (snd r2) c in
     let r4 := spscqueue.push (snd r3) d in
     fst r1 = true /\ fst r2 = true /\ fst r3 = true /\
     spscqueue.live (snd r3) = 3 /\
     fst r4 = false /\ snd r4 = snd r3).
Proof.
  apply (live_at_most_capacity_minus_1 nat 2).
  - lia.
  - reflexivity.
Defined.

(** ** The queue under interleaving *)

Lemma mod_sub_spec (a b c : Z) :
  0 <= a < c -> 0 <= b < c ->
  ((a - b) mod c = a - b /\ b <= a) \/ ((a - b) mod c = a - b + c /\ a < b).
Proof.
  intros Ha Hb. rewrite mod_sub_cases by assumption.
  destruct (Z.leb_spec b a); [left | right]; lia.
Qed.

Lemma mod_succ_spec (a c : Z) :
  0 <= a < c ->
  ((a + 1) mod c = 0 /\ a + 1 = c) \/ ((a + 1) mod c = a + 1 /\ a + 1 < c).
Proof.
  intros Ha. rewrite mod_succ_cases by assumption.
  destruct (Z.eqb_spec (a + 1) c); [left | right]; lia.
Qed.

(** ** The queue under two threads *)

Lemma mod_eq_close (cap a b : Z) :
  0 < cap -> a mod cap = b mod cap -> 0 <= a - b < cap -> a = b.
Proof.
  intros Hc E Hd.
  assert (H0 : (a - b) mod cap = 0).
  { rewrite Zminus_mod, E, Z.sub_diag. apply Z.mod_0_l. lia. }
  rewrite Z.mod_small in H0 by lia. lia.
Qed.

Lemma slot_of_ne (cap n n' : Z) :
  0 < cap -> 0 < n - n' < cap -> slot_of cap n <> slot_of cap n'.
Proof.
  intros Hc Hd E. unfold slot_of in E.
  pose proof (Z.mod_pos_bound n cap Hc). pose proof (Z.mod_pos_bound n' cap Hc).
  apply Z2Nat.inj in E; [|lia|lia].
  pose proof (mod_eq_close cap n n' Hc E). lia.
Qed.

Lemma slot_of_shift (cap n : Z) :
  0 < cap -> slot_of cap (n - cap) = slot_of cap n.
Proof.
  intros Hc. unfold slot_of. f_equal.
  rewrite <- (Z.mod_add (n - cap) 1 cap) by lia. f_equal. lia.
Qed.

Lemma slot_of_add (cap n : Z) :
  0 < cap -> slot_of cap (n + cap) = slot_of cap n.
Proof.
  intros Hc. rewrite <- (slot_of_shift cap (n + cap)) by exact Hc.
  f_equal. lia.
Qed.

Section Views.

Variable cap : Z.
Implicit Types (A : nat -> nat) (V W : threads.view).

Lemma knows_mono A V lo hi lo' hi' :
  knows cap A V lo hi -> lo <= lo' -> hi' <= hi -> knows cap A V lo' hi'.
Proof. intros H Hl Hh n Hn. apply H. lia. Qed.

Lemma knows_bump_other A V lo hi i :
  knows cap A V lo hi ->
  (forall n, lo <= n < hi -> slot_of cap n <> i) ->
  knows cap (threads.bump i A) V lo hi.
Proof.
  intros H Hne n Hn. unfold threads.bump.
  destruct (Nat.eqb_spec (slot_of cap n) i) as [E|_]; [destruct (Hne n Hn E)|].
  apply H. exact Hn.
Qed.

Lemma knows_bump_self A V lo hi i :
  knows cap A V lo hi ->
  knows cap (threads.bump i A) (threads.set_seen i (S (A i)) V) lo hi.
Proof.
  intros H n Hn. unfold threads.bump, threads.set_seen; simpl.
  destruct (Nat.eqb_spec (slot_of cap n) i); [reflexivity|]. apply H. exact Hn.
Qed.

Lemma knows_set_at A V lo hi a ts :
  knows cap A V lo hi -> knows cap A (threads.set_at a ts V) lo hi.
Proof. intros H n Hn. destruct a; simpl; apply H; exact Hn. Qed.

Lemma knows_join A V W lo hi :
  le_seen V A -> le_seen W A ->
  (forall n, lo <= n < hi ->
     threads.seen V (slot_of cap n) = A (slot_of cap n) \/
     threads.seen W (slot_of cap n) = A (slot_of cap n)) ->
  knows cap A (threads.join V W) lo hi.
Proof.
  intros HV HW H n Hn. simpl.
  pose proof (HV (slot_of cap n)). pose proof (HW (slot_of cap n)).
  destruct (H n Hn); lia.
Qed.

Lemma le_seen_bump A V i : le_seen V A -> le_seen V (threads.bump i A).
Proof.
  intros H j. unfold threads.bump. pose proof (H j). pose proof (H i).
  destruct (Nat.eqb_spec j i); [subst|]; lia.
Qed.

Lemma le_seen_bump_self A V i :
  le_seen V A -> le_seen (threads.set_seen i (S (A i)) V) (threads.bump i A).
Proof.
  intros H j. unfold threads.bump, threads.set_seen; simpl. pose proof (H j).
  destruct (Nat.eqb_spec j i); lia.
Qed.

Lemma le_seen_set_at A V a ts : le_seen V A -> le_seen (threads.set_at a ts V) A.
Proof. intros H j. destruct a; simpl; apply H. Qed.

Lemma le_seen_join A V W : le_seen V A -> le_seen W A -> le_seen (threads.join V W) A.
Proof. intros HV HW j. simpl. pose proof (HV j). pose proof (HW j). lia. Qed.

End Views.

(** A load by the only thread that stores to the atomic reads its last
    store. *)
Lemma load_own {T : Type} (a : threads.atomic) (stale : nat) (m : threads.memory T)
    (V : threads.view) (last : nat) :
  length (threads.history a m) = S last -> threads.at_ a V = last ->
  exists msg, threads.history a m !! last = Some msg /\
    threads.load threads.relaxed a stale m V =
    Some (threads.value msg, threads.set_at a last V).
Proof.
  intros Hl Hv.
  destruct (lookup_lt_is_Some_2 (threads.history a m) last ltac:(lia)) as [msg Hm].
  exists msg. split; [exact Hm|]. unfold threads.load.
  replace (threads.read_position a stale m V) with last
    by (unfold threads.read_position; lia).
  rewrite Hm. reflexivity.
Qed.

(** An acquire load reads a store between the one the thread knows and the
    last one, and joins the view that store released. *)
Lemma load_acquire {T : Type} (a : threads.atomic) (stale : nat) (m : threads.memory T)
    (V : threads.view) (last : nat) :
  length (threads.history a m) = S last -> (threads.at_ a V <= last)%nat ->
  exists ts msg, (threads.at_ a V <= ts <= last)%nat /\
    threads.history a m !! ts = Some msg /\
    threads.load threads.acquire a stale m V =
    Some (threads.value msg,
          threads.join (threads.set_at a ts V) (threads.released msg)).
Proof.
  intros Hl Hv.
  set (ts := threads.read_position a stale m V).
  assert (Hts : (threads.at_ a V <= ts <= last)%nat)
    by (unfold ts, threads.read_position; lia).
  destruct (lookup_lt_is_Some_2 (threads.history a m) ts ltac:(lia)) as [msg Hm].
  exists ts, msg. split; [lia|]. split; [exact Hm|].
  unfold threads.load. fold ts. rewrite Hm. reflexivity.
Qed.

Lemma set_at_same (a : threads.atomic) (V : threads.view) (ts : nat) :
  threads.at_ a V = ts -> threads.set_at a ts V = V.
Proof. intros <-. destruct a, V; reflexivity. Qed.

Lemma moving_range {T : Type} (c : threads.consumer T) :
  0 <= destroying c <= moving c /\ moving c <= 1.
Proof. destruct c; simpl; lia. Qed.

Lemma constructing_range {T : Type} (p : threads.producer T) : 0 <= constructing p <= 1.
Proof. destruct p; simpl; lia. Qed.

Section Interleaving.

Context {T : Type}.
Variable k : Z.
Hypothesis k_pos : 1 <= k.
Hypothesis k_small : 2 ^ k < 2 ^ 64.

Let cap := 2 ^ k.

Lemma cap_bounds : 2 <= cap < 2 ^ 64.
Proof. destruct (pow2_bounds k k_pos k_small). unfold cap. lia. Qed.

Lemma threads_next_index (m : threads.memory T) (i : Z) :
  threads.capacity_ m = cap -> 0 <= i < cap ->
  threads.next_index m i = (i + 1) mod cap.
Proof.
  intros Hc Hi. pose proof cap_bounds as Hb.
  unfold threads.next_index, spscqueue.size_t. rewrite Hc.
  rewrite !Z.mod_small by lia.
  apply land_pow2_pred. lia.
Qed.

Lemma next_of_mod (n : Z) : (n mod cap + 1) mod cap = (n + 1) mod cap.
Proof. pose proof cap_bounds. apply Z.add_mod_idemp_l. lia. Qed.

Lemma threads_inv_init (q : spscqueue.SPSCQueue T) :
  spscqueue.new cap = inr q -> threads_inv cap (threads.init q).
Proof.
  intros H. apply new_inv in H. subst q. pose proof cap_bounds as Hb.
  constructor; simpl; try reflexivity; try lia.
  - apply length_replicate.
  - intros [|i] msg Hm; [|destruct i; discriminate Hm].
    injection Hm as <-. simpl. rewrite Z.mod_0_l by lia.
    repeat split; try lia; try (intros i; simpl; lia).
  - intros [|i] msg Hm; [|destruct i; discriminate Hm].
    injection Hm as <-. simpl. rewrite Z.mod_0_l by lia.
    repeat split; try lia; try (intros i; simpl; lia); intros n Hn; reflexivity.
  - intros i. simpl. lia.
  - intros n Hn. reflexivity.
  - intros i. simpl. lia.
  - intros n Hn. reflexivity.
Qed.

Lemma threads_inv_producer_step (item : T) (stale : nat) (s : threads.system T) :
  threads_inv cap s -> threads_inv cap (threads.producer_step item stale s).
Proof.
  intros Hinv. pose proof cap_bounds as Hb.
  destruct Hinv as [Hr Hcap Hbuf Hhl Htl Hhm Htm Hph Hpt Hple Hpk Hroom
                    Hct Hch Hcle Hck Hpre Hslots Hp Hc].
  destruct s as [m p Vp c Vc pu po rc]. simpl in *. subst rc.
  pose proof (moving_range c) as Hmv.
  unfold threads.producer_step; simpl.
  destruct p as [|x h|x h next|x h next]; unfold producer_ok, consumer_ok in *;
    simpl in *.
  - (* head_.load(relaxed) *)
    destruct (load_own threads.Head stale m Vp (length pu) Hhl Hph) as (msg & Hm & ->).
    rewrite (set_at_same threads.Head Vp _ Hph).
    destruct (Hhm _ _ Hm) as (Hv & _).
    constructor; unfold producer_ok, consumer_ok; simpl; try reflexivity; try assumption.
  - (* tail_.load(acquire) and the test *)
    destruct (load_acquire threads.Tail stale m Vp (length po) Htl Hpt)
      as (ts & msg & Hts & Hm & ->).
    destruct (Htm _ _ Hm) as (Hv & Hmt & Hmh & Hmle & Hmk). simpl in Hts.
    set (V' := threads.join (threads.set_at threads.Tail ts Vp) (threads.released msg)).
    assert (HV'h : threads.at_head V' = length pu) by (simpl; lia).
    assert (HV't : threads.at_tail V' = ts) by (simpl; lia).
    assert (HV'le : le_seen V' (threads.accesses m)).
    { apply le_seen_join; [apply le_seen_set_at|]; assumption. }
    assert (HV'k : knows cap (threads.accesses m) V'
                     (Z.of_nat (length po) + moving c) (Z.of_nat ts + cap)).
    { apply knows_join; [apply le_seen_set_at; assumption|assumption|].
      intros n Hn.
      destruct (Z.lt_ge_cases n (Z.of_nat (threads.at_tail Vp) + cap)) as [Hlt|Hge].
      - left. simpl. apply Hpk. lia.
      - right. apply Hmk. simpl. lia. }
    clearbody V'.
    rewrite (threads_next_index m h Hcap) by (subst h; apply Z.mod_pos_bound; lia).
    subst h. rewrite next_of_mod, Hv.
    destruct (Z.eqb_spec ((Z.of_nat (length pu) + 1) mod cap) (Z.of_nat ts mod cap))
      as [E|NE].
    + constructor; unfold producer_ok, consumer_ok; simpl; rewrite ?HV't;
        try reflexivity; try assumption; try lia.
    + constructor; unfold producer_ok, consumer_ok; simpl; rewrite ?HV't;
        try reflexivity; try assumption; try lia.
      repeat split.
      destruct (Z.eq_dec (Z.of_nat (length pu) - Z.of_nat ts) (cap - 1)) as [E|NE'];
        [|lia].
      exfalso. apply NE.
      replace (Z.of_nat (length pu) + 1) with (Z.of_nat ts + 1 * cap) by lia.
      apply Z.mod_add. lia.
  - (* placement new *)
    destruct Hp as (-> & -> & Hroom2).
    assert (HPC : Z.of_nat (length po) + moving c <= Z.of_nat (length pu)).
    { destruct c; simpl in *; lia. }
    unfold threads.access.
    fold (slot_of cap (Z.of_nat (length pu))).
    set (i := slot_of cap (Z.of_nat (length pu))).
    assert (Hi : threads.seen Vp i = threads.accesses m i) by (apply Hpk; lia).
    rewrite Hi, Nat.eqb_refl. simpl.
    constructor; unfold producer_ok, consumer_ok; simpl; try reflexivity;
      try assumption; try lia.
    + rewrite length_insert. exact Hbuf.
    + intros j msg Hm. destruct (Hhm _ _ Hm) as (Hv & Hmh & Hmt & Hmle & Hmk).
      repeat split; try assumption.
      * apply le_seen_bump. exact Hmle.
      * apply knows_bump_other; [exact Hmk|].
        intros n Hn. apply not_eq_sym. apply slot_of_ne; [lia|].
        apply lookup_lt_Some in Hm. lia.
    + intros j msg Hm. destruct (Htm _ _ Hm) as (Hv & Hmt & Hmh & Hmle & Hmk).
      repeat split; try assumption.
      * apply le_seen_bump. exact Hmle.
      * apply knows_bump_other; [eapply knows_mono; [exact Hmk|lia|lia]|].
        intros n Hn. apply slot_of_ne; [lia|].
        apply lookup_lt_Some in Hm. lia.
    + apply le_seen_bump_self. exact Hple.
    + apply knows_bump_self. exact Hpk.
    + apply le_seen_bump. exact Hcle.
    + apply knows_bump_other; [eapply knows_mono; [exact Hck|lia|lia]|].
      intros n Hn. apply slot_of_ne; lia.
    + intros n Hn. rewrite list_lookup_insert_ne; [apply Hslots; exact Hn|].
      fold i. apply slot_of_ne; [lia|]. destruct c; simpl in *; lia.
    + repeat split; try lia. fold i. apply list_lookup_insert_eq.
      rewrite Hbuf. unfold i, slot_of.
      pose proof (Z.mod_pos_bound (Z.of_nat (length pu)) cap). lia.
  - (* head_.store(next, release) *)
    destruct Hp as (-> & -> & Hroom2 & Hx).
    assert (HPC : Z.of_nat (length po) + moving c <= Z.of_nat (length pu)).
    { destruct c; simpl in *; lia. }
    constructor; unfold producer_ok, consumer_ok; simpl; rewrite ?length_app; simpl;
      try reflexivity; try assumption; try lia.
    + intros j msg Hm. apply lookup_app_Some in Hm as [Hm|[Hj Hm]].
      * destruct (Hhm _ _ Hm) as (Hv & Hmh & Hmt & Hmle & Hmk).
        repeat split; assumption.
      * rewrite Hhl in Hj, Hm. destruct (j - S (length pu))%nat eqn:Ej; [|destruct n; discriminate Hm].
        injection Hm as <-. simpl.
        assert (j = S (length pu)) as -> by lia.
        repeat split; try assumption; try lia.
        intros n Hn. apply Hpk. lia.
    + intros j msg Hm. destruct (Htm _ _ Hm) as (Hv & Hmt & Hmh & Hmle & Hmk).
      repeat split; try assumption; try lia.
      eapply knows_mono; [exact Hmk|lia|lia].
    + eapply knows_mono; [exact Hck|lia|lia].
    + rewrite take_app_le by lia. exact Hpre.
    + intros n Hn.
      destruct (Z.eq_dec n (Z.of_nat (length pu))) as [->|NE].
      * rewrite Hx, Nat2Z.id, lookup_app_r, Nat.sub_diag by lia. reflexivity.
      * rewrite lookup_app_l by lia. apply Hslots. lia.
    + destruct c; simpl in *; try assumption; try lia.
      * destruct Hc as (Ht & Hlt & Hit). repeat split; try assumption.
        rewrite lookup_app_l by lia. exact Hit.
      * destruct Hc as (Ht & Hlt & Hit). repeat split; try assumption.
        rewrite lookup_app_l by lia. exact Hit.
Qed.

Lemma threads_inv_consumer_step (stale : nat) (s : threads.system T) :
  threads_inv cap s -> threads_inv cap (threads.consumer_step stale s).
Proof.
  intros Hinv. pose proof cap_bounds as Hb.
  destruct Hinv as [Hr Hcap Hbuf Hhl Htl Hhm Htm Hph Hpt Hple Hpk Hroom
                    Hct Hch Hcle Hck Hpre Hslots Hp Hc].
  destruct s as [m p Vp c Vc pu po rc]. simpl in *. subst rc.
  pose proof (constructing_range p) as Hcr.
  assert (HPC : Z.of_nat (length pu) + constructing p <= Z.of_nat (length po) + cap - 1).
  { unfold producer_ok in Hp. destruct p; simpl in *; lia. }
  unfold threads.consumer_step; simpl.
  destruct c as [|t|t|t item|t item]; unfold producer_ok, consumer_ok in *;
    simpl in *.
  - (* tail_.load(relaxed) *)
    destruct (load_own threads.Tail stale m Vc (length po) Htl Hct) as (msg & Hm & ->).
    rewrite (set_at_same threads.Tail Vc _ Hct).
    destruct (Htm _ _ Hm) as (Hv & _).
    constructor; unfold producer_ok, consumer_ok; simpl; try reflexivity; try assumption.
  - (* head_.load(acquire) and the test *)
    destruct (load_acquire threads.Head stale m Vc (length pu) Hhl ltac:(simpl; lia))
      as (ts & msg & Hts & Hm & ->).
    destruct (Hhm _ _ Hm) as (Hv & Hmh & Hmt & Hmle & Hmk). simpl in Hts.
    set (V' := threads.join (threads.set_at threads.Head ts Vc) (threads.released msg)).
    assert (HV'h : threads.at_head V' = ts) by (simpl; lia).
    assert (HV't : threads.at_tail V' = length po) by (simpl; lia).
    assert (HV'le : le_seen V' (threads.accesses m)).
    { apply le_seen_join; [apply le_seen_set_at|]; assumption. }
    assert (HV'k : knows cap (threads.accesses m) V'
                     (Z.of_nat (length pu) + constructing p) (Z.of_nat ts + cap)).
    { apply knows_join; [apply le_seen_set_at; assumption|assumption|].
      intros n Hn.
      destruct (Z.lt_ge_cases n (Z.of_nat (threads.at_head Vc) + cap)) as [Hlt|Hge].
      - left. simpl. apply Hck. lia.
      - right. rewrite <- (slot_of_shift cap n) by lia. apply Hmk. lia. }
    clearbody V'. subst t. rewrite Hv.
    destruct (Z.eqb_spec (Z.of_nat (length po) mod cap) (Z.of_nat ts mod cap))
      as [E|NE].
    + constructor; unfold producer_ok, consumer_ok; simpl; rewrite ?HV'h;
        try reflexivity; try assumption; try lia.
    + constructor; unfold producer_ok, consumer_ok; simpl; rewrite ?HV'h;
        try reflexivity; try assumption; try lia.
      split; [reflexivity|].
      destruct (Z.eq_dec (Z.of_nat (length po)) (Z.of_nat ts)) as [E|NE']; [|lia].
      exfalso. apply NE. rewrite E. reflexivity.
  - (* the move out of the slot *)
    destruct Hc as (-> & Hlt).
    unfold threads.access.
    fold (slot_of cap (Z.of_nat (length po))).
    set (i := slot_of cap (Z.of_nat (length po))).
    assert (Hs : slot_of cap (Z.of_nat (length po) + cap) = i).
    { apply slot_of_add. lia. }
    assert (Hi : threads.seen Vc i = threads.accesses m i).
    { rewrite <- Hs. apply Hck. lia. }
    rewrite Hi, Nat.eqb_refl. simpl.
    constructor; unfold producer_ok, consumer_ok; simpl; try reflexivity;
      try assumption; try lia.
    + intros j msg Hm. destruct (Hhm _ _ Hm) as (Hv & Hmh & Hmt & Hmle & Hmk).
      repeat split; try assumption.
      * apply le_seen_bump. exact Hmle.
      * apply knows_bump_other; [eapply knows_mono; [exact Hmk|lia|lia]|].
        intros n Hn. apply slot_of_ne; [lia|].
        apply lookup_lt_Some in Hm. lia.
    + intros j msg Hm. destruct (Htm _ _ Hm) as (Hv & Hmt & Hmh & Hmle & Hmk).
      repeat split; try assumption.
      * apply le_seen_bump. exact Hmle.
      * apply knows_bump_other; [exact Hmk|].
        intros n Hn. apply slot_of_ne; [lia|].
        apply lookup_lt_Some in Hm. lia.
    + apply le_seen_bump. exact Hple.
    + apply knows_bump_other; [eapply knows_mono; [exact Hpk|lia|lia]|].
      intros n Hn. apply slot_of_ne; lia.
    + apply le_seen_bump_self. exact Hcle.
    + apply knows_bump_self. exact Hck.
    + repeat split; try lia. unfold threads.move_from; simpl.
      change (Z.to_nat (Z.of_nat (length po) mod cap))
        with (slot_of cap (Z.of_nat (length po))).
      rewrite Hslots by lia. simpl. rewrite Nat2Z.id. reflexivity.
  - (* the destructor call *)
    destruct Hc as (-> & Hlt & ->).
    unfold threads.access.
    fold (slot_of cap (Z.of_nat (length po))).
    set (i := slot_of cap (Z.of_nat (length po))).
    assert (Hs : slot_of cap (Z.of_nat (length po) + cap) = i).
    { apply slot_of_add. lia. }
    assert (Hi : threads.seen Vc i = threads.accesses m i).
    { rewrite <- Hs. apply Hck. lia. }
    rewrite Hi, Nat.eqb_refl. simpl.
    constructor; unfold producer_ok, consumer_ok; simpl; try reflexivity;
      try assumption; try lia.
    + rewrite length_insert. exact Hbuf.
    + intros j msg Hm. destruct (Hhm _ _ Hm) as (Hv & Hmh & Hmt & Hmle & Hmk).
      repeat split; try assumption.
      * apply le_seen_bump. exact Hmle.
      * apply knows_bump_other; [exact Hmk|].
        intros n Hn. apply slot_of_ne; [lia|].
        apply lookup_lt_Some in Hm. lia.
    + intros j msg Hm. destruct (Htm _ _ Hm) as (Hv & Hmt & Hmh & Hmle & Hmk).
      repeat split; try assumption.
      * apply le_seen_bump. exact Hmle.
      * apply knows_bump_other; [exact Hmk|].
        intros n Hn. apply slot_of_ne; [lia|].
        apply lookup_lt_Some in Hm. lia.
    + apply le_seen_bump. exact Hple.
    + apply knows_bump_other; [exact Hpk|].
      intros n Hn. apply slot_of_ne; lia.
    + apply le_seen_bump_self. exact Hcle.
    + apply knows_bump_self. exact Hck.
    + intros n Hn. fold i. rewrite list_lookup_insert_ne; [apply Hslots; lia|].
      apply not_eq_sym. apply slot_of_ne; lia.
    + destruct p as [|x h|x h next|x h next]; simpl in *; try assumption.
      destruct Hp as (Hh & Hnx & Hroom2 & Hx). repeat split; try assumption.
      fold i. rewrite list_lookup_insert_ne; [exact Hx|].
      apply not_eq_sym. apply slot_of_ne; lia.
    + repeat split; lia.
  - (* tail_.store(next, release) *)
    destruct Hc as (-> & Hlt & ->).
    rewrite (threads_next_index m _ Hcap) by (apply Z.mod_pos_bound; lia).
    rewrite next_of_mod.
    assert (Hlt' : (length po < length pu)%nat) by lia.
    destruct (lookup_lt_is_Some_2 pu (length po) Hlt') as [x Hx].
    constructor; unfold producer_ok, consumer_ok; simpl; rewrite ?length_app; simpl;
      try reflexivity; try assumption; try lia.
    + intros j msg Hm. destruct (Hhm _ _ Hm) as (Hv & Hmh & Hmt & Hmle & Hmk).
      repeat split; try assumption; try lia.
      eapply knows_mono; [exact Hmk|lia|lia].
    + intros j msg Hm. apply lookup_app_Some in Hm as [Hm|[Hj Hm]].
      * destruct (Htm _ _ Hm) as (Hv & Hmt & Hmh & Hmle & Hmk).
        repeat split; assumption.
      * rewrite Htl in Hj, Hm.
        destruct (j - S (length po))%nat eqn:Ej; [|destruct n; discriminate Hm].
        injection Hm as <-. simpl.
        assert (j = S (length po)) as -> by lia.
        repeat split; try assumption; try lia.
        intros n Hn. apply Hck. lia.
    + eapply knows_mono; [exact Hpk|lia|lia].
    + rewrite Hx.
      replace (length po + 1)%nat with (S (length po)) by lia.
      rewrite (take_S_r pu (length po) x Hx), fmap_app, <- Hpre. reflexivity.
    + intros n Hn. apply Hslots. lia.
Qed.

Lemma threads_inv_run (s : threads.system T) (schedule : list (threads.turn T)) :
  threads_inv cap s -> threads_inv cap (threads.run s schedule).
Proof.
  revert s. induction schedule as [|u schedule IH]; intros s Hs; [exact Hs|].
  simpl. apply IH. destruct u as [item stale|stale]; simpl.
  - apply threads_inv_producer_step. exact Hs.
  - apply threads_inv_consumer_step. exact Hs.
Qed.

End Interleaving.

(** The memory orders matter: the reader's access is ordered after the
    writer's only when the store is a release and the load an acquire. *)
Example message_passing_orders :
  message_passing threads.release threads.acquire = true /\
  message_passing threads.relaxed threads.acquire = false /\
  message_passing threads.release threads.relaxed = false /\
  message_passing threads.relaxed threads.relaxed = false.
Proof. repeat split. Qed.

(** A load reads exactly the stores from the one in the thread's view up to
    the last one. *)
Lemma read_position_range {T : Type} (a : threads.atomic) (m : threads.memory T)
    (V : threads.view) (ts : nat) :
  (threads.at_ a V < length (threads.history a m))%nat ->
  ((threads.at_ a V <= ts < length (threads.history a m))%nat <->
   exists stale, threads.read_position a stale m V = ts).
Proof.
  intros Hv. unfold threads.read_position. split.
  - intros Hts. exists (length (threads.history a m) - 1 - ts)%nat. lia.
  - intros [stale <-]. lia.
Qed.

(** C2 (one producer, one consumer).  Start from a queue the constructor
    accepted, with both threads idle, and let the producer thread (calling
    [push] with any items) and the consumer thread (calling [pop]) take turns
    in any order, one memory access at a time, every load reading any store
    that the release/acquire rules allow it to read.  No execution has a data
    race on a slot.  At every moment the items delivered by the pops that
    returned [true] are, in order, the first of the items given to the pushes
    that returned [true]: nothing is lost, duplicated or reordered; and at
    most [N - 1] items are in the queue.  Once the consumer's acquire load of
    [head_] has shown it an element, the slot holds the object that the push
    was given, and the consumer's view knows every access made to the slot:
    the construction happens before the consumer's move.  The item moved out
    is that object. *)
Theorem interleaving_fifo_prefix (T : Type) (capacity : Z)
    (q0 : spscqueue.SPSCQueue T) (schedule : list (threads.turn T)) :
  0 <= capacity < 2 ^ 64 ->
  spscqueue.new capacity = inr q0 ->
  let s := threads.run (threads.init q0) schedule in
  threads.raced s = false /\
  threads.popped s =
    Some <$> take (length (threads.popped s)) (threads.pushed s) /\
  (length (threads.popped s) <= length (threads.pushed s))%nat /\
  Z.of_nat (length (threads.pushed s)) - Z.of_nat (length (threads.popped s))
    <= capacity - 1 /\
  match threads.cons s with
  | threads.C_data t =>
      exists x, threads.pushed s !! length (threads.popped s) = Some x /\
                threads.buffer_ (threads.mem s) !! Z.to_nat t = Some (Some x) /\
                threads.seen (threads.cons_view s) (Z.to_nat t) =
                  threads.accesses (threads.mem s) (Z.to_nat t)
  | threads.C_moved _ item | threads.C_destroyed _ item =>
      exists x, item = Some x /\
                threads.pushed s !! length (threads.popped s) = Some x
  | _ => True
  end.
Proof.
  intros Hc Hnew s.
  destruct (proj2 (new_accepts T capacity Hc) (ex_intro _ q0 Hnew)) as (k & Hk & ->).
  assert (Hinv : threads_inv (2 ^ k) s).
  { apply threads_inv_run; [exact Hk | lia |].
    apply threads_inv_init; [exact Hk | lia | exact Hnew]. }
  destruct (pow2_bounds k Hk ltac:(lia)) as [H2 _].
  destruct Hinv as [Hr Hcap Hbuf Hhl Htl Hhm Htm Hph Hpt Hple Hpk Hroom
                    Hct Hch Hcle Hck Hpre Hslots Hp Hcons].
  split; [exact Hr|]. split; [exact Hpre|]. split; [lia|]. split; [lia|].
  unfold consumer_ok in Hcons.
  pose proof (constructing_range (threads.prod s)) as Hcr.
  assert (HPC : Z.of_nat (length (threads.pushed s)) + constructing (threads.prod s)
                <= Z.of_nat (length (threads.popped s)) + 2 ^ k - 1).
  { unfold producer_ok in Hp. destruct (threads.prod s); simpl in *; lia. }
  destruct (threads.cons s) as [|t|t|t item|t item]; try exact I.
  - destruct Hcons as (-> & Hlt).
    destruct (lookup_lt_is_Some_2 (threads.pushed s) (length (threads.popped s))
                ltac:(lia)) as [x Hx].
    exists x. split; [exact Hx|].
    change (Z.to_nat (Z.of_nat (length (threads.popped s)) mod 2 ^ k))
      with (slot_of (2 ^ k) (Z.of_nat (length (threads.popped s)))).
    split.
    + rewrite Hslots by (simpl; lia). rewrite Nat2Z.id, Hx. reflexivity.
    + rewrite <- (slot_of_add (2 ^ k) (Z.of_nat (length (threads.popped s)))) by lia.
      apply Hck. lia.
  - destruct Hcons as (_ & Hlt & ->).
    destruct (lookup_lt_is_Some_2 (threads.pushed s) (length (threads.popped s))
                ltac:(lia)) as [x Hx].
    exists x. rewrite Hx. split; reflexivity.
  - destruct Hcons as (_ & Hlt & ->).
    destruct (lookup_lt_is_Some_2 (threads.pushed s) (length (threads.popped s))
                ltac:(lia)) as [x Hx].
    exists x. rewrite Hx. split; reflexivity.
Qed.

Lemma interleaving_fifo_prefix_witness :
  let q0 := spscqueue.mkSPSCQueue 2 [@None nat; None] 0 0 in
  let schedule :=
    [threads.Producer 7%nat 0; threads.Producer 7%nat 0; threads.Producer 7%nat 0;
     threads.Producer 7%nat 0; threads.Consumer 0; threads.Consumer 1;
     threads.Consumer 0; threads.Consumer 0; threads.Producer 8%nat 0;
     threads.Producer 8%nat 0; threads.Consumer 0; threads.Consumer 0;
     threads.Consumer 0; threads.Producer 8%nat 0; threads.Producer 8%nat 1;
     threads.Producer 8%nat 0; threads.Producer 8%nat 0; threads.Producer 8%nat 0;
     threads.Producer 8%nat 0; threads.Consumer 0; threads.Consumer 0;
     threads.Consumer 0] in
  let s := threads.run (threads.init q0) schedule in
  threads.raced s = false /\
  threads.popped s =
    Some <$> take (length (threads.popped s)) (threads.pushed s) /\
  (length (threads.popped s) <= length (threads.pushed s))%nat /\
  Z.of_nat (length (threads.pushed s)) - Z.of_nat (length (threads.popped s))
    <= 2 - 1 /\
  match threads.cons s with
  | threads.C_data t =>
      exists x, threads.pushed s !! length (threads.popped s) = Some x /\
                threads.buffer_ (threads.mem s) !! Z.to_nat t = Some (Some x) /\
                threads.seen (threads.cons_view s) (Z.to_nat t) =
                  threads.accesses (threads.mem s) (Z.to_nat t)
  | threads.C_moved _ item | threads.C_destroyed _ item =>
      exists x, item = Some x /\
                threads.pushed s !! length (threads.popped s) = Some x
  | _ => True
  end.
Proof.
  apply (interleaving_fifo_prefix nat 2).
  - lia.
  - reflexivity.
Defined.

(** An execution with stale reads on a queue of capacity 2.  After the push
    of 7 is complete, a [pop] whose load reads the older store to [head_]
    returns [false]; the next one delivers 7.  A push of 8 finds the queue
    full; after the pop has stored the tail, a push whose load still reads
    the older store to [tail_] returns [false] again; the next one goes
    through, and the consumer then sees the new element. *)
Example interleaving_run :
  let q0 := spscqueue.mkSPSCQueue 2 [@None nat; None] 0 0 in
  let run := threads.run (threads.init q0) in
  let push7 := [threads.Producer 7%nat 0; threads.Producer 7%nat 0;
                threads.Producer 7%nat 0; threads.Producer 7%nat 0] in
  let stale_pop := [threads.Consumer 0; threads.Consumer 1] in
  let pop := [@threads.Consumer nat 0; threads.Consumer 0; threads.Consumer 0;
              threads.Consumer 0; threads.Consumer 0] in
  let full_push8 := [threads.Producer 8%nat 0; threads.Producer 8%nat 0] in
  let stale_push8 := [threads.Producer 8%nat 0; threads.Producer 8%nat 1] in
  let push8 := [threads.Producer 8%nat 0; threads.Producer 8%nat 0;
                threads.Producer 8%nat 0; threads.Producer 8%nat 0] in
  let s1 := run (push7 ++ stale_pop) in
  let s2 := run (push7 ++ stale_pop ++ take 2 pop ++ full_push8) in
  let s3 := run (push7 ++ stale_pop ++ take 2 pop ++ full_push8 ++ drop 2 pop
                   ++ stale_push8) in
  let s4 := run (push7 ++ stale_pop ++ take 2 pop ++ full_push8 ++ drop 2 pop
                   ++ stale_push8 ++ push8 ++ take 2 pop) in
  (threads.pushed s1 = [7%nat] /\ threads.popped s1 = [] /\
   threads.cons s1 = threads.C_idle) /\
  (threads.pushed s2 = [7%nat] /\ threads.prod s2 = threads.P_idle /\
   threads.cons s2 = threads.C_data 0) /\
  (threads.pushed s3 = [7%nat] /\ threads.popped s3 = [Some 7%nat] /\
   threads.prod s3 = threads.P_idle) /\
  (threads.pushed s4 = [7%nat; 8%nat] /\ threads.popped s4 = [Some 7%nat] /\
   threads.cons s4 = threads.C_data 1 /\ threads.raced s4 = false).
Proof. repeat split. Qed.

(** ** Progress of [push] and [pop] *)

(** An acquire load that reads the last store. *)
Lemma load_acquire_fresh {T : Type} (a : threads.atomic) (m : threads.memory T)
    (V : threads.view) (last : nat) :
  length (threads.history a m) = S last -> (threads.at_ a V <= last)%nat ->
  exists msg, threads.history a m !! last = Some msg /\
    threads.load threads.acquire a 0 m V =
    Some (threads.value msg,
          threads.join (threads.set_at a last V) (threads.released msg)).
Proof.
  intros Hl Hv.
  destruct (lookup_lt_is_Some_2 (threads.history a m) last ltac:(lia)) as [msg Hm].
  exists msg. split; [exact Hm|]. unfold threads.load.
  replace (threads.read_position a 0 m V) with last
    by (unfold threads.read_position; lia).
  rewrite Hm. reflexivity.
Qed.

Section Progress.

Context {T : Type}.
Variable k : Z.
Hypothesis k_pos : 1 <= k.
Hypothesis k_small : 2 ^ k < 2 ^ 64.

Let cap := 2 ^ k.

Implicit Types (s : threads.system T) (x : T).

Lemma producer_turn_idle s x stale :
  threads_inv cap s -> threads.prod s = threads.P_idle ->
  producer_at s (threads.producer_step x stale s)
    (threads.P_head x (Z.of_nat (length (threads.pushed s)) mod cap)).
Proof.
  intros Hinv Hp.
  destruct Hinv as [Hr Hcap Hbuf Hhl Htl Hhm Htm Hph Hpt Hple Hpk Hroom
                    Hct Hch Hcle Hck Hpre Hslots Hpo Hco].
  destruct s as [m p Vp c Vc pu po rc]. simpl in *. subst rc p.
  unfold threads.producer_step, producer_at; simpl.
  destruct (load_own threads.Head stale m Vp (length pu) Hhl Hph) as (msg & Hm & ->).
  destruct (Hhm _ _ Hm) as (Hv & _). simpl. rewrite Hv. repeat split.
Qed.

Lemma producer_turn_head s x y h stale :
  threads_inv cap s -> threads.prod s = threads.P_head x h ->
  let P := Z.of_nat (length (threads.pushed s)) in
  let C := Z.of_nat (length (threads.popped s)) in
  (stale = 0%nat -> P - C < cap - 1 ->
   producer_at s (threads.producer_step y stale s)
     (threads.P_room x h ((P + 1) mod cap))) /\
  (P - C = cap - 1 ->
   producer_at s (threads.producer_step y stale s) threads.P_idle).
Proof.
  intros Hinv Hp P C. pose proof (cap_bounds k k_pos k_small) as Hb. fold cap in Hb.
  destruct Hinv as [Hr Hcap Hbuf Hhl Htl Hhm Htm Hph Hpt Hple Hpk Hroom
                    Hct Hch Hcle Hck Hpre Hslots Hpo Hco].
  destruct s as [m p Vp c Vc pu po rc]. unfold producer_ok in Hpo.
  simpl in *. subst rc p. subst h.
  unfold threads.producer_step, producer_at; simpl.
  rewrite (threads_next_index k k_pos k_small m _ Hcap)
    by (apply Z.mod_pos_bound; lia).
  rewrite (next_of_mod k k_pos k_small). fold cap. fold P.
  split.
  - intros -> Hlt.
    destruct (load_acquire_fresh threads.Tail m Vp (length po) Htl Hpt)
      as (msg & Hm & ->).
    destruct (Htm _ _ Hm) as (Hv & _). rewrite Hv. fold C.
    destruct (Z.eqb_spec ((P + 1) mod cap) (C mod cap)) as [E|NE]; simpl.
    + exfalso. pose proof (mod_eq_close cap (P + 1) C ltac:(lia) E). lia.
    + repeat split.
  - intros Hfull.
    destruct (load_acquire threads.Tail stale m Vp (length po) Htl Hpt)
      as (ts & msg & Hts & Hm & ->).
    destruct (Htm _ _ Hm) as (Hv & _). rewrite Hv. simpl in Hts.
    assert (ts = length po) as -> by lia. fold C.
    replace (P + 1) with (C + 1 * cap) by lia.
    rewrite Z.mod_add, Z.eqb_refl by lia. simpl. repeat split.
Qed.

Lemma producer_turn_room s x y h next stale :
  threads_inv cap s -> threads.prod s = threads.P_room x h next ->
  producer_at s (threads.producer_step y stale s) (threads.P_built x h next).
Proof.
  intros Hinv Hp.
  pose proof (threads_inv_producer_step k k_pos k_small y stale s Hinv) as Hinv'.
  apply inv_raced in Hinv'. apply inv_raced in Hinv.
  destruct s as [m p Vp c Vc pu po rc]. simpl in *. subst rc p.
  unfold threads.producer_step, producer_at in *; simpl in *.
  destruct (threads.access (Z.to_nat h) m Vp) as [[m' V']|]; simpl in *.
  - repeat split.
  - discriminate Hinv'.
Qed.

Lemma producer_turn_built s x y h next stale :
  threads.raced s = false -> threads.prod s = threads.P_built x h next ->
  let s' := threads.producer_step y stale s in
  threads.prod s' = threads.P_idle /\ threads.cons s' = threads.cons s /\
  threads.pushed s' = threads.pushed s ++ [x] /\
  threads.popped s' = threads.popped s.
Proof.
  intros Hr Hp.
  destruct s as [m p Vp c Vc pu po rc]. simpl in *. subst rc p.
  unfold threads.producer_step; simpl. repeat split.
Qed.

Lemma consumer_turn_idle s stale :
  threads_inv cap s -> threads.cons s = threads.C_idle ->
  consumer_at s (threads.consumer_step stale s)
    (threads.C_tail (Z.of_nat (length (threads.popped s)) mod cap)).
Proof.
  intros Hinv Hp.
  destruct Hinv as [Hr Hcap Hbuf Hhl Htl Hhm Htm Hph Hpt Hple Hpk Hroom
                    Hct Hch Hcle Hck Hpre Hslots Hpo Hco].
  destruct s as [m p Vp c Vc pu po rc]. simpl in *. subst rc c.
  unfold threads.consumer_step, consumer_at; simpl.
  destruct (load_own threads.Tail stale m Vc (length po) Htl Hct) as (msg & Hm & ->).
  destruct (Htm _ _ Hm) as (Hv & _). simpl. rewrite Hv. repeat split.
Qed.

Lemma consumer_turn_tail s t stale :
  threads_inv cap s -> threads.cons s = threads.C_tail t ->
  let P := Z.of_nat (length (threads.pushed s)) in
  let C := Z.of_nat (length (threads.popped s)) in
  (stale = 0%nat -> C < P ->
   consumer_at s (threads.consumer_step stale s) (threads.C_data t)) /\
  (C = P -> consumer_at s (threads.consumer_step stale s) threads.C_idle).
Proof.
  intros Hinv Hp P C. pose proof (cap_bounds k k_pos k_small) as Hb. fold cap in Hb.
  destruct Hinv as [Hr Hcap Hbuf Hhl Htl Hhm Htm Hph Hpt Hple Hpk Hroom
                    Hct Hch Hcle Hck Hpre Hslots Hpo Hco].
  destruct s as [m p Vp c Vc pu po rc]. unfold consumer_ok in Hco.
  simpl in *. subst rc c. subst t.
  unfold threads.consumer_step, consumer_at; simpl. fold C.
  assert (Hv0 : (threads.at_ threads.Head Vc <= length pu)%nat) by (simpl; lia).
  split.
  - intros -> Hlt.
    destruct (load_acquire_fresh threads.Head m Vc (length pu) Hhl Hv0)
      as (msg & Hm & ->).
    destruct (Hhm _ _ Hm) as (Hv & _). rewrite Hv. fold P.
    destruct (Z.eqb_spec (C mod cap) (P mod cap)) as [E|NE]; simpl.
    + exfalso. symmetry in E.
      pose proof (mod_eq_close cap P C ltac:(lia) E). lia.
    + repeat split.
  - intros Hempty.
    destruct (load_acquire threads.Head stale m Vc (length pu) Hhl Hv0)
      as (ts & msg & Hts & Hm & ->).
    destruct (Hhm _ _ Hm) as (Hv & _). rewrite Hv. simpl in Hts.
    assert (ts = length po) as -> by lia. fold C.
    rewrite Z.eqb_refl. simpl. repeat split.
Qed.

Lemma consumer_turn_data s t stale :
  threads_inv cap s -> threads.cons s = threads.C_data t ->
  consumer_at s (threads.consumer_step stale s)
    (threads.C_moved t (threads.pushed s !! length (threads.popped s))).
Proof.
  intros Hinv Hp.
  pose proof (threads_inv_consumer_step k k_pos k_small stale s Hinv) as Hinv'.
  pose proof (inv_raced _ _ Hinv') as Hr'.
  pose proof (inv_consumer _ _ Hinv') as Hc'. unfold consumer_ok in Hc'.
  apply inv_raced in Hinv.
  destruct s as [m p Vp c Vc pu po rc]. simpl in *. subst rc c.
  unfold threads.consumer_step, consumer_at in *; simpl in *.
  destruct (threads.access (Z.to_nat t) m Vc) as [[m' V']|]; simpl in *.
  - destruct Hc' as (_ & _ & ->). repeat split.
  - discriminate Hr'.
Qed.

Lemma consumer_turn_moved s t item stale :
  threads_inv cap s -> threads.cons s = threads.C_moved t item ->
  consumer_at s (threads.consumer_step stale s) (threads.C_destroyed t item).
Proof.
  intros Hinv Hp.
  pose proof (threads_inv_consumer_step k k_pos k_small stale s Hinv) as Hinv'.
  apply inv_raced in Hinv'. apply inv_raced in Hinv.
  destruct s as [m p Vp c Vc pu po rc]. simpl in *. subst rc c.
  unfold threads.consumer_step, consumer_at in *; simpl in *.
  destruct (threads.access (Z.to_nat t) m Vc) as [[m' V']|]; simpl in *.
  - repeat split.
  - discriminate Hinv'.
Qed.

Lemma consumer_turn_destroyed s t item stale :
  threads.raced s = false -> threads.cons s = threads.C_destroyed t item ->
  let s' := threads.consumer_step stale s in
  threads.cons s' = threads.C_idle /\ threads.prod s' = threads.prod s /\
  threads.pushed s' = threads.pushed s /\
  threads.popped s' = threads.popped s ++ [item].
Proof.
  intros Hr Hp.
  destruct s as [m p Vp c Vc pu po rc]. simpl in *. subst rc c.
  unfold threads.consumer_step; simpl. repeat split.
Qed.

(** An uninterrupted [push] that finds room, and one that finds the queue
    full. *)
Lemma push_call_room s x st0 st2 st3 :
  threads_inv cap s -> threads.prod s = threads.P_idle ->
  Z.of_nat (length (threads.pushed s)) - Z.of_nat (length (threads.popped s))
    < cap - 1 ->
  let s' := threads.run s [threads.Producer x st0; threads.Producer x 0;
                           threads.Producer x st2; threads.Producer x st3] in
  threads_inv cap s' /\
  threads.prod s' = threads.P_idle /\ threads.cons s' = threads.cons s /\
  threads.pushed s' = threads.pushed s ++ [x] /\
  threads.popped s' = threads.popped s.
Proof.
  intros Hinv Hp Hroom. simpl.
  set (s1 := threads.producer_step x st0 s).
  set (s2 := threads.producer_step x 0 s1).
  set (s3 := threads.producer_step x st2 s2).
  set (s4 := threads.producer_step x st3 s3).
  pose proof (threads_inv_producer_step k k_pos k_small x st0 s Hinv) as H1.
  pose proof (threads_inv_producer_step k k_pos k_small x 0 _ H1) as H2.
  pose proof (threads_inv_producer_step k k_pos k_small x st2 _ H2) as H3.
  pose proof (threads_inv_producer_step k k_pos k_small x st3 _ H3) as H4.
  fold s1 in H1, H2. fold s2 in H2, H3. fold s3 in H3, H4. fold s4 in H4.
  destruct (producer_turn_idle s x st0 Hinv Hp) as (P1 & C1 & U1 & O1). fold s1 in P1, C1, U1, O1.
  destruct (proj1 (producer_turn_head s1 x x _ 0%nat H1 P1) eq_refl) as (P2 & C2 & U2 & O2);
    [rewrite U1, O1; exact Hroom|]. fold s2 in P2, C2, U2, O2.
  destruct (producer_turn_room s2 x x _ _ st2 H2 P2) as (P3 & C3 & U3 & O3).
  fold s3 in P3, C3, U3, O3.
  destruct (producer_turn_built s3 x x _ _ st3 (inv_raced _ _ H3) P3)
    as (P4 & C4 & U4 & O4). fold s4 in P4, C4, U4, O4.
  split; [exact H4|]. split; [exact P4|].
  split; [congruence|]. split; congruence.
Qed.

Lemma push_call_full s x st0 st1 :
  threads_inv cap s -> threads.prod s = threads.P_idle ->
  Z.of_nat (length (threads.pushed s)) - Z.of_nat (length (threads.popped s))
    = cap - 1 ->
  let s' := threads.run s [threads.Producer x st0; threads.Producer x st1] in
  threads_inv cap s' /\
  threads.prod s' = threads.P_idle /\ threads.cons s' = threads.cons s /\
  threads.pushed s' = threads.pushed s /\
  threads.popped s' = threads.popped s.
Proof.
  intros Hinv Hp Hfull. simpl.
  set (s1 := threads.producer_step x st0 s).
  set (s2 := threads.producer_step x st1 s1).
  pose proof (threads_inv_producer_step k k_pos k_small x st0 s Hinv) as H1.
  pose proof (threads_inv_producer_step k k_pos k_small x st1 _ H1) as H2.
  fold s1 in H1, H2. fold s2 in H2.
  destruct (producer_turn_idle s x st0 Hinv Hp) as (P1 & C1 & U1 & O1).
  fold s1 in P1, C1, U1, O1.
  destruct (proj2 (producer_turn_head s1 x x _ st1 H1 P1)) as (P2 & C2 & U2 & O2);
    [rewrite U1, O1; exact Hfull|]. fold s2 in P2, C2, U2, O2.
  split; [exact H2|]. split; [exact P2|].
  split; [congruence|]. split; congruence.
Qed.

(** An uninterrupted [pop] that finds an element, and one that finds the
    queue empty. *)
Lemma pop_call_data s st0 st2 st3 st4 :
  threads_inv cap s -> threads.cons s = threads.C_idle ->
  (length (threads.popped s) < length (threads.pushed s))%nat ->
  let s' := threads.run s [threads.Consumer st0; threads.Consumer 0;
                           threads.Consumer st2; threads.Consumer st3;
                           threads.Consumer st4] in
  threads_inv cap s' /\
  threads.cons s' = threads.C_idle /\ threads.prod s' = threads.prod s /\
  threads.pushed s' = threads.pushed s /\
  threads.popped s' =
    threads.popped s ++ [threads.pushed s !! length (threads.popped s)].
Proof.
  intros Hinv Hc Hdata. simpl.
  set (s1 := threads.consumer_step st0 s).
  set (s2 := threads.consumer_step 0 s1).
  set (s3 := threads.consumer_step st2 s2).
  set (s4 := threads.consumer_step st3 s3).
  set (s5 := threads.consumer_step st4 s4).
  pose proof (threads_inv_consumer_step k k_pos k_small st0 s Hinv) as H1.
  pose proof (threads_inv_consumer_step k k_pos k_small 0 _ H1) as H2.
  pose proof (threads_inv_consumer_step k k_pos k_small st2 _ H2) as H3.
  pose proof (threads_inv_consumer_step k k_pos k_small st3 _ H3) as H4.
  pose proof (threads_inv_consumer_step k k_pos k_small st4 _ H4) as H5.
  fold s1 in H1, H2. fold s2 in H2, H3. fold s3 in H3, H4. fold s4 in H4, H5.
  fold s5 in H5.
  destruct (consumer_turn_idle s st0 Hinv Hc) as (C1 & P1 & U1 & O1).
  fold s1 in P1, C1, U1, O1.
  destruct (proj1 (consumer_turn_tail s1 _ 0%nat H1 C1) eq_refl) as (C2 & P2 & U2 & O2);
    [rewrite U1, O1; lia|]. fold s2 in P2, C2, U2, O2.
  destruct (consumer_turn_data s2 _ st2 H2 C2) as (C3 & P3 & U3 & O3).
  fold s3 in P3, C3, U3, O3.
  destruct (consumer_turn_moved s3 _ _ st3 H3 C3) as (C4 & P4 & U4 & O4).
  fold s4 in P4, C4, U4, O4.
  destruct (consumer_turn_destroyed s4 _ _ st4 (inv_raced _ _ H4) C4)
    as (C5 & P5 & U5 & O5). fold s5 in P5, C5, U5, O5.
  split; [exact H5|]. split; [exact C5|].
  split; [congruence|]. split; [congruence|].
  rewrite O5, O4, O3, O2, O1, U2, U1. reflexivity.
Qed.

Lemma pop_call_empty s st0 st1 :
  threads_inv cap s -> threads.cons s = threads.C_idle ->
  length (threads.popped s) = length (threads.pushed s) ->
  let s' := threads.run s [threads.Consumer st0; threads.Consumer st1] in
  threads_inv cap s' /\
  threads.cons s' = threads.C_idle /\ threads.prod s' = threads.prod s /\
  threads.pushed s' = threads.pushed s /\
  threads.popped s' = threads.popped s.
Proof.
  intros Hinv Hc Hempty. simpl.
  set (s1 := threads.consumer_step st0 s).
  set (s2 := threads.consumer_step st1 s1).
  pose proof (threads_inv_consumer_step k k_pos k_small st0 s Hinv) as H1.
  pose proof (threads_inv_consumer_step k k_pos k_small st1 _ H1) as H2.
  fold s1 in H1, H2. fold s2 in H2.
  destruct (consumer_turn_idle s st0 Hinv Hc) as (C1 & P1 & U1 & O1).
  fold s1 in P1, C1, U1, O1.
  destruct (proj2 (consumer_turn_tail s1 _ st1 H1 C1)) as (C2 & P2 & U2 & O2);
    [rewrite U1, O1; lia|]. fold s2 in P2, C2, U2, O2.
  split; [exact H2|]. split; [exact C2|].
  split; [congruence|]. split; congruence.
Qed.

End Progress.

Lemma threads_inv_reachable (T : Type) (capacity : Z) (q0 : spscqueue.SPSCQueue T)
    (schedule : list (threads.turn T)) :
  0 <= capacity < 2 ^ 64 ->
  spscqueue.new capacity = inr q0 ->
  exists k, 1 <= k /\ 2 ^ k < 2 ^ 64 /\ capacity = 2 ^ k /\
            threads_inv (2 ^ k) (threads.run (threads.init q0) schedule).
Proof.
  intros Hc Hnew.
  destruct (proj2 (new_accepts T capacity Hc) (ex_intro _ q0 Hnew)) as (k & Hk & ->).
  exists k. split; [exact Hk|]. split; [lia|]. split; [reflexivity|].
  apply threads_inv_run; [exact Hk | lia |].
  apply threads_inv_init; [exact Hk | lia | exact Hnew].
Qed.

Lemma run_app {T : Type} (s : threads.system T) (a b : list (threads.turn T)) :
  threads.run s (a ++ b) = threads.run (threads.run s a) b.
Proof. apply fold_left_app. Qed.

Lemma pop_calls_deliver {T : Type} (k : Z) (n : nat) (s : threads.system T) :
  1 <= k -> 2 ^ k < 2 ^ 64 ->
  threads_inv (2 ^ k) s -> threads.cons s = threads.C_idle ->
  (length (threads.popped s) + n = length (threads.pushed s))%nat ->
  let s' := threads.run s (pop_calls n) in
  threads_inv (2 ^ k) s' /\ threads.cons s' = threads.C_idle /\
  threads.prod s' = threads.prod s /\
  threads.pushed s' = threads.pushed s /\
  threads.popped s' = Some <$> threads.pushed s.
Proof.
  intros Hk Hk64. revert s. induction n as [|n IH]; intros s Hinv Hc Hn.
  - split; [exact Hinv|]. split; [exact Hc|]. split; [reflexivity|].
    split; [reflexivity|]. cbn [pop_calls replicate mjoin threads.run fold_left].
    rewrite (inv_prefix _ _ Hinv) at 1. rewrite take_ge by lia. reflexivity.
  - change (@pop_calls T (S n)) with (@pop_call T ++ pop_calls n).
    cbv zeta. rewrite run_app.
    destruct (pop_call_data k Hk Hk64 s 0 0 0 0 Hinv Hc ltac:(lia))
      as (Hinv' & Hc' & Hp' & Hu' & Ho').
    fold (@pop_call T) in Hinv', Hc', Hp', Hu', Ho'.
    destruct (IH (threads.run s pop_call) Hinv' Hc') as (Hi & Hci & Hpi & Hui & Hoi).
    { rewrite Ho', Hu', length_app. simpl. lia. }
    split; [exact Hi|]. split; [exact Hci|]. split; [congruence|].
    split; [congruence|]. rewrite Hoi, Hu'. reflexivity.
Qed.

(** Push returns.  In a state that an execution reaches with the producer
    between two calls: when fewer than [N - 1] pushed items are still to be
    popped, a [push] whose load of [tail_] reads the last store goes through
    its four accesses without a data race and returns [true], its item now
    last of the pushed ones; when [N - 1] are, [push] returns [false] after
    two accesses, whatever store it reads, and changes nothing. *)
Theorem push_succeeds_unless_full (T : Type) (capacity : Z)
    (q0 : spscqueue.SPSCQueue T) (schedule : list (threads.turn T)) (x : T)
    (st0 st1 st2 st3 : nat) :
  0 <= capacity < 2 ^ 64 ->
  spscqueue.new capacity = inr q0 ->
  let s := threads.run (threads.init q0) schedule in
  let in_queue :=
    Z.of_nat (length (threads.pushed s)) - Z.of_nat (length (threads.popped s)) in
  threads.prod s = threads.P_idle ->
  (in_queue < capacity - 1 ->
   let s' := threads.run s [threads.Producer x st0; threads.Producer x 0;
                            threads.Producer x st2; threads.Producer x st3] in
   threads.raced s' = false /\ threads.prod s' = threads.P_idle /\
   threads.pushed s' = threads.pushed s ++ [x] /\
   threads.popped s' = threads.popped s /\ threads.cons s' = threads.cons s) /\
  (in_queue = capacity - 1 ->
   let s' := threads.run s [threads.Producer x st0; threads.Producer x st1] in
   threads.raced s' = false /\ threads.prod s' = threads.P_idle /\
   threads.pushed s' = threads.pushed s /\
   threads.popped s' = threads.popped s /\ threads.cons s' = threads.cons s).
Proof.
  intros Hc Hnew s in_queue Hp.
  destruct (threads_inv_reachable T capacity q0 schedule Hc Hnew)
    as (k & Hk & Hk64 & -> & Hinv).
  fold s in Hinv. split.
  - intros Hroom.
    destruct (push_call_room k Hk Hk64 s x st0 st2 st3 Hinv Hp Hroom)
      as (Hi & H1 & H2 & H3 & H4).
    cbv zeta. repeat split; try assumption. exact (inv_raced _ _ Hi).
  - intros Hfull.
    destruct (push_call_full k Hk Hk64 s x st0 st1 Hinv Hp Hfull)
      as (Hi & H1 & H2 & H3 & H4).
    cbv zeta. repeat split; try assumption. exact (inv_raced _ _ Hi).
Qed.

Lemma push_succeeds_unless_full_witness :
  let q0 := spscqueue.mkSPSCQueue 2 [@None nat; None] 0 0 in
  let s := threads.run (threads.init q0)
             [threads.Producer 7%nat 0; threads.Producer 7%nat 0;
              threads.Producer 7%nat 0; threads.Producer 7%nat 0;
              threads.Consumer 0; threads.Consumer 0] in
  let in_queue :=
    Z.of_nat (length (threads.pushed s)) - Z.of_nat (length (threads.popped s)) in
  (in_queue < 2 - 1 ->
   let s' := threads.run s [threads.Producer 8%nat 0; threads.Producer 8%nat 0;
                            threads.Producer 8%nat 0; threads.Producer 8%nat 0] in
   threads.raced s' = false /\ threads.prod s' = threads.P_idle /\
   threads.pushed s' = threads.pushed s ++ [8%nat] /\
   threads.popped s' = threads.popped s /\ threads.cons s' = threads.cons s) /\
  (in_queue = 2 - 1 ->
   let s' := threads.run s [threads.Producer 8%nat 0; threads.Producer 8%nat 3] in
   threads.raced s' = false /\ threads.prod s' = threads.P_idle /\
   threads.pushed s' = threads.pushed s /\
   threads.popped s' = threads.popped s /\ threads.cons s' = threads.cons s).
Proof.
  apply (push_succeeds_unless_full nat 2 _ _ 8%nat 0 3 0 0).
  - lia.
  - reflexivity.
  - reflexivity.
Defined.

(** Pop returns.  In a state that an execution reaches with the consumer
    between two calls: when some pushed item is still to be popped, a [pop]
    whose load of [head_] reads the last store goes through its five accesses
    without a data race and returns [true] with the oldest such item; when
    none is, [pop] returns [false] after two accesses and changes nothing. *)
Theorem pop_delivers_unless_empty (T : Type) (capacity : Z)
    (q0 : spscqueue.SPSCQueue T) (schedule : list (threads.turn T))
    (st0 st1 st2 st3 st4 : nat) :
  0 <= capacity < 2 ^ 64 ->
  spscqueue.new capacity = inr q0 ->
  let s := threads.run (threads.init q0) schedule in
  threads.cons s = threads.C_idle ->
  ((length (threads.popped s) < length (threads.pushed s))%nat ->
   let s' := threads.run s [threads.Consumer st0; threads.Consumer 0;
                            threads.Consumer st2; threads.Consumer st3;
                            threads.Consumer st4] in
   threads.raced s' = false /\ threads.cons s' = threads.C_idle /\
   (exists x, threads.pushed s !! length (threads.popped s) = Some x /\
              threads.popped s' = threads.popped s ++ [Some x]) /\
   threads.pushed s' = threads.pushed s /\ threads.prod s' = threads.prod s) /\
  (length (threads.popped s) = length (threads.pushed s) ->
   let s' := threads.run s [threads.Consumer st0; threads.Consumer st1] in
   threads.raced s' = false /\ threads.cons s' = threads.C_idle /\
   threads.popped s' = threads.popped s /\
   threads.pushed s' = threads.pushed s /\ threads.prod s' = threads.prod s).
Proof.
  intros Hc Hnew s Hidle.
  destruct (threads_inv_reachable T capacity q0 schedule Hc Hnew)
    as (k & Hk & Hk64 & -> & Hinv).
  fold s in Hinv. split.
  - intros Hdata.
    destruct (pop_call_data k Hk Hk64 s st0 st2 st3 st4 Hinv Hidle Hdata)
      as (Hi & H1 & H2 & H3 & H4).
    cbv zeta. split; [exact (inv_raced _ _ Hi)|]. split; [exact H1|].
    split; [|split; assumption].
    destruct (lookup_lt_is_Some_2 _ _ Hdata) as [x Hx].
    exists x. split; [exact Hx|]. rewrite H4, Hx. reflexivity.
  - intros Hempty.
    destruct (pop_call_empty k Hk Hk64 s st0 st1 Hinv Hidle Hempty)
      as (Hi & H1 & H2 & H3 & H4).
    cbv zeta. repeat split; try assumption. exact (inv_raced _ _ Hi).
Qed.

Lemma pop_delivers_unless_empty_witness :
  let q0 := spscqueue.mkSPSCQueue 2 [@None nat; None] 0 0 in
  let s := threads.run (threads.init q0)
             [threads.Producer 7%nat 0; threads.Producer 7%nat 0;
              threads.Producer 7%nat 0; threads.Producer 7%nat 0] in
  ((length (threads.popped s) < length (threads.pushed s))%nat ->
   let s' := threads.run s [threads.Consumer 0; threads.Consumer 0;
                            threads.Consumer 0; threads.Consumer 0;
                            threads.Consumer 0] in
   threads.raced s' = false /\ threads.cons s' = threads.C_idle /\
   (exists x, threads.pushed s !! length (threads.popped s) = Some x /\
              threads.popped s' = threads.popped s ++ [Some x]) /\
   threads.pushed s' = threads.pushed s /\ threads.prod s' = threads.prod s) /\
  (length (threads.popped s) = length (threads.pushed s) ->
   let s' := threads.run s [threads.Consumer 0; threads.Consumer 2] in
   threads.raced s' = false /\ threads.cons s' = threads.C_idle /\
   threads.popped s' = threads.popped s /\
   threads.pushed s' = threads.pushed s /\ threads.prod s' = threads.prod s).
Proof.
  apply (pop_delivers_unless_empty nat 2 _ _ 0 2 0 0 0).
  - lia.
  - reflexivity.
  - reflexivity.
Defined.

(** Nothing is lost.  From any state that an execution reaches with the
    consumer between two calls, as many uninterrupted calls of [pop] as
    there are pushed items still to be popped, each reading the last store
    to [head_], deliver all of them: the items popped are then exactly the
    items pushed, in order. *)
Theorem pops_deliver_everything (T : Type) (capacity : Z)
    (q0 : spscqueue.SPSCQueue T) (schedule : list (threads.turn T)) :
  0 <= capacity < 2 ^ 64 ->
  spscqueue.new capacity = inr q0 ->
  let s := threads.run (threads.init q0) schedule in
  threads.cons s = threads.C_idle ->
  let s' := threads.run s
              (pop_calls (length (threads.pushed s) - length (threads.popped s))) in
  threads.raced s' = false /\
  threads.pushed s' = threads.pushed s /\
  threads.popped s' = Some <$> threads.pushed s.
Proof.
  intros Hc Hnew s Hidle.
  destruct (threads_inv_reachable T capacity q0 schedule Hc Hnew)
    as (k & Hk & Hk64 & -> & Hinv).
  fold s in Hinv.
  assert (Hle : (length (threads.popped s) <= length (threads.pushed s))%nat).
  { pose proof (inv_cons_head _ _ Hinv). lia. }
  destruct (pop_calls_deliver k
              (length (threads.pushed s) - length (threads.popped s)) s
              Hk Hk64 Hinv Hidle ltac:(lia)) as (Hi & _ & _ & Hu & Ho).
  cbv zeta. split; [exact (inv_raced _ _ Hi)|]. split; assumption.
Qed.

Lemma pops_deliver_everything_witness :
  let q0 := spscqueue.mkSPSCQueue 4 [@None nat; None; None; None] 0 0 in
  let s := threads.run (threads.init q0)
             [threads.Producer 7%nat 0; threads.Producer 7%nat 0;
              threads.Producer 7%nat 0; threads.Producer 7%nat 0;
              threads.Consumer 0; threads.Consumer 1;
              threads.Producer 8%nat 0; threads.Producer 8%nat 0;
              threads.Producer 8%nat 0; threads.Producer 8%nat 0;
              threads.Producer 9%nat 0; threads.Producer 9%nat 0;
              threads.Producer 9%nat 0] in
  let s' := threads.run s
              (pop_calls (length (threads.pushed s) - length (threads.popped s))) in
  threads.raced s' = false /\
  threads.pushed s' = threads.pushed s /\
  threads.popped s' = Some <$> threads.pushed s.
Proof.
  apply (pops_deliver_everything nat 4).
  - lia.
  - reflexivity.
  - reflexivity.
Defined.

(** ** Binary64: rounding, exact conversions and sums, percentile ranks *)

Lemma digits2_pos_size (p : positive) : digits2_pos p = Pos.size p.
Proof. induction p as [p IH|p IH|]; simpl; rewrite ?IH; reflexivity. Qed.

Lemma Zdigits2_log2 (p : positive) : Z.pos (digits2_pos p) = Z.log2 (Z.pos p) + 1.
Proof.
  rewrite digits2_pos_size. destruct p as [p|p|]; simpl; try reflexivity;
    rewrite Pos2Z.inj_succ; unfold Z.succ.
  all: destruct p; simpl; try reflexivity; rewrite ?Pos2Z.inj_succ; try lia.
Qed.

Lemma iter_pos_nat {A : Type} (f : A -> A) (p : positive) (x : A) :
  SpecFloat.iter_pos f p x = Nat.iter (Pos.to_nat p) f x.
Proof.
  revert x. induction p as [p IH|p IH|]; intros x; cbn [SpecFloat.iter_pos].
  - rewrite !IH, Pos2Nat.inj_xI, <- Nat.iter_add, <- Nat.iter_succ_r.
    f_equal. lia.
  - rewrite !IH, Pos2Nat.inj_xO, <- Nat.iter_add. f_equal. lia.
  - reflexivity.
Qed.

Lemma shr_1_spec (m : Z) (r s : bool) :
  0 <= m ->
  shr_1 (Build_shr_record m r s) = Build_shr_record (m / 2) (Z.odd m) (r || s).
Proof.
  intros Hm. destruct m as [|p|p]; [reflexivity| |lia].
  destruct p as [p|p|]; unfold shr_1.
  - rewrite Pos2Z.inj_xI. f_equal.
    rewrite Z.add_comm, Z.mul_comm, Z.div_add by lia. reflexivity.
  - rewrite Pos2Z.inj_xO. f_equal.
    rewrite Z.mul_comm, Z.div_mul by lia. reflexivity.
  - reflexivity.
Qed.

Lemma shr_iter_spec (P : Z) (n : nat) :
  0 <= P ->
  Nat.iter (S n) shr_1 (Build_shr_record P false false) =
  Build_shr_record (P / 2 ^ Z.of_nat (S n)) (Z.odd (P / 2 ^ Z.of_nat n))
    (negb (P mod 2 ^ Z.of_nat n =? 0)).
Proof.
  intros HP. induction n as [|n IH].
  - change (Nat.iter 1 shr_1 ?x) with (shr_1 x). rewrite shr_1_spec by exact HP.
    change (2 ^ Z.of_nat 1) with 2. change (2 ^ Z.of_nat 0) with 1.
    rewrite Z.div_1_r, Z.mod_1_r. reflexivity.
  - change (Nat.iter (S (S n)) shr_1 ?x) with (shr_1 (Nat.iter (S n) shr_1 x)).
    rewrite IH.
    assert (Hp : 0 < 2 ^ Z.of_nat n) by (apply Z.pow_pos_nonneg; lia).
    assert (Hp1 : 2 ^ Z.of_nat (S n) = 2 ^ Z.of_nat n * 2).
    { rewrite Nat2Z.inj_succ, Z.pow_succ_r by lia. lia. }
    rewrite shr_1_spec by (apply Z.div_pos; lia).
    f_equal.
    + rewrite Z.div_div by lia. f_equal.
      rewrite (Nat2Z.inj_succ (S n)), Z.pow_succ_r by lia. lia.
    + rewrite Hp1, Z.rem_mul_r by lia.
      rewrite Zmod_odd.
      destruct (Z.odd (P / 2 ^ Z.of_nat n)); simpl.
      * pose proof (Z.mod_pos_bound P (2 ^ Z.of_nat n) Hp).
        destruct (Z.eqb_spec (P mod 2 ^ Z.of_nat n + 2 ^ Z.of_nat n * 1) 0); [lia|reflexivity].
      * rewrite Z.mul_0_r, Z.add_0_r. reflexivity.
Qed.

Lemma rne_shift_bounds (P n : Z) :
  0 <= P -> 1 <= n ->
  P / 2 ^ n <= b64.rne_shift P n <= P / 2 ^ n + 1 /\
  - 2 ^ n <= 2 * (b64.rne_shift P n * 2 ^ n - P) <= 2 ^ n /\
  (P mod 2 ^ n = 0 -> b64.rne_shift P n = P / 2 ^ n).
Proof.
  intros HP Hn. unfold b64.rne_shift.
  set (H := 2 ^ (n - 1)).
  assert (HH : 0 < H) by (apply Z.pow_pos_nonneg; lia).
  assert (E2 : 2 ^ n = H * 2).
  { unfold H. replace n with (Z.succ (n - 1)) at 1 by lia.
    rewrite Z.pow_succ_r by lia. lia. }
  rewrite E2. rewrite <- Z.div_div by lia. rewrite Z.rem_mul_r by lia.
  pose proof (Z.div_mod P H ltac:(lia)) as EP.
  pose proof (Z.mod_pos_bound P H HH) as Hr.
  pose proof (Z.div_mod (P / H) 2 ltac:(lia)) as Ea.
  rewrite Zmod_odd in *.
  set (a := P / H) in *. set (m1 := a / 2) in *. set (r := P mod H) in *.
  assert (EP' : P = 2 * (H * m1) + H * (if Z.odd a then 1 else 0) + r).
  { rewrite EP at 1. destruct (Z.odd a); nia. }
  clearbody a m1 r. 
  destruct (Z.odd a); destruct (Z.eqb_spec r 0) as [Er|Er];
    cbn [round_nearest_even loc_of_shr_record shr_m negb];
    try destruct (Z.even m1); nia.
Qed.

Lemma fexp_normal (e : Z) : -1021 <= e -> fexp 53 1024 e = e - 53.
Proof. intros H. unfold fexp, emin. lia. Qed.

Lemma log2_digits (P D : Z) : 2 ^ (D - 1) <= P < 2 ^ D -> 1 <= D -> Z.log2 P + 1 = D.
Proof.
  intros HP HD. rewrite (Z.log2_unique P (D - 1)); [lia|lia|].
  replace (Z.succ (D - 1)) with D by lia. exact HP.
Qed.

Lemma digits_bounds (P : Z) : 0 < P -> 2 ^ Z.log2 P <= P < 2 ^ (Z.log2 P + 1).
Proof. intros HP. apply Z.log2_spec. exact HP. Qed.

(** A 53-bit mantissa with an exponent in range is already rounded. *)
Lemma shr_fexp_53 (m e : Z) :
  2 ^ 52 <= m < 2 ^ 53 -> -1074 <= e ->
  shr_fexp 53 1024 m e loc_Exact = (Build_shr_record m false false, e).
Proof.
  intros Hm He. unfold shr_fexp.
  assert (Hd : Zdigits2 m = 53).
  { destruct m as [|p|p]; try lia. unfold Zdigits2. rewrite Zdigits2_log2.
    apply log2_digits; lia. }
  rewrite Hd, fexp_normal by lia.
  replace (53 + e - 53 - e) with 0 by lia. reflexivity.
Qed.

Lemma binary_round_aux_53 (sx : bool) (p : positive) (e : Z) :
  2 ^ 52 <= Z.pos p < 2 ^ 53 -> -1074 <= e <= 971 ->
  binary_round_aux 53 1024 sx (Z.pos p) e loc_Exact = S754_finite sx p e.
Proof.
  intros Hp He. unfold binary_round_aux.
  rewrite shr_fexp_53 by lia.
  cbn [shr_m loc_of_shr_record round_nearest_even].
  rewrite shr_fexp_53 by lia. cbn [shr_m].
  destruct (Z.leb_spec e (1024 - 53)); [reflexivity | lia].
Qed.

Lemma shr_fexp_shift (P e sh : Z) :
  0 < P -> sh = Z.log2 P + 1 - 53 -> 1 <= sh -> -1074 <= e + sh ->
  shr_fexp 53 1024 P e loc_Exact =
  (Build_shr_record (P / 2 ^ sh) (Z.odd (P / 2 ^ (sh - 1)))
     (negb (P mod 2 ^ (sh - 1) =? 0)), e + sh).
Proof.
  intros HP Hsh H1 He. unfold shr_fexp.
  assert (Hd : Zdigits2 P = Z.log2 P + 1).
  { destruct P as [|p|p]; try lia. unfold Zdigits2. apply Zdigits2_log2. }
  rewrite Hd, fexp_normal by lia.
  replace (Z.log2 P + 1 + e - 53 - e) with sh by lia.
  destruct sh as [|shp|shp]; try lia.
  unfold shr. cbn [shr_record_of_loc]. rewrite iter_pos_nat.
  destruct (Pos2Nat.is_succ shp) as [n Hn]. rewrite Hn.
  rewrite shr_iter_spec by lia.
  assert (E1 : Z.of_nat (S n) = Z.pos shp) by (rewrite <- Hn; apply positive_nat_Z).
  assert (E2 : Z.of_nat n = Z.pos shp - 1) by lia.
  rewrite E1, E2. reflexivity.
Qed.

Lemma binary_round_aux_shift (P e sh : Z) :
  0 < P -> sh = Z.log2 P + 1 - 53 -> 1 <= sh ->
  -1074 <= e + sh -> e + sh + 1 <= 971 ->
  2 ^ 52 <= b64.rne_shift P sh <= 2 ^ 53 /\
  binary_round_aux 53 1024 false P e loc_Exact =
    if b64.rne_shift P sh <? 2 ^ 53
    then S754_finite false (Z.to_pos (b64.rne_shift P sh)) (e + sh)
    else S754_finite false (Z.to_pos (2 ^ 52)) (e + sh + 1).
Proof.
  intros HP Hsh H1 Hlo Hhi.
  pose proof (digits_bounds P HP) as [Hd1 Hd2].
  assert (Hm1 : 2 ^ 52 <= P / 2 ^ sh < 2 ^ 53).
  { assert (Hs : 0 < 2 ^ sh) by (apply Z.pow_pos_nonneg; lia).
    split.
    - apply Z.div_le_lower_bound; [lia|].
      rewrite <- Z.pow_add_r by lia. replace (sh + 52) with (Z.log2 P) by lia. exact Hd1.
    - apply Z.div_lt_upper_bound; [lia|].
      rewrite <- Z.pow_add_r by lia. replace (sh + 53) with (Z.log2 P + 1) by lia. exact Hd2. }
  destruct (rne_shift_bounds P sh ltac:(lia) H1) as (Hb & _ & _).
  split; [lia|].
  unfold binary_round_aux. rewrite (shr_fexp_shift P e sh) by assumption.
  cbn [shr_m]. fold (b64.rne_shift P sh).
  set (m2 := b64.rne_shift P sh) in *.
  destruct (Z.ltb_spec m2 (2 ^ 53)) as [Hlt|Hge].
  - rewrite shr_fexp_53 by lia. cbn [shr_m].
    destruct m2 as [|q|q] eqn:Em; try lia.
    destruct (Z.leb_spec (e + sh) (1024 - 53)); [reflexivity | lia].
  - assert (Em : m2 = 2 ^ 53) by lia. rewrite Em.
    rewrite (shr_fexp_shift (2 ^ 53) (e + sh) 1); try reflexivity; try lia.
    cbn [shr_m]. change (2 ^ 53 / 2 ^ 1) with (Z.pos (Z.to_pos (2 ^ 52))).
    cbv iota beta.
    destruct (Z.leb_spec (e + sh + 1) (1024 - 53)); [reflexivity | lia].
Qed.

Lemma pos_iter_xO (p d : positive) : Z.pos (Pos.iter xO p d) = Z.pos p * 2 ^ Z.pos d.
Proof.
  induction d as [|d IH] using Pos.peano_ind.
  - cbn [Pos.iter]. rewrite Pos2Z.inj_xO. lia.
  - rewrite Pos.iter_succ, Pos2Z.inj_xO, IH, Pos2Z.inj_succ, Z.pow_succ_r by lia. lia.
Qed.

(** The conversion of an integer below [2^53] is exact: the mantissa is the
    integer shifted left to 53 bits. *)
Lemma of_uint64_exact (n : Z) :
  0 < n < 2 ^ 53 ->
  2 ^ 52 <= n * 2 ^ (52 - Z.log2 n) < 2 ^ 53 /\
  b64.of_uint64 n =
    S754_finite false (Z.to_pos (n * 2 ^ (52 - Z.log2 n))) (Z.log2 n - 52).
Proof.
  intros Hn. destruct n as [|p|p]; try lia.
  pose proof (digits_bounds (Z.pos p) ltac:(lia)) as [Hd1 Hd2].
  assert (Hl : 0 <= Z.log2 (Z.pos p) <= 52).
  { split; [apply Z.log2_nonneg|].
    apply Z.lt_succ_r. apply (Z.pow_lt_mono_r_iff 2); lia. }
  assert (Hm : 2 ^ 52 <= Z.pos p * 2 ^ (52 - Z.log2 (Z.pos p)) < 2 ^ 53).
  { replace (2 ^ 52) with (2 ^ Z.log2 (Z.pos p) * 2 ^ (52 - Z.log2 (Z.pos p))).
    2:{ rewrite <- Z.pow_add_r by lia. f_equal. lia. }
    replace (2 ^ 53) with (2 ^ (Z.log2 (Z.pos p) + 1) * 2 ^ (52 - Z.log2 (Z.pos p))).
    2:{ rewrite <- Z.pow_add_r by lia. f_equal. lia. }
    assert (0 < 2 ^ (52 - Z.log2 (Z.pos p))) by (apply Z.pow_pos_nonneg; lia).
    split; [apply Z.mul_le_mono_nonneg_r | apply Z.mul_lt_mono_pos_r]; lia. }
  split; [exact Hm|].
  unfold b64.of_uint64, binary_normalize, binary_round.
  rewrite Zdigits2_log2, fexp_normal by lia.
  unfold shl_align.
  destruct (Z.log2 (Z.pos p) + 1 + 0 - 53 - 0) as [|d|d] eqn:Ed; try lia.
  - assert (El : Z.log2 (Z.pos p) = 52) by lia.
    rewrite El in *. change (52 - 52) with 0 in *. rewrite Z.pow_0_r, Z.mul_1_r in *.
    rewrite binary_round_aux_53 by lia. reflexivity.
  - assert (El : 52 - Z.log2 (Z.pos p) = Z.pos d) by lia.
    rewrite El in *. rewrite <- pos_iter_xO in *.
    rewrite binary_round_aux_53 by lia.
    rewrite Pos2Z.id. f_equal. lia.
Qed.

Lemma percentile_index (num den t M n : Z) :
  0 < den <= 1024 -> 0 <= num < den -> 0 <= t -> 4 * t <= den ->
  2 ^ 52 <= M < 2 ^ 53 -> den * M = num * 2 ^ 53 - t ->
  0 < n < 2 ^ 43 ->
  b64.to_size_t (b64.mul (b64.of_uint64 n) (S754_finite false (Z.to_pos M) (-53)))
  = num * n / den.
Proof.
  intros Hden Hnum Ht H4t HM EM Hn.
  destruct (of_uint64_exact n ltac:(lia)) as [Hmx Hof]. rewrite Hof.
  set (l := Z.log2 n) in *.
  assert (Hl : 0 <= l <= 42).
  { split; [apply Z.log2_nonneg|].
    apply Z.lt_succ_r. apply (Z.pow_lt_mono_r_iff 2); [lia|lia|].
    pose proof (digits_bounds n ltac:(lia)) as [Hd1 _]. fold l in Hd1. lia. }
  set (A := 2 ^ (52 - l)) in *.
  assert (HA : 2 ^ 10 <= A) by (apply Z.pow_le_mono_r; lia).
  unfold b64.mul. cbn [SFmul xorb].
  assert (EP : Z.pos (Z.to_pos (n * A) * Z.to_pos M) = n * A * M).
  { rewrite Pos2Z.inj_mul, !Z2Pos.id by lia. reflexivity. }
  rewrite EP. set (P := n * A * M) in *.
  assert (HP : 2 ^ 104 <= P < 2 ^ 106).
  { change (2 ^ 104) with (2 ^ 52 * 2 ^ 52). change (2 ^ 106) with (2 ^ 53 * 2 ^ 53).
    unfold P. split; [apply Z.mul_le_mono_nonneg | apply Z.mul_lt_mono_nonneg]; lia. }
  set (sh := Z.log2 P + 1 - 53).
  assert (Hsh : sh = 52 \/ sh = 53).
  { unfold sh. destruct (Z.lt_ge_cases P (2 ^ 105)).
    - left. rewrite (Z.log2_unique P 104); [reflexivity|lia|].
      change (Z.succ 104) with 105. lia.
    - right. rewrite (Z.log2_unique P 105); [reflexivity|lia|].
      change (Z.succ 105) with 106. lia. }
  destruct (binary_round_aux_shift P (l - 52 + -53) sh) as [Hm2 ->];
    try reflexivity; try lia.
  destruct (rne_shift_bounds P sh ltac:(lia) ltac:(lia)) as (_ & Hb & _).
  set (m2 := b64.rne_shift P sh) in *.
  set (g := 105 - l - sh).
  assert (Hg : 10 <= g <= 53) by (unfold g; lia).
  set (G := 2 ^ g). set (S := 2 ^ sh) in *.
  assert (HG : 2 ^ 10 <= G) by (apply Z.pow_le_mono_r; lia).
  assert (HS : 2 ^ 52 <= S) by (apply Z.pow_le_mono_r; lia).
  assert (EW : G * S = A * 2 ^ 53).
  { unfold G, S, A. rewrite <- !Z.pow_add_r by lia. f_equal. unfold g. lia. }
  (* the value of the product as an integer quotient *)
  assert (Ev : b64.to_size_t
                 (if m2 <? 2 ^ 53
                  then S754_finite false (Z.to_pos m2) (l - 52 + -53 + sh)
                  else S754_finite false (Z.to_pos (2 ^ 52)) (l - 52 + -53 + sh + 1))
               = m2 / G).
  { destruct (Z.ltb_spec m2 (2 ^ 53)) as [Hlt|Hge]; cbn [b64.to_size_t].
    - destruct (Z.leb_spec 0 (l - 52 + -53 + sh)); [lia|].
      rewrite Z2Pos.id by lia. unfold G, g. do 2 f_equal. lia.
    - destruct (Z.leb_spec 0 (l - 52 + -53 + sh + 1)); [lia|].
      assert (Em : m2 = 2 ^ 53) by lia. rewrite Em.
      replace (- (l - 52 + -53 + sh + 1)) with (g - 1) by (unfold g; lia).
      change (Z.pos (Z.to_pos (2 ^ 52))) with (2 ^ 52).
      unfold G. rewrite <- !Z.pow_sub_r by lia.
      f_equal. lia. }
  rewrite Ev. clear Ev.
  (* the bounds that make the quotient the floor of num*n/den *)
  pose proof (Z.div_mod (num * n) den ltac:(lia)) as Eq.
  pose proof (Z.mod_pos_bound (num * n) den ltac:(lia)) as Hrho.
  set (q := num * n / den) in *. set (rho := (num * n) mod den) in *.
  assert (HnA : n * A < 2 ^ 53) by lia.
  assert (EdP : den * P = (den * q + rho) * (G * S) - t * (n * A)).
  { rewrite <- Eq, EW. unfold P. 
    transitivity (n * A * (den * M)); [ring|]. rewrite EM. ring. }
  assert (Hq : 0 <= q) by (apply Z.div_pos; [apply Z.mul_nonneg_nonneg|]; lia).
  assert (HS0 : 0 < S) by lia.
  symmetry. apply (Z.div_unique m2 G q (m2 - G * q)); [|ring].
  left. split.
  - (* q * G <= m2 *)
    apply Z.le_0_sub. apply Z.nlt_ge. intros Hc.
    assert (F1 : (m2 + 1) * S <= (q * G) * S)
      by (apply Z.mul_le_mono_nonneg_r; lia).
    assert (F2 : den * (2 * P) <= den * (2 * (q * G * S) - S))
      by (apply Z.mul_le_mono_nonneg_l; lia).
    assert (F3 : 0 <= rho * (G * S))
      by (apply Z.mul_nonneg_nonneg; [lia | apply Z.mul_nonneg_nonneg; lia]).
    assert (F4 : t * (n * A + 1) <= t * 2 ^ 53)
      by (apply Z.mul_le_mono_nonneg_l; lia).
    assert (F5 : den * 2 ^ 52 <= den * S)
      by (apply Z.mul_le_mono_nonneg_l; lia).
    lia.
  - (* m2 < (q + 1) * G *)
    apply Z.nle_gt. intros Hc.
    assert (F1 : ((q + 1) * G) * S <= m2 * S)
      by (apply Z.mul_le_mono_nonneg_r; lia).
    assert (F2 : den * (2 * ((q + 1) * G * S) - S) <= den * (2 * P))
      by (apply Z.mul_le_mono_nonneg_l; lia).
    assert (F3 : rho * (G * S) <= (den - 1) * (G * S))
      by (apply Z.mul_le_mono_nonneg_r; [apply Z.mul_nonneg_nonneg|]; lia).
    assert (F4 : 0 <= t * (n * A))
      by (apply Z.mul_nonneg_nonneg; lia).
    assert (F5 : den * S <= 1024 * S)
      by (apply Z.mul_le_mono_nonneg_r; lia).
    assert (F6 : 2 ^ 10 * S <= G * S)
      by (apply Z.mul_le_mono_nonneg_r; lia).
    lia.
Qed.


Lemma shl_align_le (mx : positive) (ex ez : Z) :
  ez <= ex ->
  Z.pos (fst (shl_align mx ex ez)) = Z.pos mx * 2 ^ (ex - ez).
Proof.
  intros H. unfold shl_align.
  destruct (ez - ex) as [|d|d] eqn:E; try lia; cbn [fst].
  - replace (ex - ez) with 0 by lia. lia.
  - rewrite pos_iter_xO. do 2 f_equal. lia.
Qed.

Lemma log2_mul_pow2 (a k : Z) : 0 < a -> 0 <= k -> Z.log2 (a * 2 ^ k) = Z.log2 a + k.
Proof. intros Ha Hk. rewrite Z.log2_mul_pow2 by lia. lia. Qed.

(** Adding two integers whose sum is below [2^53] is exact. *)
Lemma add_exact (a b : Z) :
  0 <= a -> 0 <= b -> a + b < 2 ^ 53 ->
  b64.add (b64.of_uint64 a) (b64.of_uint64 b) = b64.of_uint64 (a + b).
Proof.
  intros Ha Hb Hab.
  destruct (Z.eq_dec b 0) as [->|Hb0].
  { rewrite Z.add_0_r. change (b64.of_uint64 0) with (S754_zero false).
    destruct (Z.eq_dec a 0) as [->|Ha0]; [reflexivity|].
    destruct (of_uint64_exact a ltac:(lia)) as [_ ->]. reflexivity. }
  destruct (Z.eq_dec a 0) as [->|Ha0].
  { rewrite Z.add_0_l. change (b64.of_uint64 0) with (S754_zero false).
    destruct (of_uint64_exact b ltac:(lia)) as [_ ->]. reflexivity. }
  destruct (of_uint64_exact a ltac:(lia)) as [Hma Ea].
  destruct (of_uint64_exact b ltac:(lia)) as [Hmb Eb].
  destruct (of_uint64_exact (a + b) ltac:(lia)) as [Hmab Eab].
  rewrite Ea, Eb, Eab. clear Ea Eb Eab.
  set (la := Z.log2 a) in *. set (lb := Z.log2 b) in *.
  set (lab := Z.log2 (a + b)) in *.
  assert (Hla : 0 <= la <= lab).
  { split; [apply Z.log2_nonneg | apply Z.log2_le_mono; lia]. }
  assert (Hlb : 0 <= lb <= lab).
  { split; [apply Z.log2_nonneg | apply Z.log2_le_mono; lia]. }
  assert (Hlab : lab <= 52).
  { apply Z.lt_succ_r. apply (Z.pow_lt_mono_r_iff 2); [lia|lia|].
    pose proof (digits_bounds (a + b) ltac:(lia)) as [Hd1 _]. fold lab in Hd1. lia. }
  unfold b64.add. cbn [SFadd cond_Zopp].
  set (ez := Z.min (la - 52) (lb - 52)).
  assert (Hez : ez = Z.min la lb - 52) by (unfold ez; lia).
  rewrite !shl_align_le by lia.
  rewrite !Z2Pos.id by lia.
  assert (Esum : a * 2 ^ (52 - la) * 2 ^ (la - 52 - ez) + b * 2 ^ (52 - lb) * 2 ^ (lb - 52 - ez)
                 = (a + b) * 2 ^ (- ez)).
  { rewrite <- !Z.mul_assoc, <- !Z.pow_add_r by lia.
    replace (52 - la + (la - 52 - ez)) with (- ez) by lia.
    replace (52 - lb + (lb - 52 - ez)) with (- ez) by lia. ring. }
  rewrite Esum. clear Esum.
  assert (Hpz : 0 < 2 ^ (- ez)) by (apply Z.pow_pos_nonneg; lia).
  assert (Hm : 0 < (a + b) * 2 ^ (- ez)) by (apply Z.mul_pos_pos; lia).
  assert (Hlog : Z.log2 ((a + b) * 2 ^ (- ez)) = lab - ez).
  { rewrite log2_mul_pow2 by lia. unfold lab. lia. }
  destruct ((a + b) * 2 ^ (- ez)) as [|m|m] eqn:Em; try lia.
  unfold binary_normalize, binary_round.
  rewrite Zdigits2_log2, Hlog, fexp_normal by lia.
  unfold shl_align.
  destruct (lab - ez + 1 + ez - 53 - ez) as [|d|d] eqn:Ed; try lia.
  - (* already 53 bits *)
    assert (El : lab - 52 = ez) by lia.
    assert (Emm : Z.pos m = (a + b) * 2 ^ (52 - lab)).
    { rewrite <- Em. do 2 f_equal. lia. }
    rewrite binary_round_aux_53 by lia.
    rewrite <- El. f_equal. rewrite <- Emm. reflexivity.
  - (* exact right shift *)
    assert (Esh : Z.pos d = lab - 52 - ez) by lia.
    destruct (binary_round_aux_shift (Z.pos m) ez (Z.pos d)) as [Hr ->];
      try lia.
    destruct (rne_shift_bounds (Z.pos m) (Z.pos d) ltac:(lia) ltac:(lia))
      as (_ & _ & Hex).
    assert (Esplit : Z.pos m = (a + b) * 2 ^ (52 - lab) * 2 ^ Z.pos d).
    { rewrite <- Em, <- Z.mul_assoc, <- Z.pow_add_r by lia.
      do 2 f_equal. lia. }
    assert (Hpd : 0 < 2 ^ Z.pos d) by (apply Z.pow_pos_nonneg; lia).
    rewrite Hex.
    2:{ rewrite Esplit. apply Z.mod_mul. lia. }
    rewrite Esplit, Z.div_mul by lia.
    destruct (Z.ltb_spec ((a + b) * 2 ^ (52 - lab)) (2 ^ 53)); [|lia].
    f_equal. lia.
Qed.

(** ** The latency analysis *)

Example d_0_99_nearest :
  b64.div (b64.of_uint64 99) (b64.of_uint64 100) = b64.d_0_99 /\
  b64.div (b64.of_uint64 999) (b64.of_uint64 1000) = b64.d_0_999.
Proof. split; reflexivity. Qed.

Lemma fold_left_min (l : list Z) (x : Z) :
  (fold_left Z.min l x = x \/ fold_left Z.min l x ∈ l) /\
  fold_left Z.min l x <= x /\
  (forall y, y ∈ l -> fold_left Z.min l x <= y).
Proof.
  revert x. induction l as [|a l IH]; intros x; simpl.
  - split; [left; reflexivity|]. split; [lia|]. intros y Hy. inversion Hy.
  - destruct (IH (Z.min x a)) as (Hin & Hle & Hall). split; [|split].
    + destruct Hin as [E|Hin].
      * rewrite E. destruct (Z.min_spec x a) as [[_ ->]|[_ ->]];
          [left; reflexivity | right; left].
      * right. right. exact Hin.
    + lia.
    + intros y Hy. apply elem_of_cons in Hy as [->|Hy]; [lia|].
      apply Hall. exact Hy.
Qed.

Lemma fold_left_max (l : list Z) (x : Z) :
  (fold_left Z.max l x = x \/ fold_left Z.max l x ∈ l) /\
  x <= fold_left Z.max l x /\
  (forall y, y ∈ l -> y <= fold_left Z.max l x).
Proof.
  revert x. induction l as [|a l IH]; intros x; simpl.
  - split; [left; reflexivity|]. split; [lia|]. intros y Hy. inversion Hy.
  - destruct (IH (Z.max x a)) as (Hin & Hle & Hall). split; [|split].
    + destruct Hin as [E|Hin].
      * rewrite E. destruct (Z.max_spec x a) as [[_ ->]|[_ ->]];
          [right; left | left; reflexivity].
      * right. right. exact Hin.
    + lia.
    + intros y Hy. apply elem_of_cons in Hy as [->|Hy]; [lia|].
      apply Hall. exact Hy.
Qed.

(** The minimum of a non-empty range is one of its elements and is below
    all of them. *)
Lemma min_element_spec (l : list Z) :
  l <> [] ->
  LatencyTracker.min_element l ∈ l /\
  (forall y, y ∈ l -> LatencyTracker.min_element l <= y).
Proof.
  destruct l as [|x l]; [congruence|]. intros _. simpl.
  destruct (fold_left_min l x) as (Hin & Hle & Hall). split.
  - destruct Hin as [->|Hin]; [left | right; exact Hin].
  - intros y Hy. apply elem_of_cons in Hy as [->|Hy]; [exact Hle | apply Hall; exact Hy].
Qed.

Lemma max_element_spec (l : list Z) :
  l <> [] ->
  LatencyTracker.max_element l ∈ l /\
  (forall y, y ∈ l -> y <= LatencyTracker.max_element l).
Proof.
  destruct l as [|x l]; [congruence|]. intros _. simpl.
  destruct (fold_left_max l x) as (Hin & Hle & Hall). split.
  - destruct Hin as [->|Hin]; [left | right; exact Hin].
  - intros y Hy. apply elem_of_cons in Hy as [->|Hy]; [exact Hle | apply Hall; exact Hy].
Qed.

Lemma sort_sorted (l : list Z) : Sorted Z.le (LatencyTracker.sort l).
Proof. apply Sorted_merge_sort. intros x y. lia. Qed.

Lemma sort_permutation (l : list Z) : LatencyTracker.sort l ≡ₚ l.
Proof. apply merge_sort_Permutation. Qed.

Lemma total_nonneg (l : list Z) :
  (forall x, x ∈ l -> 0 <= x) -> 0 <= LatencyTracker.total l.
Proof.
  induction l as [|a l IH]; intros H; simpl; [lia|].
  assert (0 <= a) by (apply H; left).
  assert (0 <= LatencyTracker.total l) by (apply IH; intros x Hx; apply H; right; exact Hx).
  unfold LatencyTracker.total in *. lia.
Qed.

(** While the running sum stays below [2^53] the accumulation in [double]
    makes no rounding error. *)
Lemma accumulate_exact (l : list Z) (s : Z) :
  0 <= s -> (forall x, x ∈ l -> 0 <= x) -> s + LatencyTracker.total l < 2 ^ 53 ->
  LatencyTracker.accumulate l (b64.of_uint64 s) =
  b64.of_uint64 (s + LatencyTracker.total l).
Proof.
  revert s. induction l as [|a l IH]; intros s Hs Hl Hsum.
  - simpl. rewrite Z.add_0_r. reflexivity.
  - assert (Ha : 0 <= a) by (apply Hl; left).
    assert (Hl' : forall x, x ∈ l -> 0 <= x) by (intros x Hx; apply Hl; right; exact Hx).
    pose proof (total_nonneg l Hl') as Ht.
    change (LatencyTracker.total (a :: l)) with (a + LatencyTracker.total l) in *.
    change (LatencyTracker.accumulate (a :: l) (b64.of_uint64 s))
      with (LatencyTracker.accumulate l (b64.add (b64.of_uint64 s) (b64.of_uint64 a))).
    rewrite add_exact by lia.
    rewrite IH; [f_equal; lia | lia | exact Hl' | lia].
Qed.

(** The rank used for a percentile is the floor of the exact product. *)
Lemma percentile_rank (sorted : list Z) :
  let n := Z.of_nat (length sorted) in
  0 < n < 2 ^ 43 ->
  LatencyTracker.percentile sorted b64.d_0_99 = nth (Z.to_nat (99 * n / 100)) sorted 0 /\
  LatencyTracker.percentile sorted b64.d_0_999 = nth (Z.to_nat (999 * n / 1000)) sorted 0.
Proof.
  intros n Hn. unfold LatencyTracker.percentile. fold n. split.
  - rewrite <- (percentile_index 99 100 8 8917127262193582 n); try lia; reflexivity.
  - rewrite <- (percentile_index 999 1000 8 8998192055486251 n); try lia; reflexivity.
Qed.

Lemma nth_in_range (l : list Z) (i : nat) :
  (i < length l)%nat -> l !! i = Some (nth i l 0).
Proof.
  intros H. destruct (lookup_lt_is_Some_2 l i H) as [x Hx].
  rewrite Hx. f_equal. symmetry. apply nth_lookup_Some. exact Hx.
Qed.

Lemma analyzeLatencies_in_bounds (timestampArr : list Z) (count : Z) :
  0 < count <= Z.of_nat (length timestampArr) ->
  LatencyTracker.analyzeLatencies timestampArr count =
  let latencies := take (Z.to_nat count) timestampArr in
  let size := Z.of_nat (length latencies) in
  let sorted := LatencyTracker.sort latencies in
  LatencyTracker.stats
    (LatencyTracker.mkReport size
       (LatencyTracker.min_element latencies)
       (nth (Z.to_nat (size / 2)) sorted 0)
       (b64.div (LatencyTracker.accumulate latencies b64.zero) (b64.of_uint64 size))
       (LatencyTracker.percentile sorted b64.d_0_99)
       (LatencyTracker.percentile sorted b64.d_0_999)
       (LatencyTracker.max_element latencies)).
Proof.
  intros Hc. unfold LatencyTracker.analyzeLatencies.
  destruct (Z.eqb_spec count 0) as [E|_]; [lia|].
  destruct (Z.ltb_spec (Z.of_nat (length timestampArr)) count) as [E|_]; [lia|].
  reflexivity.
Qed.

(** C8 (the analysis).  With [count = 0] the report is "no data", whatever
    the array holds.  With [0 < count] no larger than the array (of at most
    1,000,000 slots) the report is made from the first [count] samples: the
    count; their minimum and maximum; the values found in the ascending
    rearrangement of them at the ranks [floor(count / 2)],
    [floor(0.99 * count)] and [floor(0.999 * count)]; and as the average the
    binary64 sum of the samples, added one at a time from [0.0], divided by
    the count.  That average is the binary64 quotient of the exact sum by the
    count when the samples are non-negative and the exact sum is below
    [2^53].  On the samples 1, 2, 3, 4, 5 the report is count 5, min 1,
    median 3, average 3.0, both percentiles 5, max 5. *)
Theorem analyzeLatencies_report (timestampArr : list Z) (count : Z) :
  LatencyTracker.analyzeLatencies timestampArr 0 = LatencyTracker.no_data /\
  (forall rest : list Z,
     LatencyTracker.analyzeLatencies ([1; 2; 3; 4; 5] ++ rest) 5 =
     LatencyTracker.stats
       (LatencyTracker.mkReport 5 1 3 (b64.of_uint64 3) 5 5 5)) /\
  (0 < count <= Z.of_nat (length timestampArr) ->
   Z.of_nat (length timestampArr) <= MAX_SAMPLES ->
   let prefix := take (Z.to_nat count) timestampArr in
   exists (r : LatencyTracker.Report) (sorted : list Z),
     LatencyTracker.analyzeLatencies timestampArr count = LatencyTracker.stats r /\
     Sorted Z.le sorted /\ sorted ≡ₚ prefix /\
     LatencyTracker.r_count r = count /\
     (LatencyTracker.r_min r ∈ prefix /\
      forall x, x ∈ prefix -> LatencyTracker.r_min r <= x) /\
     (LatencyTracker.r_max r ∈ prefix /\
      forall x, x ∈ prefix -> x <= LatencyTracker.r_max r) /\
     sorted !! Z.to_nat (count / 2) = Some (LatencyTracker.r_median r) /\
     sorted !! Z.to_nat (99 * count / 100) = Some (LatencyTracker.r_p99 r) /\
     sorted !! Z.to_nat (999 * count / 1000) = Some (LatencyTracker.r_p999 r) /\
     LatencyTracker.r_avg r =
       b64.div (LatencyTracker.accumulate prefix b64.zero) (b64.of_uint64 count) /\
     ((forall x, x ∈ prefix -> 0 <= x) ->
      LatencyTracker.total prefix < 2 ^ 53 ->
      LatencyTracker.r_avg r =
        b64.div (b64.of_uint64 (LatencyTracker.total prefix)) (b64.of_uint64 count))).
Proof.
  split; [reflexivity|]. split.
  { intros rest. rewrite analyzeLatencies_in_bounds.
    - vm_compute. reflexivity.
    - rewrite length_app. simpl. lia. }
  intros Hcount Hmax prefix.
  assert (Hlen : Z.of_nat (length prefix) = count).
  { unfold prefix. rewrite length_take. lia. }
  assert (Hne : prefix <> []).
  { intros E. rewrite E in Hlen. simpl in Hlen. lia. }
  pose proof (sort_permutation prefix) as Hperm.
  assert (Hslen : Z.of_nat (length (LatencyTracker.sort prefix)) = count).
  { rewrite (Permutation_length Hperm). exact Hlen. }
  unfold MAX_SAMPLES in Hmax.
  destruct (percentile_rank (LatencyTracker.sort prefix)) as [H99 H999];
    [rewrite Hslen; lia|].
  rewrite Hslen in H99, H999.
  assert (Hq1 : 0 <= count / 2 < count).
  { split; [apply Z.div_pos; lia | apply Z.div_lt_upper_bound; lia]. }
  assert (Hq2 : 0 <= 99 * count / 100 < count).
  { split; [apply Z.div_pos; lia | apply Z.div_lt_upper_bound; lia]. }
  assert (Hq3 : 0 <= 999 * count / 1000 < count).
  { split; [apply Z.div_pos; lia | apply Z.div_lt_upper_bound; lia]. }
  eexists. exists (LatencyTracker.sort prefix).
  split; [apply analyzeLatencies_in_bounds; lia|].
  cbv zeta.
  cbn [LatencyTracker.r_count LatencyTracker.r_min LatencyTracker.r_max
       LatencyTracker.r_median LatencyTracker.r_p99 LatencyTracker.r_p999
       LatencyTracker.r_avg].
  fold prefix. rewrite Hlen.
  split; [apply sort_sorted|]. split; [exact Hperm|]. split; [reflexivity|].
  split; [apply min_element_spec; exact Hne|].
  split; [apply max_element_spec; exact Hne|].
  split; [apply nth_in_range; lia|].
  split; [rewrite H99; apply nth_in_range; lia|].
  split; [rewrite H999; apply nth_in_range; lia|].
  split; [reflexivity|].
  intros Hpos Hsum.
  change b64.zero with (b64.of_uint64 0).
  rewrite accumulate_exact; [reflexivity | lia | exact Hpos | lia].
Qed.

Lemma analyzeLatencies_report_witness :
  let prefix := take (Z.to_nat 3) [40; 10; 30; 20] in
  exists (r : LatencyTracker.Report) (sorted : list Z),
    LatencyTracker.analyzeLatencies [40; 10; 30; 20] 3 = LatencyTracker.stats r /\
    Sorted Z.le sorted /\ sorted ≡ₚ prefix /\
    LatencyTracker.r_count r = 3 /\
    (LatencyTracker.r_min r ∈ prefix /\
     forall x, x ∈ prefix -> LatencyTracker.r_min r <= x) /\
    (LatencyTracker.r_max r ∈ prefix /\
     forall x, x ∈ prefix -> x <= LatencyTracker.r_max r) /\
    sorted !! Z.to_nat (3 / 2) = Some (LatencyTracker.r_median r) /\
    sorted !! Z.to_nat (99 * 3 / 100) = Some (LatencyTracker.r_p99 r) /\
    sorted !! Z.to_nat (999 * 3 / 1000) = Some (LatencyTracker.r_p999 r) /\
    LatencyTracker.r_avg r =
      b64.div (LatencyTracker.accumulate prefix b64.zero) (b64.of_uint64 3) /\
    ((forall x, x ∈ prefix -> 0 <= x) ->
     LatencyTracker.total prefix < 2 ^ 53 ->
     LatencyTracker.r_avg r =
       b64.div (b64.of_uint64 (LatencyTracker.total prefix)) (b64.of_uint64 3)).
Proof.
  apply (proj2 (proj2 (analyzeLatencies_report [40; 10; 30; 20] 3))).
  - simpl. lia.
  - unfold MAX_SAMPLES. simpl. lia.
Defined.

(** C8, as first worded (the arithmetic mean for every count), fails.  On
    the three samples [2^53], 1, 1 the exact sum is [2^53 + 2], but each
    addition of 1 to the binary64 accumulator [2^53] rounds back to [2^53]:
    the average reported is [2^53 / 3] rounded, 3002399751580330.5, where
    the mean [(2^53 + 2) / 3] rounds to 3002399751580331.5; three times the
    reported average falls short of the sum by 2.5. *)
Lemma analyzeLatencies_mean_counterexample :
  LatencyTracker.analyzeLatencies [2 ^ 53; 1; 1] 3 =
    LatencyTracker.stats
      (LatencyTracker.mkReport 3 1 1 (S754_finite false 6004799503160661 (-1))
         (2 ^ 53) (2 ^ 53) (2 ^ 53)) /\
  LatencyTracker.total [2 ^ 53; 1; 1] = 2 ^ 53 + 2 /\
  LatencyTracker.accumulate [2 ^ 53; 1; 1] b64.zero = b64.of_uint64 (2 ^ 53) /\
  b64.div (b64.of_uint64 (LatencyTracker.total [2 ^ 53; 1; 1])) (b64.of_uint64 3) =
    S754_finite false 6004799503160663 (-1) /\
  2 * LatencyTracker.total [2 ^ 53; 1; 1] - 3 * 6004799503160661 = 5.
Proof. repeat split; vm_compute; reflexivity. Qed.

Example analyzeLatencies_run :
  LatencyTracker.analyzeLatencies [40; 10; 30; 20] 3 =
  LatencyTracker.stats
    (LatencyTracker.mkReport 3 10 30
       (b64.div (b64.of_uint64 80) (b64.of_uint64 3)) 40 40 40).
Proof. vm_compute. reflexivity. Qed.

(** ** More on the codec *)

Lemma nth_le_split (n i : nat) (v : Z) (d : byte) :
  (i < n)%nat -> nth i (le_split n v) d = byte_of_Z (v / 256 ^ Z.of_nat i).
Proof.
  revert i v. induction n as [|n IH]; intros i v Hi; [lia|].
  destruct i as [|i]; cbn [le_split nth].
  - rewrite Z.pow_0_r, Z.div_1_r. unfold byte_of_Z. rewrite Z.mod_mod by lia. reflexivity.
  - rewrite IH by lia. f_equal. rewrite Z.div_div by (try apply Z.pow_pos_nonneg; lia).
    f_equal. rewrite Nat2Z.inj_succ, Z.pow_succ_r by lia. reflexivity.
Qed.

Lemma le_split_bswap (n : nat) (v : Z) :
  le_split n (bswap n v) = rev (le_split n v).
Proof.
  unfold bswap. rewrite <- (length_le_split n v) at 1.
  rewrite <- length_rev. apply le_split_combine.
Qed.

Lemma nth_be (n i : nat) (v : Z) (d : byte) :
  (i < n)%nat -> nth i (le_split n (bswap n v)) d = be_byte n i v.
Proof.
  intros Hi. rewrite le_split_bswap.
  rewrite rev_nth by (rewrite length_le_split; exact Hi).
  rewrite length_le_split, nth_le_split by lia.
  unfold be_byte. do 3 f_equal. lia.
Qed.

Lemma nth_app_here (a rest : list byte) (i : nat) (d : byte) :
  (i < length a)%nat -> nth i (a ++ rest) d = nth i a d.
Proof. intros H. apply app_nth1. exact H. Qed.

(** Wire layout.  Whatever the order holds (no validation is done), as long
    as its symbol array has its 8 bytes, [serialize] yields 38 bytes: the
    order id, the time stamp and the price pattern as 8 big-endian bytes
    each at offsets 0, 8 and 16, the quantity as 4 big-endian bytes at
    offset 24, the symbol bytes at 28 and the two tags at 36 and 37. *)
Theorem serialize_layout (o : Order) (i : nat) :
  length (symbol o) = 8%nat ->
  length (serialize o) = 38%nat /\
  ((i < 8)%nat ->
     nth i (serialize o) Byte.x00 = be_byte 8 i (order_id o) /\
     nth (8 + i) (serialize o) Byte.x00 = be_byte 8 i (timestamp_ns o) /\
     nth (16 + i) (serialize o) Byte.x00 = be_byte 8 i (price o)) /\
  ((i < 4)%nat -> nth (24 + i) (serialize o) Byte.x00 = be_byte 4 i (quantity o)) /\
  slice 28 8 (serialize o) = symbol o /\
  nth 36 (serialize o) Byte.x00 = side o /\
  nth 37 (serialize o) Byte.x00 = type o.
Proof.
  intros Hs.
  split; [apply length_WireOrder_to_bytes; exact Hs|].
  unfold serialize, WireOrder_to_bytes, hton64, htonl, doubleToUint64.
  cbn [w_order_id w_timestamp_ns w_price w_quantity w_symbol w_side w_type].
  rewrite (take_ge (symbol o)) by lia.
  split; [|split; [|split; [|split]]].
  - intros Hi. split; [|split].
    + rewrite nth_app_here by (rewrite length_le_split; lia). apply nth_be; lia.
    + rewrite nth_app_skip by (rewrite length_le_split; lia).
      rewrite nth_app_here by (rewrite !length_le_split; lia).
      rewrite length_le_split. replace (8 + i - 8)%nat with i by lia. apply nth_be; lia.
    + do 2 (rewrite nth_app_skip by (rewrite length_le_split; lia); rewrite length_le_split).
      rewrite nth_app_here by (rewrite !length_le_split; lia).
      replace (16 + i - 8 - 8)%nat with i by lia. apply nth_be; lia.
  - intros Hi.
    do 3 (rewrite nth_app_skip by (rewrite length_le_split; lia); rewrite length_le_split).
    rewrite nth_app_here by (rewrite !length_le_split; lia).
    replace (24 + i - 8 - 8 - 8)%nat with i by lia. apply nth_be; lia.
  - do 4 skip_field. apply slice_app_here. exact Hs.
  - do 4 skip_field. rewrite nth_app_skip by lia. rewrite Hs. reflexivity.
  - do 4 skip_field. rewrite nth_app_skip by lia. rewrite Hs. reflexivity.
Qed.

Lemma serialize_layout_witness :
  length (serialize sample_order) = 38%nat /\
  ((7 < 8)%nat ->
     nth 7 (serialize sample_order) Byte.x00 = be_byte 8 7 (order_id sample_order) /\
     nth (8 + 7) (serialize sample_order) Byte.x00 = be_byte 8 7 (timestamp_ns sample_order) /\
     nth (16 + 7) (serialize sample_order) Byte.x00 = be_byte 8 7 (price sample_order)) /\
  ((7 < 4)%nat ->
     nth (24 + 7) (serialize sample_order) Byte.x00 = be_byte 4 7 (quantity sample_order)) /\
  slice 28 8 (serialize sample_order) = symbol sample_order /\
  nth 36 (serialize sample_order) Byte.x00 = side sample_order /\
  nth 37 (serialize sample_order) Byte.x00 = type sample_order.
Proof.
  apply (serialize_layout sample_order 7). reflexivity.
Defined.

Lemma le_split_combine_len (n : nat) (l : list byte) :
  length l = n -> le_split n (le_combine l) = l.
Proof. intros <-. apply le_split_combine. Qed.

Lemma le_combine_slice_range (off len : nat) (data : list byte) :
  (off + len <= length data)%nat ->
  0 <= le_combine (slice off len data) < 2 ^ (8 * Z.of_nat len).
Proof.
  intros H. pose proof (le_combine_range (slice off len data)) as Hr.
  rewrite length_slice in Hr by exact H. exact Hr.
Qed.

(** The decoded fields fit their C types. *)
Lemma decode_fields_wf (data : list byte) :
  (38 <= length data)%nat -> Order_wf (decode_fields data).
Proof.
  intros Hl. unfold Order_wf, decode_fields, WireOrder_of_bytes,
    ntoh64, ntohl, uint64ToDouble.
  cbn [order_id timestamp_ns price quantity symbol
       w_order_id w_timestamp_ns w_price w_quantity w_symbol].
  repeat split; try apply bswap8_range; try apply bswap4_range.
  apply length_slice. lia.
Qed.

(** What [parse] returns, both ways.  A record comes back exactly when the
    buffer has its 38 bytes and the three checks pass; the record is then the
    decoded fields, so it always satisfies the three checks.  Otherwise the
    result is [std::nullopt] and the recorder is untouched. *)
Theorem parse_result (start end_ : Z) (data : list byte) (r : Recorder) :
  let o := decode_fields data in
  let valid :=
    (38 <= length data)%nat /\ alnum_to_nul (symbol o) /\
    double_gt_zero (price o) /\ 0 < quantity o in
  (valid ->
     parse start end_ data r = (Some o, recordLatency r ((end_ - start) mod 2 ^ 64))) /\
  (~ valid -> parse start end_ data r = (None, r)) /\
  (forall o', fst (parse start end_ data r) = Some o' ->
     o' = o /\ valid /\ Order_wf o').
Proof.
  intros o valid.
  assert (Hyes : valid ->
    parse start end_ data r = (Some o, recordLatency r ((end_ - start) mod 2 ^ 64))).
  { intros (Hl & Hs & Hp & Hq). apply parse_valid; assumption. }
  assert (Hno : ~ valid -> parse start end_ data r = (None, r)).
  { intros Hn. destruct (Nat.lt_ge_cases (length data) 38) as [Hl|Hl].
    - apply parse_short. exact Hl.
    - rewrite parse_long by exact Hl. cbv zeta. fold o.
      destruct (validateSymbol (symbol o)) eqn:Es; [|reflexivity].
      destruct (validatePrice (price o)) eqn:Ep; [|reflexivity].
      destruct (validateQuantity (quantity o)) eqn:Eq; [|reflexivity].
      exfalso. apply Hn. unfold valid. split; [exact Hl|].
      split; [apply validateSymbol_spec; [apply length_slice; lia | exact Es]|].
      split; [apply validatePrice_spec; exact Ep | apply validateQuantity_spec; exact Eq]. }
  split; [exact Hyes|]. split; [exact Hno|].
  intros o' Ho'.
  assert (Hv : valid).
  { destruct (Nat.lt_ge_cases (length data) 38) as [Hl|Hl].
    - rewrite parse_short in Ho' by exact Hl. discriminate Ho'.
    - rewrite parse_long in Ho' by exact Hl. cbv zeta in Ho'. fold o in Ho'.
      destruct (validateSymbol (symbol o)) eqn:Es; [|discriminate Ho'].
      destruct (validatePrice (price o)) eqn:Ep; [|discriminate Ho'].
      destruct (validateQuantity (quantity o)) eqn:Eq; [|discriminate Ho'].
      split; [exact Hl|].
      split; [apply validateSymbol_spec; [apply length_slice; lia | exact Es]|].
      split; [apply validatePrice_spec; exact Ep | apply validateQuantity_spec; exact Eq]. }
  rewrite (Hyes Hv) in Ho'. injection Ho' as <-.
  split; [reflexivity|]. split; [exact Hv|].
  apply decode_fields_wf. apply Hv.
Qed.

Lemma slices_38 (data : list byte) :
  (38 <= length data)%nat ->
  slice 0 8 data ++ slice 8 8 data ++ slice 16 8 data ++ slice 24 4 data ++
  slice 28 8 data ++ [nth 36 data Byte.x00; nth 37 data Byte.x00] = take 38 data.
Proof.
  intros Hl. unfold slice. rewrite drop_0.
  assert (Htail : [nth 36 data Byte.x00; nth 37 data Byte.x00] = take 2 (drop 36 data)).
  { destruct (drop 36 data) as [|a [|b l]] eqn:E.
    - apply (f_equal length) in E. rewrite length_drop in E. simpl in E. lia.
    - apply (f_equal length) in E. rewrite length_drop in E. simpl in E. lia.
    - rewrite <- (take_drop 36 data) at 1 2.
      rewrite !app_nth2 by (rewrite length_take; lia).
      rewrite length_take, E.
      replace (36 - 36 `min` length data)%nat with 0%nat by lia.
      replace (37 - 36 `min` length data)%nat with 1%nat by lia.
      reflexivity. }
  rewrite Htail, !app_assoc.
  do 5 (rewrite take_take_drop; cbn [Nat.add]). reflexivity.
Qed.

(** Re-encoding.  For any buffer of at least 38 bytes, valid or not,
    serializing the decoded fields gives back its first 38 bytes; so a
    record that [parse] returned serializes to the bytes it was read from. *)
Theorem serialize_decode_fields (start end_ : Z) (data : list byte) (r : Recorder) :
  (38 <= length data)%nat ->
  serialize (decode_fields data) = take 38 data /\
  (forall o, fst (parse start end_ data r) = Some o -> serialize o = take 38 data).
Proof.
  intros Hl.
  assert (E : serialize (decode_fields data) = take 38 data).
  { unfold serialize, decode_fields, WireOrder_of_bytes, WireOrder_to_bytes,
      hton64, ntoh64, htonl, ntohl, doubleToUint64, uint64ToDouble.
    cbn [order_id timestamp_ns price quantity symbol side type
         w_order_id w_timestamp_ns w_price w_quantity w_symbol w_side w_type].
    rewrite !bswap8_involutive by (apply (le_combine_slice_range _ 8); lia).
    rewrite bswap4_involutive by (apply (le_combine_slice_range _ 4); lia).
    rewrite !le_split_combine_len by (apply length_slice; lia).
    rewrite (take_ge (slice 28 8 data)) by (rewrite length_slice; lia).
    apply slices_38. exact Hl. }
  split; [exact E|].
  intros o Ho. destruct (parse_result start end_ data r) as (_ & _ & H).
  destruct (H o Ho) as (-> & _). exact E.
Qed.

Lemma serialize_decode_fields_witness :
  serialize (decode_fields buf_bad_symbol_bad_price) = take 38 buf_bad_symbol_bad_price /\
  (forall o, fst (parse 0 7 buf_bad_symbol_bad_price (fresh_ring 4)) = Some o ->
     serialize o = take 38 buf_bad_symbol_bad_price).
Proof.
  apply (serialize_decode_fields 0 7 buf_bad_symbol_bad_price (fresh_ring 4)).
  simpl. lia.
Defined.

Lemma testbit_63 (bits : Z) :
  0 <= bits < 2 ^ 64 -> Z.testbit bits 63 = (2 ^ 63 <=? bits).
Proof.
  intros H. rewrite Z.testbit_odd, Z.shiftr_div_pow2 by lia.
  destruct (Z.leb_spec (2 ^ 63) bits) as [Hge|Hlt].
  - replace (bits / 2 ^ 63) with 1; [reflexivity|].
    apply (Z.div_unique bits (2 ^ 63) 1 (bits - 2 ^ 63)); lia.
  - rewrite Z.div_small by lia. reflexivity.
Qed.

(** Which prices pass.  A 64-bit pattern passes [validatePrice] exactly when
    it lies in [1 .. 0x7FF0000000000000]: the positive subnormal and normal
    numbers and [+infinity] pass; both zeros, every negative number,
    [-infinity] and every NaN are refused. *)
Theorem validatePrice_bits (bits : Z) :
  0 <= bits < 2 ^ 64 ->
  (validatePrice bits = true <-> 0 < bits <= 0x7FF0000000000000).
Proof.
  intros Hb. unfold validatePrice, double_of_bits.
  rewrite testbit_63 by exact Hb. cbv zeta.
  pose proof (Z.div_mod bits (2 ^ 52) ltac:(lia)) as Ediv.
  pose proof (Z.mod_pos_bound bits (2 ^ 52) ltac:(lia)) as Hm.
  assert (Hq : 0 <= bits / 2 ^ 52 < 2 ^ 12).
  { split; [apply Z.div_pos; lia | apply Z.div_lt_upper_bound; lia]. }
  set (q := bits / 2 ^ 52) in *. set (m := bits mod 2 ^ 52) in *.
  pose proof (Z.div_mod q (2 ^ 11) ltac:(lia)) as Ediv2.
  pose proof (Z.mod_pos_bound q (2 ^ 11) ltac:(lia)) as He.
  assert (Hs : 0 <= q / 2 ^ 11 < 2).
  { split; [apply Z.div_pos; lia | apply Z.div_lt_upper_bound; lia]. }
  set (e := q mod 2 ^ 11) in *. set (s := q / 2 ^ 11) in *.
  clearbody q m e s.
  change (0x7FF0000000000000) with (2047 * 2 ^ 52).
  destruct (Z.leb_spec (2 ^ 63) bits) as [Hge|Hlt].
  - (* sign bit set *)
    assert (Hfalse : forall x,
      match x with
      | S754_zero sg | S754_infinity sg => sg = true
      | S754_nan => True
      | S754_finite sg _ _ => sg = true
      end -> SFltb (S754_zero false) x = false).
    { intros [sg|sg| |sg p z] Hx; try subst sg; reflexivity. }
    rewrite Hfalse.
    + split; [discriminate | lia].
    + destruct (e =? 0); [destruct m; reflexivity|].
      destruct (e =? 2047); [destruct (m =? 0); reflexivity|].
      destruct (m + 2 ^ 52); reflexivity || exact I.
  - (* sign bit clear *)
    destruct (Z.eqb_spec e 0) as [E0|E0].
    + destruct m as [|p|p] eqn:Em; cbn; split; try discriminate; try lia; reflexivity.
    + destruct (Z.eqb_spec e 2047) as [E1|E1].
      * destruct (Z.eqb_spec m 0) as [M0|M0]; cbn; split;
          try discriminate; try lia; reflexivity.
      * destruct (m + 2 ^ 52) as [|p|p] eqn:Em; try lia.
        cbn. split; [lia | reflexivity].
Qed.

Lemma validatePrice_bits_witness :
  validatePrice price_50_25 = true <-> 0 < price_50_25 <= 0x7FF0000000000000.
Proof.
  apply (validatePrice_bits price_50_25). unfold price_50_25. lia.
Defined.

(** The recorder after a call of [parse].  On a recorder whose array has
    its 1,000,000 slots: when [parse] fails nothing changes; when it
    succeeds the write index advances by one (modulo [2^64]), the slot
    [index % 1,000,000] holds the elapsed count [end - start] (modulo
    [2^64]) and every other slot is as before. *)
Theorem parse_recorder_effect (start end_ : Z) (data : list byte) (r : Recorder) :
  Z.of_nat (length (getTimestampList r)) = getMaxSamples ->
  0 <= getIndex r < 2 ^ 64 ->
  let r' := snd (parse start end_ data r) in
  match fst (parse start end_ data r) with
  | None => r' = r
  | Some _ =>
      getIndex r' = (getIndex r + 1) mod 2 ^ 64 /\
      length (getTimestampList r') = length (getTimestampList r) /\
      slot r' (getIndex r mod getMaxSamples) = Some ((end_ - start) mod 2 ^ 64) /\
      (forall k, 0 <= k -> k <> getIndex r mod getMaxSamples -> slot r' k = slot r k)
  end.
Proof.
  unfold getTimestampList, getIndex, getMaxSamples. intros Hlen Hidx.
  destruct (parse_result start end_ data r) as (Hyes & Hno & Hsome).
  destruct (fst (parse start end_ data r)) as [o|] eqn:E.
  - destruct (Hsome o eq_refl) as (-> & Hv & _).
    unfold MAX_SAMPLES in *.
    pose proof (Z.mod_pos_bound (s_idx r) 1000000 ltac:(lia)) as Hm.
    rewrite (Hyes Hv). cbn [snd]. unfold recordLatency, recordLatency_cap, slot.
    cbn [s_idx timestamps_RDTSC]. unfold MAX_SAMPLES.
    split; [reflexivity|]. split; [apply length_insert|]. split.
    + apply list_lookup_insert_eq. lia.
    + intros k Hk Hne. apply list_lookup_insert_ne.
      intros Eq. apply Z2Nat.inj in Eq; lia.
  - assert (Hn : parse start end_ data r = (None, r)).
    { apply Hno. intros Hv. rewrite (Hyes Hv) in E. discriminate E. }
    rewrite Hn. reflexivity.
Qed.

Lemma parse_recorder_effect_witness :
  let r := fresh_ring MAX_SAMPLES in
  let r' := snd (parse 10 25 (serialize sample_order) r) in
  match fst (parse 10 25 (serialize sample_order) r) with
  | None => r' = r
  | Some _ =>
      getIndex r' = (getIndex r + 1) mod 2 ^ 64 /\
      length (getTimestampList r') = length (getTimestampList r) /\
      slot r' (getIndex r mod getMaxSamples) = Some ((25 - 10) mod 2 ^ 64) /\
      (forall k, 0 <= k -> k <> getIndex r mod getMaxSamples -> slot r' k = slot r k)
  end.
Proof.
  apply (parse_recorder_effect 10 25 (serialize sample_order) (fresh_ring MAX_SAMPLES)).
  - unfold getTimestampList, getMaxSamples, fresh_ring. cbn [timestamps_RDTSC].
    rewrite length_replicate. apply Z2Nat.id. unfold MAX_SAMPLES. lia.
  - unfold getIndex, fresh_ring. cbn [s_idx]. lia.
Defined.

Lemma validateSymbol_loop_nul (pre rest : list byte) :
  validateSymbol_loop (pre ++ Byte.x00 :: rest) = validateSymbol_loop pre.
Proof.
  induction pre as [|c pre IH]; [reflexivity|].
  cbn [app validateSymbol_loop]. rewrite IH. reflexivity.
Qed.

(** Bytes after the terminator are not looked at.  When a NUL stands among
    the first 8 bytes of the symbol, the verdict of [validateSymbol] depends
    on the bytes before it only; in particular a symbol that starts with NUL
    (the empty symbol) passes. *)
Theorem validateSymbol_stops_at_nul (pre rest rest' : list byte) :
  (length pre < 8)%nat ->
  validateSymbol (pre ++ Byte.x00 :: rest) = validateSymbol (pre ++ Byte.x00 :: rest') /\
  validateSymbol (pre ++ Byte.x00 :: rest) = validateSymbol_loop pre /\
  validateSymbol (Byte.x00 :: rest) = true.
Proof.
  intros Hl.
  assert (E : forall tl, validateSymbol (pre ++ Byte.x00 :: tl) = validateSymbol_loop pre).
  { intros tl. unfold validateSymbol.
    rewrite take_app_ge by lia.
    replace (8 - length pre)%nat with (S (7 - length pre)) by lia.
    cbn [take]. apply validateSymbol_loop_nul. }
  split; [rewrite !E; reflexivity|]. split; [apply E | reflexivity].
Qed.

Lemma validateSymbol_stops_at_nul_witness :
  validateSymbol ([Byte.x41; Byte.x42] ++ Byte.x00 :: [Byte.x2d; Byte.xff]) =
    validateSymbol ([Byte.x41; Byte.x42] ++ Byte.x00 :: []) /\
  validateSymbol ([Byte.x41; Byte.x42] ++ Byte.x00 :: [Byte.x2d; Byte.xff]) =
    validateSymbol_loop [Byte.x41; Byte.x42] /\
  validateSymbol (Byte.x00 :: [Byte.x2d; Byte.xff]) = true.
Proof.
  apply (validateSymbol_stops_at_nul [Byte.x41; Byte.x42] [Byte.x2d; Byte.xff] []).
  simpl. lia.
Defined.

(** The ring before it wraps.  After [n] samples, with [n] no larger than
    the capacity, the write index is [n], slot [k] holds the sample number
    [k] for every [k < n], and the slots from [n] on still hold zero. *)
Theorem ring_before_wrap (cap : Z) (sample : Z -> Z) (n : N) (k : Z) :
  0 < cap -> Z.of_N n <= cap -> Z.of_N n <= 2 ^ 64 -> 0 <= k < cap ->
  let r := record_samples cap sample n (fresh_ring cap) in
  getIndex r = Z.of_N n mod 2 ^ 64 /\
  length (getTimestampList r) = Z.to_nat cap /\
  slot r k = Some (if k <? Z.of_N n then sample k else 0).
Proof.
  intros Hc Hn H64 Hk r.
  destruct (ring_inv_record_samples cap Hc sample n H64) as (Hidx & Hlen & Hwin & Hzero).
  fold r in Hidx, Hlen, Hwin, Hzero.
  split; [exact Hidx|]. split; [exact Hlen|].
  destruct (Z.ltb_spec k (Z.of_N n)) as [Hlt|Hge].
  - rewrite <- (Z.mod_small k cap) at 1 by lia. apply Hwin; lia.
  - apply Hzero. lia.
Qed.

Lemma ring_before_wrap_witness :
  let r := record_samples 4 (fun i => 100 + i) 3 (fresh_ring 4) in
  getIndex r = Z.of_N 3 mod 2 ^ 64 /\
  length (getTimestampList r) = Z.to_nat 4 /\
  slot r 2 = Some (if 2 <? Z.of_N 3 then (fun i => 100 + i) 2 else 0).
Proof.
  apply (ring_before_wrap 4 (fun i => 100 + i) 3 2); simpl; lia.
Defined.

(** ** More on the queue used by one thread *)

Section Advisory.

Context {T : Type}.
Variable k : Z.
Hypothesis k_pos : 1 <= k.
Hypothesis k_small : 2 ^ k < 2 ^ 64.

Let cap := 2 ^ k.

Lemma queue_inv_observers (q : spscqueue.SPSCQueue T) (x : T) :
  queue_inv cap q ->
  0 <= spscqueue.size q <= cap - 1 /\
  (spscqueue.empty q = true <-> spscqueue.size q = 0) /\
  (spscqueue.full q = true <-> spscqueue.size q = cap - 1) /\
  fst (spscqueue.push q x) = negb (spscqueue.full q) /\
  (spscqueue.full q = true -> snd (spscqueue.push q x) = q) /\
  (spscqueue.full q = false ->
     spscqueue.size (snd (spscqueue.push q x)) = spscqueue.size q + 1) /\
  (spscqueue.empty q = true -> spscqueue.pop q = (spscqueue.Empty, q)) /\
  (spscqueue.empty q = false ->
     (exists y, fst (spscqueue.pop q) = spscqueue.Popped (Some y)) /\
     spscqueue.size (snd (spscqueue.pop q)) = spscqueue.size q - 1).
Proof.
  intros Hinv.
  pose proof (queue_inv_push k k_pos k_small q x Hinv) as Hpush.
  pose proof (queue_inv_pop k k_pos k_small q Hinv) as Hpop.
  fold cap in Hpush, Hpop.
  destruct Hinv as (Hc & Hl & Hh & Ht & Hs & Hn).
  rewrite (size_mod k k_pos k_small q Hc).
  rewrite (size_mod k k_pos k_small _ (proj1 Hpush)).
  rewrite (size_mod k k_pos k_small _ (proj1 Hpop)).
  fold cap. clear Hpush Hpop.
  unfold spscqueue.empty, spscqueue.full, spscqueue.push, spscqueue.pop.
  rewrite (next_index_mod k k_pos k_small q _ Hc Hh).
  rewrite (next_index_mod k k_pos k_small q _ Hc Ht). fold cap.
  set (h := spscqueue.head_ q) in *. set (t := spscqueue.tail_ q) in *.
  pose proof (mod_sub_spec h t cap Hh Ht) as Hn0.
  pose proof (mod_succ_spec h cap Hh) as Hh1.
  pose proof (mod_succ_spec t cap Ht) as Ht1.
  assert (Hh1r : 0 <= (h + 1) mod cap < cap) by lia.
  assert (Ht1r : 0 <= (t + 1) mod cap < cap) by lia.
  pose proof (mod_sub_spec ((h + 1) mod cap) t cap Hh1r Ht) as Hn1.
  pose proof (mod_sub_spec h ((t + 1) mod cap) cap Hh Ht1r) as Hn2.
  split; [lia|].
  split; [destruct (Z.eqb_spec h t); split; intros; (discriminate || reflexivity || lia)|].
  split; [destruct (Z.eqb_spec ((h + 1) mod cap) t); split; intros;
          (discriminate || reflexivity || lia)|].
  split; [destruct ((h + 1) mod cap =? t); reflexivity|].
  split; [intros ->; reflexivity|].
  split.
  { intros E. rewrite E. cbn [snd spscqueue.store_head spscqueue.construct_at
                               spscqueue.head_ spscqueue.tail_].
    fold h t. apply Z.eqb_neq in E. lia. }
  split.
  { intros E. apply Z.eqb_eq in E. rewrite <- E, Z.eqb_refl. reflexivity. }
  intros E. apply Z.eqb_neq in E.
  destruct (Z.eqb_spec t h) as [E'|_]; [congruence|].
  cbn [fst snd spscqueue.store_tail spscqueue.destroy_at spscqueue.head_ spscqueue.tail_].
  fold h t. split; [|lia].
  destruct (proj2 (Hs t Ht)) as [y Hy]; [rewrite Z.sub_diag, Z.mod_0_l; lia|].
  exists y. rewrite Hy. reflexivity.
Qed.

End Advisory.

(** Full and empty.  In every state that a sequence of [push] and [pop] calls
    of one thread reaches from construction with capacity [N]: [size()] is
    between 0 and [N - 1]; [empty()] holds exactly when the size is 0 and
    [full()] exactly when it is [N - 1]; [push] returns [false] exactly when
    [full()] holds, and then changes nothing, and otherwise adds one to the
    size; [pop] on an empty queue returns [false] and changes nothing, and
    otherwise delivers a constructed element and takes one off the size. *)
Theorem full_empty_size (T : Type) (capacity : Z) (q0 : spscqueue.SPSCQueue T)
    (calls : list (spscqueue.call T)) (x : T) :
  0 <= capacity < 2 ^ 64 ->
  spscqueue.new capacity = inr q0 ->
  let q := spscqueue.run q0 calls in
  spscqueue.capacity q = capacity /\
  0 <= spscqueue.size q <= capacity - 1 /\
  (spscqueue.empty q = true <-> spscqueue.size q = 0) /\
  (spscqueue.full q = true <-> spscqueue.size q = capacity - 1) /\
  fst (spscqueue.push q x) = negb (spscqueue.full q) /\
  (spscqueue.full q = true -> snd (spscqueue.push q x) = q) /\
  (spscqueue.full q = false ->
     spscqueue.size (snd (spscqueue.push q x)) = spscqueue.size q + 1) /\
  (spscqueue.empty q = true -> spscqueue.pop q = (spscqueue.Empty, q)) /\
  (spscqueue.empty q = false ->
     (exists y, fst (spscqueue.pop q) = spscqueue.Popped (Some y)) /\
     spscqueue.size (snd (spscqueue.pop q)) = spscqueue.size q - 1).
Proof.
  intros Hc Hnew q.
  destruct (proj2 (new_accepts T capacity Hc) (ex_intro _ q0 Hnew)) as (k & Hk & ->).
  assert (Hinv : queue_inv (2 ^ k) q).
  { apply queue_inv_run; [exact Hk | lia |].
    apply queue_inv_new; [exact Hk | lia | exact Hnew]. }
  split; [apply Hinv|].
  apply (queue_inv_observers k Hk ltac:(lia) q x Hinv).
Qed.

Lemma full_empty_size_witness :
  let q := spscqueue.run (spscqueue.mkSPSCQueue 4 [@None nat; None; None; None] 0 0)
             [spscqueue.Push 1%nat; spscqueue.Push 2%nat; spscqueue.Pop;
              spscqueue.Push 3%nat; spscqueue.Push 4%nat] in
  spscqueue.capacity q = 4 /\
  0 <= spscqueue.size q <= 4 - 1 /\
  (spscqueue.empty q = true <-> spscqueue.size q = 0) /\
  (spscqueue.full q = true <-> spscqueue.size q = 4 - 1) /\
  fst (spscqueue.push q 5%nat) = negb (spscqueue.full q) /\
  (spscqueue.full q = true -> snd (spscqueue.push q 5%nat) = q) /\
  (spscqueue.full q = false ->
     spscqueue.size (snd (spscqueue.push q 5%nat)) = spscqueue.size q + 1) /\
  (spscqueue.empty q = true -> spscqueue.pop q = (spscqueue.Empty, q)) /\
  (spscqueue.empty q = false ->
     (exists y, fst (spscqueue.pop q) = spscqueue.Popped (Some y)) /\
     spscqueue.size (snd (spscqueue.pop q)) = spscqueue.size q - 1).
Proof.
  apply (full_empty_size nat 4).
  - lia.
  - reflexivity.
Defined.

(** ** More on the analysis *)

Lemma sorted_lookup_le (l : list Z) (i j : nat) (x y : Z) :
  Sorted Z.le l -> (i <= j)%nat -> l !! i = Some x -> l !! j = Some y -> x <= y.
Proof.
  intros Hs Hij Hx Hy.
  destruct (Nat.eq_dec i j) as [->|Hne]; [rewrite Hx in Hy; injection Hy; lia|].
  assert (Hss : StronglySorted Z.le l).
  { apply Sorted_StronglySorted; first [exact Hs | intros a b c; lia]. }
  rewrite <- (take_drop j l) in Hss.
  apply (StronglySorted_app_1_elem_of Z.le _ _ x y Hss).
  - apply (list_elem_of_lookup_2 _ i). rewrite lookup_take_lt by lia. exact Hx.
  - apply (list_elem_of_lookup_2 _ 0%nat). rewrite lookup_drop, Nat.add_0_r. exact Hy.
Qed.

(** The figures of a report are samples, in order.  For [0 < count] no
    larger than the array (of at most 1,000,000 slots), the minimum, median,
    99th percentile, 99.9th percentile and maximum reported are each one of
    the first [count] samples (none is interpolated), and they come in that
    order: min <= median <= p99 <= p99.9 <= max. *)
Theorem analyzeLatencies_ordered (timestampArr : list Z) (count : Z) :
  0 < count <= Z.of_nat (length timestampArr) ->
  Z.of_nat (length timestampArr) <= MAX_SAMPLES ->
  exists r : LatencyTracker.Report,
    LatencyTracker.analyzeLatencies timestampArr count = LatencyTracker.stats r /\
    LatencyTracker.r_min r <= LatencyTracker.r_median r /\
    LatencyTracker.r_median r <= LatencyTracker.r_p99 r /\
    LatencyTracker.r_p99 r <= LatencyTracker.r_p999 r /\
    LatencyTracker.r_p999 r <= LatencyTracker.r_max r /\
    (forall v, v ∈ [LatencyTracker.r_min r; LatencyTracker.r_median r;
                    LatencyTracker.r_p99 r; LatencyTracker.r_p999 r;
                    LatencyTracker.r_max r] ->
               v ∈ take (Z.to_nat count) timestampArr).
Proof.
  intros Hcount Hmax.
  set (prefix := take (Z.to_nat count) timestampArr).
  assert (Hlen : Z.of_nat (length prefix) = count).
  { unfold prefix. rewrite length_take. lia. }
  assert (Hne : prefix <> []).
  { intros E. rewrite E in Hlen. simpl in Hlen. lia. }
  pose proof (sort_permutation prefix) as Hperm.
  pose proof (sort_sorted prefix) as Hsorted.
  set (sorted := LatencyTracker.sort prefix) in *.
  assert (Hslen : Z.of_nat (length sorted) = count).
  { rewrite (Permutation_length Hperm). exact Hlen. }
  unfold MAX_SAMPLES in Hmax.
  destruct (percentile_rank sorted) as [H99 H999]; [rewrite Hslen; lia|].
  rewrite Hslen in H99, H999.
  assert (Hq1 : 0 <= count / 2 < count).
  { split; [apply Z.div_pos; lia | apply Z.div_lt_upper_bound; lia]. }
  assert (Hq2 : 0 <= 99 * count / 100 < count).
  { split; [apply Z.div_pos; lia | apply Z.div_lt_upper_bound; lia]. }
  assert (Hq3 : 0 <= 999 * count / 1000 < count).
  { split; [apply Z.div_pos; lia | apply Z.div_lt_upper_bound; lia]. }
  assert (Hq12 : count / 2 <= 99 * count / 100).
  { apply Z.div_le_lower_bound; [lia|].
    pose proof (Z.mul_div_le count 2 ltac:(lia)). lia. }
  assert (Hq23 : 99 * count / 100 <= 999 * count / 1000).
  { apply Z.div_le_lower_bound; [lia|].
    pose proof (Z.mul_div_le (99 * count) 100 ltac:(lia)). lia. }
  destruct (min_element_spec prefix Hne) as [Hmin_in Hmin].
  destruct (max_element_spec prefix Hne) as [Hmax_in Hmax'].
  pose proof (nth_in_range sorted (Z.to_nat (count / 2)) ltac:(lia)) as L1.
  pose proof (nth_in_range sorted (Z.to_nat (99 * count / 100)) ltac:(lia)) as L2.
  pose proof (nth_in_range sorted (Z.to_nat (999 * count / 1000)) ltac:(lia)) as L3.
  assert (Hin : forall i v, sorted !! i = Some v -> v ∈ prefix).
  { intros i v Hv. rewrite <- Hperm. apply (list_elem_of_lookup_2 _ i). exact Hv. }
  eexists. split; [apply analyzeLatencies_in_bounds; lia|].
  cbv zeta.
  cbn [LatencyTracker.r_count LatencyTracker.r_min LatencyTracker.r_max
       LatencyTracker.r_median LatencyTracker.r_p99 LatencyTracker.r_p999
       LatencyTracker.r_avg].
  fold prefix. fold sorted. rewrite Hlen, H99, H999.
  split; [apply Hmin; apply (Hin _ _ L1)|].
  assert (N12 : (Z.to_nat (count / 2) <= Z.to_nat (99 * count / 100))%nat) by lia.
  assert (N23 : (Z.to_nat (99 * count / 100) <= Z.to_nat (999 * count / 1000))%nat)
    by lia.
  split; [apply (sorted_lookup_le sorted _ _ _ _ Hsorted N12 L1 L2)|].
  split; [apply (sorted_lookup_le sorted _ _ _ _ Hsorted N23 L2 L3)|].
  split; [apply Hmax'; apply (Hin _ _ L3)|].
  intros v Hv. rewrite !elem_of_cons in Hv.
  destruct Hv as [->|[->|[->|[->|[->|Hv]]]]]; try assumption.
  - apply (Hin _ _ L1).
  - apply (Hin _ _ L2).
  - apply (Hin _ _ L3).
  - apply elem_of_nil in Hv. destruct Hv.
Qed.

Lemma analyzeLatencies_ordered_witness :
  exists r : LatencyTracker.Report,
    LatencyTracker.analyzeLatencies [40; 10; 30; 20] 3 = LatencyTracker.stats r /\
    LatencyTracker.r_min r <= LatencyTracker.r_median r /\
    LatencyTracker.r_median r <= LatencyTracker.r_p99 r /\
    LatencyTracker.r_p99 r <= LatencyTracker.r_p999 r /\
    LatencyTracker.r_p999 r <= LatencyTracker.r_max r /\
    (forall v, v ∈ [LatencyTracker.r_min r; LatencyTracker.r_median r;
                    LatencyTracker.r_p99 r; LatencyTracker.r_p999 r;
                    LatencyTracker.r_max r] ->
               v ∈ take (Z.to_nat 3) [40; 10; 30; 20]).
Proof.
  apply (analyzeLatencies_ordered [40; 10; 30; 20] 3).
  - simpl. lia.
  - unfold MAX_SAMPLES. simpl. lia.
Defined.

(** ** The destructor *)

(** More iterations allowed do not change the result. *)
Lemma destroy_loop_mono {T : Type} (fuel fuel' : nat) (q : spscqueue.SPSCQueue T)
    (t h : Z) (r : list (option T) * spscqueue.SPSCQueue T) :
  (fuel <= fuel')%nat ->
  spscqueue.destroy_loop fuel q t h = Some r ->
  spscqueue.destroy_loop fuel' q t h = Some r.
Proof.
  revert fuel' q t r. induction fuel as [|fuel IH]; intros fuel' q t r Hle H.
  - cbn [spscqueue.destroy_loop] in H.
    destruct (Z.eqb_spec t h) as [E|NE]; [|discriminate H].
    destruct fuel'; cbn [spscqueue.destroy_loop];
      destruct (Z.eqb_spec t h); try contradiction; exact H.
  - destruct fuel' as [|fuel']; [lia|].
    cbn [spscqueue.destroy_loop] in *.
    destruct (Z.eqb_spec t h) as [E|NE]; [exact H|].
    destruct (spscqueue.destroy_loop fuel _ _ h) as [[d q']|] eqn:E; [|discriminate H].
    rewrite (IH fuel' _ _ _ ltac:(lia) E). exact H.
Qed.

Section Destructor.

Context {T : Type}.
Variable k : Z.
Hypothesis k_pos : 1 <= k.
Hypothesis k_small : 2 ^ k < 2 ^ 64.

Let cap := 2 ^ k.

Lemma destroy_loop_spec (fuel : nat) (q q1 : spscqueue.SPSCQueue T) :
  queue_inv cap q ->
  spscqueue.capacity_ q1 = spscqueue.capacity_ q ->
  spscqueue.buffer_ q1 = spscqueue.buffer_ q ->
  spscqueue.size q <= Z.of_nat fuel ->
  exists destroyed q',
    spscqueue.destroy_loop fuel q1 (spscqueue.tail_ q) (spscqueue.head_ q) =
      Some (destroyed, q') /\
    Z.of_nat (length destroyed) = spscqueue.size q /\
    Forall is_Some destroyed /\
    spscqueue.live q' = 0 /\
    spscqueue.capacity_ q' = spscqueue.capacity_ q1 /\
    spscqueue.head_ q' = spscqueue.head_ q1 /\
    spscqueue.tail_ q' = spscqueue.tail_ q1.
Proof.
  revert q q1. induction fuel as [|fuel IH]; intros q q1 Hinv Hcap Hbuf Hfuel.
  all: pose proof Hinv as (Hc & Hl & Hh & Ht & Hs & Hn).
  all: pose proof (size_mod k k_pos k_small q Hc) as Hsz; fold cap in Hsz.
  all: pose proof (mod_sub_spec _ _ cap Hh Ht) as Hd.
  all: cbn [spscqueue.destroy_loop].
  all: destruct (Z.eqb_spec (spscqueue.tail_ q) (spscqueue.head_ q)) as [E|NE].
  - exists [], q1. repeat split; try (simpl; lia); [constructor|].
    unfold spscqueue.live. rewrite Hbuf. fold (spscqueue.live q). lia.
  - lia.
  - exists [], q1. repeat split; try (simpl; lia); [constructor|].
    unfold spscqueue.live. rewrite Hbuf. fold (spscqueue.live q). lia.
  - pose proof (queue_inv_pop k k_pos k_small q Hinv) as Hinv2. fold cap in Hinv2.
    unfold spscqueue.pop in Hinv2.
    destruct (Z.eqb_spec (spscqueue.tail_ q) (spscqueue.head_ q)) as [E|_];
      [contradiction|].
    cbn [snd] in Hinv2.
    set (q2 := spscqueue.store_tail (spscqueue.destroy_at q (spscqueue.tail_ q))
                 (spscqueue.next_index q (spscqueue.tail_ q))) in *.
    assert (Hnx : spscqueue.next_index q1 (spscqueue.tail_ q) = spscqueue.tail_ q2).
    { unfold spscqueue.next_index. rewrite Hcap. reflexivity. }
    pose proof (size_mod k k_pos k_small q2 (proj1 Hinv2)) as Hsz2. fold cap in Hsz2.
    assert (Ht2 : spscqueue.tail_ q2 = (spscqueue.tail_ q + 1) mod cap).
    { apply (next_index_mod k k_pos k_small q _ Hc Ht). }
    pose proof (mod_succ_spec _ cap Ht) as Hsucc.
    assert (Ht2r : 0 <= spscqueue.tail_ q2 < cap) by lia.
    pose proof (mod_sub_spec (spscqueue.head_ q) _ cap Hh Ht2r) as Hd2.
    change (spscqueue.head_ q2) with (spscqueue.head_ q) in Hsz2.
    destruct (IH q2 (spscqueue.destroy_at q1 (spscqueue.tail_ q)) Hinv2)
      as (destroyed & q' & Hrun & Hlen & Hall & Hlive & Hc' & Hh' & Ht').
    + unfold q2. simpl. exact Hcap.
    + unfold q2. simpl. rewrite Hbuf. reflexivity.
    + lia.
    + rewrite Hnx. change (spscqueue.head_ q) with (spscqueue.head_ q2). rewrite Hrun.
      eexists _, q'. split; [reflexivity|].
      split; [simpl length; lia|].
      split.
      * constructor; [|exact Hall].
        unfold spscqueue.move_from. rewrite Hbuf.
        apply (Hs _ Ht). rewrite Z.sub_diag, Z.mod_0_l by lia. lia.
      * repeat split; assumption.
Qed.

End Destructor.

(** The destructor destroys what is alive, once.  Whatever sequence of
    [push] and [pop] calls one thread has made on a constructed queue, the
    loop of [~SPSCQueue()] ends after as many iterations as [size()]
    reports (any larger bound on the iterations gives the same result); each
    of its destructor calls is made on a slot that holds an object; when it
    ends no object is left alive in the storage; and it stores to neither
    cursor. *)
Theorem destructor_destroys_live (T : Type) (capacity : Z)
    (q0 : spscqueue.SPSCQueue T) (calls : list (spscqueue.call T)) (fuel : nat) :
  0 <= capacity < 2 ^ 64 ->
  spscqueue.new capacity = inr q0 ->
  let q := spscqueue.run q0 calls in
  spscqueue.size q <= Z.of_nat fuel ->
  exists destroyed q',
    spscqueue.destructor fuel q = Some (destroyed, q') /\
    spscqueue.destructor (Z.to_nat (spscqueue.size q)) q = Some (destroyed, q') /\
    Z.of_nat (length destroyed) = spscqueue.size q /\
    Forall is_Some destroyed /\
    spscqueue.live q' = 0 /\
    spscqueue.head_ q' = spscqueue.head_ q /\
    spscqueue.tail_ q' = spscqueue.tail_ q.
Proof.
  intros Hc Hnew q Hfuel.
  destruct (proj2 (new_accepts T capacity Hc) (ex_intro _ q0 Hnew)) as (k & Hk & ->).
  assert (Hinv : queue_inv (2 ^ k) q).
  { apply queue_inv_run; [exact Hk | lia |].
    apply queue_inv_new; [exact Hk | lia | exact Hnew]. }
  assert (Hsz : 0 <= spscqueue.size q).
  { rewrite (size_mod k Hk ltac:(lia) q (proj1 Hinv)).
    apply Z.mod_pos_bound. destruct (pow2_bounds k Hk ltac:(lia)). lia. }
  destruct (destroy_loop_spec k Hk ltac:(lia) fuel q q Hinv eq_refl eq_refl Hfuel)
    as (destroyed & q' & Hrun & Hlen & Hall & Hlive & _ & Hh & Ht).
  destruct (destroy_loop_spec k Hk ltac:(lia) (Z.to_nat (spscqueue.size q)) q q Hinv
              eq_refl eq_refl ltac:(lia))
    as (destroyed2 & q2 & Hrun2 & Hlen2 & _).
  exists destroyed, q'. split; [exact Hrun|].
  split; [|repeat split; assumption].
  unfold spscqueue.destructor.
  assert (Hle : (Z.to_nat (spscqueue.size q) <= fuel)%nat) by lia.
  rewrite (destroy_loop_mono _ fuel _ _ _ _ Hle Hrun2) in Hrun.
  rewrite Hrun2. exact Hrun.
Qed.

Lemma destructor_destroys_live_witness :
  let q := spscqueue.run (spscqueue.mkSPSCQueue 4 [@None nat; None; None; None] 0 0)
             [spscqueue.Push 1%nat; spscqueue.Push 2%nat; spscqueue.Pop;
              spscqueue.Push 3%nat; spscqueue.Push 4%nat; spscqueue.Pop;
              spscqueue.Push 5%nat] in
  exists destroyed q',
    spscqueue.destructor 9 q = Some (destroyed, q') /\
    spscqueue.destructor (Z.to_nat (spscqueue.size q)) q = Some (destroyed, q') /\
    Z.of_nat (length destroyed) = spscqueue.size q /\
    Forall is_Some destroyed /\
    spscqueue.live q' = 0 /\
    spscqueue.head_ q' = spscqueue.head_ q /\
    spscqueue.tail_ q' = spscqueue.tail_ q.
Proof.
  apply (destructor_destroys_live nat 4).
  - lia.
  - reflexivity.
  - vm_compute. discriminate.
Defined.

Example destructor_run :
  spscqueue.destructor 3
    (spscqueue.run (spscqueue.mkSPSCQueue 4 [@None nat; None; None; None] 0 0)
       [spscqueue.Push 1%nat; spscqueue.Push 2%nat; spscqueue.Pop;
        spscqueue.Push 3%nat; spscqueue.Push 4%nat; spscqueue.Pop;
        spscqueue.Push 5%nat]) =
  Some ([Some 3%nat; Some 4%nat; Some 5%nat],
        spscqueue.mkSPSCQueue 4 [None; None; None; None] 1 2).
Proof. reflexivity. Qed.
